(** * Entrance randomizer of wwrando: a shallow embedding of
    [randomizers/entrances.py] and the properties of its assignment loop,
    its nested-chain resolution and its zone lookup. *)

From stdpp Require Import base decidable option list strings.
From Stdlib Require Import ZArith Lia.

Local Open Scope string_scope.

(** ** Catalog records *)

(** [ZoneEntrance] is a frozen dataclass: equality compares every field. *)
Record ZoneEntrance := mkEntrance {
  e_stage_name : string;
  e_room_num : Z;
  e_scls_exit_index : Z;
  e_spawn_id : Z;
  entrance_name : string;
  island_name : option string;
  warp_out_stage_name : option string;
  warp_out_room_num : option Z;
  warp_out_spawn_id : option Z;
}.

Definition is_nested (e : ZoneEntrance) : bool :=
  match island_name e with None => true | Some _ => false end.

Record ZoneExit := mkExit {
  x_stage_name : string;
  x_room_num : Z;
  x_scls_exit_index : Z;
  x_spawn_id : Z;
  zone_name : string;
  unique_name : string;
  boss_stage_name : option string;
}.

#[global] Instance ZoneEntrance_eq_dec : EqDecision ZoneEntrance.
Proof. solve_decision. Defined.

#[global] Instance ZoneExit_eq_dec : EqDecision ZoneExit.
Proof. solve_decision. Defined.

(** Constructors with the dataclass defaults. *)
Definition island_entrance (st : string) (room scls spawn : Z) (name island wst : string)
    (wroom wspawn : Z) : ZoneEntrance :=
  mkEntrance st room scls spawn name (Some island) (Some wst) (Some wroom) (Some wspawn).

Definition nested_entrance (st : string) (room scls spawn : Z) (name : string) : ZoneEntrance :=
  mkEntrance st room scls spawn name None None None None.

Definition DUNGEON_ENTRANCES : list ZoneEntrance := [
  island_entrance "Adanmae" 0 2 2 "Dungeon Entrance on Dragon Roost Island" "Dragon Roost Island" "sea" 13 211;
  island_entrance "sea" 41 6 6 "Dungeon Entrance in Forest Haven Sector" "Forest Haven" "Omori" 0 215;
  island_entrance "sea" 26 0 2 "Dungeon Entrance in Tower of the Gods Sector" "Tower of the Gods" "sea" 26 1;
  island_entrance "Edaichi" 0 0 1 "Dungeon Entrance on Headstone Island" "Headstone Island" "sea" 45 229;
  island_entrance "Ekaze" 0 0 1 "Dungeon Entrance on Gale Isle" "Gale Isle" "sea" 4 232
].

Definition BOSS_ENTRANCES : list ZoneEntrance := [
  nested_entrance "M_NewD2" 10 1 27 "Boss Entrance in Dragon Roost Cavern";
  nested_entrance "kindan" 16 0 1 "Boss Entrance in Forbidden Woods";
  nested_entrance "Siren" 18 0 27 "Boss Entrance in Tower of the Gods";
  nested_entrance "M_Dai" 15 0 27 "Boss Entrance in Earth Temple";
  nested_entrance "kaze" 12 0 27 "Boss Entrance in Wind Temple"
].

Definition SECRET_CAVE_ENTRANCES : list ZoneEntrance := [
  island_entrance "sea" 44 8 10 "Secret Cave Entrance on Outset Island" "Outset Island" "sea" 44 10;
  island_entrance "sea" 13 2 5 "Secret Cave Entrance on Dragon Roost Island" "Dragon Roost Island" "sea" 13 5;
  island_entrance "sea" 20 0 0 "Secret Cave Entrance on Fire Mountain" "Fire Mountain" "sea" 20 0;
  island_entrance "sea" 40 0 0 "Secret Cave Entrance on Ice Ring Isle" "Ice Ring Isle" "sea" 40 0;
  island_entrance "Abesso" 0 1 1 "Secret Cave Entrance on Private Oasis" "Private Oasis" "Abesso" 0 1;
  island_entrance "sea" 29 0 5 "Secret Cave Entrance on Needle Rock Isle" "Needle Rock Isle" "sea" 29 5;
  island_entrance "sea" 47 1 5 "Secret Cave Entrance on Angular Isles" "Angular Isles" "sea" 47 5;
  island_entrance "sea" 48 0 5 "Secret Cave Entrance on Boating Course" "Boating Course" "sea" 48 5;
  island_entrance "sea" 31 0 1 "Secret Cave Entrance on Stone Watcher Island" "Stone Watcher Island" "sea" 31 1;
  island_entrance "sea" 7 0 1 "Secret Cave Entrance on Overlook Island" "Overlook Island" "sea" 7 1;
  island_entrance "sea" 35 0 1 "Secret Cave Entrance on Bird's Peak Rock" "Bird's Peak Rock" "sea" 35 1;
  island_entrance "sea" 12 0 1 "Secret Cave Entrance on Pawprint Isle" "Pawprint Isle" "sea" 12 1;
  island_entrance "sea" 12 1 5 "Secret Cave Entrance on Pawprint Isle Side Isle" "Pawprint Isle" "sea" 12 5;
  island_entrance "sea" 36 0 1 "Secret Cave Entrance on Diamond Steppe Island" "Diamond Steppe Island" "sea" 36 1;
  island_entrance "sea" 34 0 1 "Secret Cave Entrance on Bomb Island" "Bomb Island" "sea" 34 1;
  island_entrance "sea" 16 0 1 "Secret Cave Entrance on Rock Spire Isle" "Rock Spire Isle" "sea" 16 1;
  island_entrance "sea" 38 0 5 "Secret Cave Entrance on Shark Island" "Shark Island" "sea" 38 5;
  island_entrance "sea" 42 0 2 "Secret Cave Entrance on Cliff Plateau Isles" "Cliff Plateau Isles" "sea" 42 2;
  island_entrance "sea" 43 0 5 "Secret Cave Entrance on Horseshoe Island" "Horseshoe Island" "sea" 43 5;
  island_entrance "sea" 2 0 1 "Secret Cave Entrance on Star Island" "Star Island" "sea" 2 1
].

Definition ALL_ENTRANCES : list ZoneEntrance :=
  DUNGEON_ENTRANCES ++ BOSS_ENTRANCES ++ SECRET_CAVE_ENTRANCES.

Definition dungeon_exit (st : string) (room scls spawn : Z) (zone uniq boss : string) : ZoneExit :=
  mkExit st room scls spawn zone uniq (Some boss).

Definition plain_exit (st : string) (room scls spawn : Z) (zone uniq : string) : ZoneExit :=
  mkExit st room scls spawn zone uniq None.

Definition DUNGEON_EXITS : list ZoneExit := [
  dungeon_exit "M_NewD2" 0 0 0 "Dragon Roost Cavern" "Dragon Roost Cavern" "M_DragB";
  dungeon_exit "kindan" 0 0 0 "Forbidden Woods" "Forbidden Woods" "kinBOSS";
  dungeon_exit "Siren" 0 1 0 "Tower of the Gods" "Tower of the Gods" "SirenB";
  dungeon_exit "M_Dai" 0 0 0 "Earth Temple" "Earth Temple" "M_DaiB";
  dungeon_exit "kaze" 15 0 15 "Wind Temple" "Wind Temple" "kazeB"
].

Definition BOSS_EXITS : list ZoneExit := [
  plain_exit "M_DragB" 0 0 0 "Gohma Boss Arena" "Gohma Boss Arena";
  plain_exit "kinBOSS" 0 0 0 "Kalle Demos Boss Arena" "Kalle Demos Boss Arena";
  plain_exit "SirenB" 0 0 0 "Gohdan Boss Arena" "Gohdan Boss Arena";
  plain_exit "M_DaiB" 0 0 0 "Jalhalla Boss Arena" "Jalhalla Boss Arena";
  plain_exit "kazeB" 0 0 0 "Molgera Boss Arena" "Molgera Boss Arena"
].

Definition SECRET_CAVE_EXITS : list ZoneExit := [
  plain_exit "Cave09" 0 1 0 "Outset Island" "Savage Labyrinth";
  plain_exit "TF_06" 0 0 0 "Dragon Roost Island" "Dragon Roost Island Secret Cave";
  plain_exit "MiniKaz" 0 0 0 "Fire Mountain" "Fire Mountain Secret Cave";
  plain_exit "MiniHyo" 0 0 0 "Ice Ring Isle" "Ice Ring Isle Secret Cave";
  plain_exit "TF_04" 0 0 0 "Private Oasis" "Cabana Labyrinth";
  plain_exit "SubD42" 0 0 0 "Needle Rock Isle" "Needle Rock Isle Secret Cave";
  plain_exit "SubD43" 0 0 0 "Angular Isles" "Angular Isles Secret Cave";
  plain_exit "SubD71" 0 0 0 "Boating Course" "Boating Course Secret Cave";
  plain_exit "TF_01" 0 0 0 "Stone Watcher Island" "Stone Watcher Island Secret Cave";
  plain_exit "TF_02" 0 0 0 "Overlook Island" "Overlook Island Secret Cave";
  plain_exit "TF_03" 0 0 0 "Bird's Peak Rock" "Bird's Peak Rock Secret Cave";
  plain_exit "TyuTyu" 0 0 0 "Pawprint Isle" "Pawprint Isle Chuchu Cave";
  plain_exit "Cave07" 0 0 0 "Pawprint Isle Side Isle" "Pawprint Isle Wizzrobe Cave";
  plain_exit "WarpD" 0 0 0 "Diamond Steppe Island" "Diamond Steppe Island Warp Maze Cave";
  plain_exit "Cave01" 0 0 0 "Bomb Island" "Bomb Island Secret Cave";
  plain_exit "Cave04" 0 0 0 "Rock Spire Isle" "Rock Spire Isle Secret Cave";
  plain_exit "ITest63" 0 0 0 "Shark Island" "Shark Island Secret Cave";
  plain_exit "Cave03" 0 0 0 "Cliff Plateau Isles" "Cliff Plateau Isles Secret Cave";
  plain_exit "Cave05" 0 0 0 "Horseshoe Island" "Horseshoe Island Secret Cave";
  plain_exit "Cave02" 0 0 0 "Star Island" "Star Island Secret Cave"
].

Definition ALL_EXITS : list ZoneExit :=
  DUNGEON_EXITS ++ BOSS_EXITS ++ SECRET_CAVE_EXITS.

Definition DUNGEON_ENTRANCE_NAMES_WITH_NO_REQUIREMENTS : list string := [
  "Dungeon Entrance on Dragon Roost Island"
].
Definition SECRET_CAVE_ENTRANCE_NAMES_WITH_NO_REQUIREMENTS : list string := [
  "Secret Cave Entrance on Pawprint Isle";
  "Secret Cave Entrance on Cliff Plateau Isles"
].
Definition DUNGEON_EXIT_NAMES_WITH_NO_REQUIREMENTS : list string := [
  "Dragon Roost Cavern"
].
Definition PUZZLE_SECRET_CAVE_EXIT_NAMES_WITH_NO_REQUIREMENTS : list string := [
  "Pawprint Isle Chuchu Cave";
  "Ice Ring Isle Secret Cave";
  "Bird's Peak Rock Secret Cave";
  "Diamond Steppe Island Warp Maze Cave"
].
Definition COMBAT_SECRET_CAVE_EXIT_NAMES_WITH_NO_REQUIREMENTS : list string := [
  "Rock Spire Isle Secret Cave"
].

Definition ITEM_LOCATION_NAME_TO_EXIT_ZONE_NAME_OVERRIDES : list (string * string) := [
  ("Pawprint Isle - Wizzrobe Cave", "Pawprint Isle Side Isle");
  ("Dragon Roost Cavern - Gohma Heart Container", "Gohma Boss Arena");
  ("Forbidden Woods - Kalle Demos Heart Container", "Kalle Demos Boss Arena");
  ("Tower of the Gods - Gohdan Heart Container", "Gohdan Boss Arena");
  ("Earth Temple - Jalhalla Heart Container", "Jalhalla Boss Arena");
  ("Wind Temple - Molgera Heart Container", "Molgera Boss Arena")
].

Local Close Scope string_scope.

(** ** Python values: exceptions, results, dicts, list operations *)

Inductive exn :=
| IndexError       (* [rng.choice] on an empty sequence *)
| ValueError       (* [list.remove(x)] with [x] absent *)
| KeyError         (* [d[k]] with [k] absent *)
| StopIteration    (* [next] on an exhausted generator *)
| AssertionError
| AttributeError   (* attribute access on [None] *)
| TypeError        (* iteration over [None] *)
| Exception (msg : string).

#[global] Instance exn_eq_dec : EqDecision exn.
Proof. solve_decision. Defined.

(** The outcome of a call: a value, a raised exception, or a model-only
    [OutOfFuel] for a loop that has not finished within its fuel. *)
Inductive result (A : Type) :=
| Return (a : A)
| Raise (e : exn)
| OutOfFuel.
Arguments Return {A} a.
Arguments Raise {A} e.
Arguments OutOfFuel {A}.

#[global] Instance result_bind : MBind result := λ A B k m,
  match m with
  | Return a => k a
  | Raise e => Raise e
  | OutOfFuel => OutOfFuel
  end.

(** A [dict] keeps insertion order; assigning to an existing key keeps the
    key's position. *)
Section dict.
Context {K V : Type} `{EqDecision K}.

Fixpoint dict_get (k : K) (d : list (K * V)) : option V :=
  match d with
  | [] => None
  | (k', v) :: d' => if decide (k' = k) then Some v else dict_get k d'
  end.

Fixpoint dict_set (k : K) (v : V) (d : list (K * V)) : list (K * V) :=
  match d with
  | [] => [(k, v)]
  | (k', v') :: d' =>
      if decide (k' = k) then (k', v) :: d' else (k', v') :: dict_set k v d'
  end.

(** [d[k]] *)
Definition dict_index (k : K) (d : list (K * V)) : result V :=
  match dict_get k d with
  | Some v => Return v
  | None => Raise KeyError
  end.
End dict.

(** [l.remove(x)]: drops the first element equal to [x]. *)
Fixpoint list_remove `{EqDecision A} (x : A) (l : list A) : result (list A) :=
  match l with
  | [] => Raise ValueError
  | y :: l' =>
      if decide (y = x) then Return l'
      else l'' ← list_remove x l'; Return (y :: l'')
  end.

(** [", ".join(ls)] *)
Definition join (sep : string) (ls : list string) : string := String.concat sep ls.

(** [s[n:]] *)
Fixpoint string_drop (n : nat) (s : string) : string :=
  match n, s with
  | 0, _ => s
  | S n', String _ s' => string_drop n' s'
  | S _, EmptyString => EmptyString
  end.

(** ** The random source

    [self.rng] is a [random.Random]; its stream of raw draws is the tape.
    [randbelow n] consumes one draw (an exhausted tape keeps giving 0). *)
Definition Rng := list nat.

Definition randbelow (n : nat) (rng : Rng) : nat * Rng :=
  match rng with
  | [] => (0, [])
  | r :: rng' => (r mod n, rng')
  end.

(** [rng.choice(seq)] is [seq[randbelow(len(seq))]] and raises [IndexError]
    on an empty sequence. *)
Definition rng_choice {A} (seq : list A) (rng : Rng) : result (A * Rng) :=
  match seq with
  | [] => Raise IndexError
  | _ =>
      let '(i, rng') := randbelow (length seq) rng in
      match seq !! i with
      | Some a => Return (a, rng')
      | None => Raise IndexError
      end
  end.

(** [x[i], x[j] = x[j], x[i]] *)
Definition swap {A} (i j : nat) (x : list A) : list A :=
  match x !! i, x !! j with
  | Some a, Some b => <[j := a]> (<[i := b]> x)
  | _, _ => x
  end.

(** [rng.shuffle(x)]: for [i] from [len(x) - 1] down to 1, swap [x[i]] with
    [x[randbelow(i + 1)]]. *)
Fixpoint shuffle_from {A} (i : nat) (x : list A) (rng : Rng) : list A * Rng :=
  match i with
  | 0 => (x, rng)
  | S i' =>
      let '(j, rng') := randbelow (S i) rng in
      shuffle_from i' (swap i j x) rng'
  end.

Definition rng_shuffle {A} (x : list A) (rng : Rng) : list A * Rng :=
  shuffle_from (length x - 1) x rng.

(** ** Nested-chain resolution *)

Definition boss_entrance_prefix : string := "Boss Entrance in ".

Definition get_dungeon_start_exit_leading_to_nested_entrance (zone_entrance : ZoneEntrance)
    : result ZoneExit :=
  if String.prefix boss_entrance_prefix (entrance_name zone_entrance) then
    let dungeon_name :=
      string_drop (String.length boss_entrance_prefix) (entrance_name zone_entrance) in
    match list_find (λ ex, unique_name ex = dungeon_name) DUNGEON_EXITS with
    | Some (_, ex) => Return ex
    | None => Raise StopIteration
    end
  else Raise AssertionError.

Definition infinite_loop_msg (seen_entrances : list ZoneEntrance) : string :=
  ("Entrances are in an infinite loop: " +:+ join ", " (entrance_name <$> seen_entrances))%string.

(** The [while zone_entrance.is_nested] loop; one unit of fuel per
    iteration of its body. *)
Fixpoint path_loop (fuel : nat) (seen_entrances : list ZoneEntrance)
    (zone_entrance : ZoneEntrance) (done_exits_to_entrances : list (ZoneExit * ZoneEntrance))
    : result (option (list ZoneEntrance)) :=
  if is_nested zone_entrance then
    match fuel with
    | 0 => OutOfFuel
    | S fuel' =>
        if decide (zone_entrance ∈ seen_entrances) then
          Raise (Exception (infinite_loop_msg seen_entrances))
        else
          let seen_entrances := seen_entrances ++ [zone_entrance] in
          dungeon_start_exit ← get_dungeon_start_exit_leading_to_nested_entrance zone_entrance;
          match dict_get dungeon_start_exit done_exits_to_entrances with
          | None => Return None
          | Some zone_entrance' =>
              path_loop fuel' seen_entrances zone_entrance' done_exits_to_entrances
          end
    end
  else Return (Some (seen_entrances ++ [zone_entrance])).

(** Every chain visits each dungeon exit at most once before an entrance
    repeats, so this much fuel always suffices (see [path_loop_fuel]). *)
Definition path_fuel : nat := S (S (length DUNGEON_EXITS)).

Definition get_all_entrances_on_path_to_entrance (zone_entrance : ZoneEntrance)
    (done_exits_to_entrances : list (ZoneExit * ZoneEntrance))
    : result (option (list ZoneEntrance)) :=
  path_loop path_fuel [] zone_entrance done_exits_to_entrances.

(** [seen_entrances[-1]] *)
Definition list_last_item {A} (l : list A) : result A :=
  match last l with
  | Some a => Return a
  | None => Raise IndexError
  end.

Definition get_outermost_entrance_for_entrance (zone_entrance : ZoneEntrance)
    (done_exits_to_entrances : list (ZoneExit * ZoneEntrance))
    : result (option ZoneEntrance) :=
  seen_entrances ← get_all_entrances_on_path_to_entrance zone_entrance done_exits_to_entrances;
  match seen_entrances with
  | None => Return None
  | Some seen_entrances =>
      outermost_entrance ← list_last_item seen_entrances;
      Return (Some outermost_entrance)
  end.

Definition get_outermost_entrance_for_exit (zone_exit : ZoneExit)
    (done_exits_to_entrances : list (ZoneExit * ZoneEntrance))
    : result (option ZoneEntrance) :=
  zone_entrance ← dict_index zone_exit done_exits_to_entrances;
  get_outermost_entrance_for_entrance zone_entrance done_exits_to_entrances.

(** ** The randomizer object *)

Record Options := mkOptions {
  race_mode : bool;
  progression_dungeons : bool;
  progression_puzzle_secret_caves : bool;
  progression_combat_secret_caves : bool;
  progression_savage_labyrinth : bool;
  randomize_entrances_option : string;
}.

(** Calls into the stage data (archives of the game): the two helpers that
    patch it, with their arguments. Their bodies only read and write that
    store. *)
Inductive StageCall :=
| update_entrance_to_lead_to_exit
    (zone_entrance : ZoneEntrance) (zone_exit : ZoneExit) (outermost_entrance : ZoneEntrance)
| update_boss_warp_out_destination
    (boss_stage : option string) (outermost_entrance : ZoneEntrance).

Record Randomizer := mkRandomizer {
  options : Options;
  dungeons_and_caves_only_start : bool;
  dry_run : bool;
  rng : Rng;
  entrance_connections : list (string * string);
  dungeon_and_cave_island_locations : list (string * option string);
  nested_entrance_paths : list (list string);
  stage_calls : list StageCall;
}.

Definition set_rng (r : Rng) (self : Randomizer) : Randomizer :=
  mkRandomizer (options self) (dungeons_and_caves_only_start self) (dry_run self) r
    (entrance_connections self) (dungeon_and_cave_island_locations self)
    (nested_entrance_paths self) (stage_calls self).

Definition set_entrance_connection (k v : string) (self : Randomizer) : Randomizer :=
  mkRandomizer (options self) (dungeons_and_caves_only_start self) (dry_run self) (rng self)
    (dict_set k v (entrance_connections self)) (dungeon_and_cave_island_locations self)
    (nested_entrance_paths self) (stage_calls self).

Definition set_island_location (k : string) (v : option string) (self : Randomizer)
    : Randomizer :=
  mkRandomizer (options self) (dungeons_and_caves_only_start self) (dry_run self) (rng self)
    (entrance_connections self) (dict_set k v (dungeon_and_cave_island_locations self))
    (nested_entrance_paths self) (stage_calls self).

Definition set_nested_entrance_paths (ps : list (list string)) (self : Randomizer)
    : Randomizer :=
  mkRandomizer (options self) (dungeons_and_caves_only_start self) (dry_run self) (rng self)
    (entrance_connections self) (dungeon_and_cave_island_locations self)
    ps (stage_calls self).

Definition call_stage (c : StageCall) (self : Randomizer) : Randomizer :=
  mkRandomizer (options self) (dungeons_and_caves_only_start self) (dry_run self) (rng self)
    (entrance_connections self) (dungeon_and_cave_island_locations self)
    (nested_entrance_paths self) (stage_calls self ++ [c]).

Definition progression_caves (o : Options) : bool :=
  progression_puzzle_secret_caves o || progression_combat_secret_caves o
  || progression_savage_labyrinth o.

(** ** [randomize_one_set_of_entrances] *)

(** The three keyword arguments. *)
Record Selection := mkSelection {
  include_dungeons : bool;
  include_bosses : bool;
  include_caves : bool;
}.

Definition relevant_entrances_of (sel : Selection) : list ZoneEntrance :=
  (if include_dungeons sel then DUNGEON_ENTRANCES else [])
  ++ (if include_bosses sel then BOSS_ENTRANCES else [])
  ++ (if include_caves sel then SECRET_CAVE_ENTRANCES else []).

Definition relevant_exits_of (sel : Selection) : list ZoneExit :=
  (if include_dungeons sel then DUNGEON_EXITS else [])
  ++ (if include_bosses sel then BOSS_EXITS else [])
  ++ (if include_caves sel then SECRET_CAVE_EXITS else []).

Definition doing_progress_entrances_for_dungeons_and_caves_only_start
    (self : Randomizer) (sel : Selection) : bool :=
  dungeons_and_caves_only_start self
  && ((include_dungeons sel && progression_dungeons (options self))
      || (include_caves sel && progression_caves (options self))).

(** The race-mode reorder: entrances sharing their [island_name] (compared
    with [==], so [None == None]) with another entrance come first. *)
Definition not_on_unique_island (relevant_entrances : list ZoneEntrance)
    (zone_entrance : ZoneEntrance) : Prop :=
  Exists (λ other_zone_entrance,
            island_name other_zone_entrance = island_name zone_entrance
            ∧ other_zone_entrance ≠ zone_entrance) relevant_entrances.

#[global] Instance not_on_unique_island_dec l e : Decision (not_on_unique_island l e).
Proof. unfold not_on_unique_island. apply _. Defined.

Fixpoint remove_each `{EqDecision A} (xs l : list A) : result (list A) :=
  match xs with
  | [] => Return l
  | x :: xs' => l' ← list_remove x l; remove_each xs' l'
  end.

Definition island_grouping (relevant_entrances : list ZoneEntrance)
    : result (list ZoneEntrance) :=
  let entrances_not_on_unique_islands :=
    filter (not_on_unique_island relevant_entrances) relevant_entrances in
  relevant_entrances ← remove_each entrances_not_on_unique_islands relevant_entrances;
  Return (entrances_not_on_unique_islands ++ relevant_entrances).

Definition entrance_names_with_no_requirements (o : Options) : list string :=
  (if progression_dungeons o then DUNGEON_ENTRANCE_NAMES_WITH_NO_REQUIREMENTS else [])
  ++ (if progression_caves o then SECRET_CAVE_ENTRANCE_NAMES_WITH_NO_REQUIREMENTS else []).

Definition exit_names_with_no_requirements (o : Options) : list string :=
  (if progression_dungeons o then DUNGEON_EXIT_NAMES_WITH_NO_REQUIREMENTS else [])
  ++ (if progression_puzzle_secret_caves o
      then PUZZLE_SECRET_CAVE_EXIT_NAMES_WITH_NO_REQUIREMENTS else [])
  ++ (if progression_combat_secret_caves o
      then COMBAT_SECRET_CAVE_EXIT_NAMES_WITH_NO_REQUIREMENTS else []).

(** The local variables of the assignment loop, with the randomizer object
    they update. [safety_entrance] is bound only when the restricted start
    applies. *)
Record Locals := mkLocals {
  l_self : Randomizer;
  doing_progress : bool;
  safety_entrance : option ZoneEntrance;
  relevant_entrances : list ZoneEntrance;
  remaining_exits : list ZoneExit;
  done_entrances_to_exits : list (ZoneEntrance * ZoneExit);
  done_exits_to_entrances : list (ZoneExit * ZoneEntrance);
}.

(** The candidate exits of one iteration (lines 248-286). The race-mode
    test walks the keys of [done_entrances_to_exits] and indexes the dict
    with each: that is a walk over its items. *)
Definition possible_remaining_exits (l : Locals) (zone_entrance : ZoneEntrance)
    : list ZoneExit :=
  let o := options (l_self l) in
  let possible :=
    if doing_progress l && bool_decide (Some zone_entrance = safety_entrance l) then
      filter (λ e, unique_name e ∈ exit_names_with_no_requirements o) (remaining_exits l)
    else remaining_exits l in
  let possible :=
    if bool_decide (Exists (λ e, e ∈ DUNGEON_EXITS) possible) then
      filter (λ e, e ∉ BOSS_EXITS) (remaining_exits l)
    else possible in
  if race_mode o then
    let done_entrances_on_same_island_leading_to_a_dungeon :=
      filter (λ p : ZoneEntrance * ZoneExit,
                island_name p.1 = island_name zone_entrance ∧ p.2 ∈ DUNGEON_EXITS)
             (done_entrances_to_exits l) in
    match done_entrances_on_same_island_leading_to_a_dungeon with
    | [] => possible
    | _ :: _ => filter (λ ex, ex ∉ DUNGEON_EXITS ++ BOSS_EXITS) possible
    end
  else possible.

Definition no_valid_exits_msg (zone_entrance : ZoneEntrance) : string :=
  ("No valid exits to place for entrance: " +:+ entrance_name zone_entrance)%string.

Inductive step_result :=
| Finished                 (* the queue is empty *)
| Failed (e : exn)
| Stuck                    (* chain resolution ran out of fuel *)
| Next (l : Locals).

(** One iteration of [while relevant_entrances]. *)
Definition loop_body (l : Locals) : step_result :=
  match relevant_entrances l with
  | [] => Finished
  | zone_entrance :: rest =>
      match get_outermost_entrance_for_entrance zone_entrance (done_exits_to_entrances l) with
      | OutOfFuel => Stuck
      | Raise e => Failed e
      | Return None =>
          Next (mkLocals (l_self l) (doing_progress l) (safety_entrance l)
                  (rest ++ [zone_entrance]) (remaining_exits l)
                  (done_entrances_to_exits l) (done_exits_to_entrances l))
      | Return (Some outermost_entrance) =>
          let possible := possible_remaining_exits l zone_entrance in
          match possible with
          | [] => Failed (Exception (no_valid_exits_msg zone_entrance))
          | _ :: _ =>
              match rng_choice possible (rng (l_self l)) with
              | Return (zone_exit, rng') =>
                  match list_remove zone_exit (remaining_exits l) with
                  | Return remaining =>
                      Next (mkLocals
                        (set_entrance_connection (entrance_name zone_entrance)
                           (unique_name zone_exit) (set_rng rng' (l_self l)))
                        (doing_progress l) (safety_entrance l) rest remaining
                        (dict_set zone_entrance zone_exit (done_entrances_to_exits l))
                        (dict_set zone_exit zone_entrance (done_exits_to_entrances l)))
                  | Raise e => Failed e
                  | OutOfFuel => Stuck
                  end
              | Raise e => Failed e
              | OutOfFuel => Stuck
              end
          end
      end
  end.

(** The loop: the locals it stops with and how it stopped. *)
Fixpoint main_loop (fuel : nat) (l : Locals) : Locals * result unit :=
  match fuel with
  | 0 => (l, OutOfFuel)
  | S fuel' =>
      match loop_body l with
      | Finished => (l, Return tt)
      | Failed e => (l, Raise e)
      | Stuck => (l, OutOfFuel)
      | Next l' => main_loop fuel' l'
      end
  end.

(** Lines 168-234: the working lists, the shuffle, the race-mode reorder and
    the choice of the safety entrance. *)
Definition prepare (self : Randomizer) (sel : Selection) : Randomizer * result Locals :=
  let relevant_exits := relevant_exits_of sel in
  let remaining_exits := relevant_exits in
  let '(relevant_entrances, rng1) := rng_shuffle (relevant_entrances_of sel) (rng self) in
  let self := set_rng rng1 self in
  let doing := doing_progress_entrances_for_dungeons_and_caves_only_start self sel in
  match (if race_mode (options self) then island_grouping relevant_entrances
         else Return relevant_entrances) with
  | Return relevant_entrances =>
      if doing then
        let possible_safety_entrances :=
          filter (λ e, entrance_name e ∈ entrance_names_with_no_requirements (options self))
                 relevant_entrances in
        match rng_choice possible_safety_entrances (rng self) with
        | Return (safety, rng2) =>
            let self := set_rng rng2 self in
            match list_remove safety relevant_entrances with
            | Return rest =>
                (self, Return (mkLocals self true (Some safety) (safety :: rest)
                                 remaining_exits [] []))
            | Raise e => (self, Raise e)
            | OutOfFuel => (self, OutOfFuel)
            end
        | Raise e => (self, Raise e)
        | OutOfFuel => (self, OutOfFuel)
        end
      else
        (self, Return (mkLocals self false None relevant_entrances remaining_exits [] []))
  | Raise e => (self, Raise e)
  | OutOfFuel => (self, OutOfFuel)
  end.

(** Sequencing of steps that update the randomizer object. *)
Definition and_then (m : Randomizer * result unit)
    (k : Randomizer → Randomizer * result unit) : Randomizer * result unit :=
  match m with
  | (s, Return _) => k s
  | (s, Raise e) => (s, Raise e)
  | (s, OutOfFuel) => (s, OutOfFuel)
  end.

(** Lines 299-305. *)
Fixpoint attribute_exits (items done_exits_to_entrances : list (ZoneExit * ZoneEntrance))
    (self : Randomizer) : Randomizer * result unit :=
  match items with
  | [] => (self, Return tt)
  | (zone_exit, zone_entrance) :: items' =>
      match get_outermost_entrance_for_exit zone_exit done_exits_to_entrances with
      | Return (Some outermost_entrance) =>
          let self :=
            set_island_location (zone_name zone_exit) (island_name outermost_entrance) self in
          let self :=
            if dry_run self then self
            else call_stage
                   (update_entrance_to_lead_to_exit zone_entrance zone_exit outermost_entrance)
                   self in
          attribute_exits items' done_exits_to_entrances self
      | Return None => (self, Raise AttributeError)
      | Raise e => (self, Raise e)
      | OutOfFuel => (self, OutOfFuel)
      end
  end.

(** Lines 308-311. *)
Fixpoint warp_out_of_bosses (boss_exits : list ZoneExit)
    (done_exits_to_entrances : list (ZoneExit * ZoneEntrance))
    (self : Randomizer) : Randomizer * result unit :=
  match boss_exits with
  | [] => (self, Return tt)
  | boss_exit :: boss_exits' =>
      if dry_run self then warp_out_of_bosses boss_exits' done_exits_to_entrances self
      else
        match get_outermost_entrance_for_exit boss_exit done_exits_to_entrances with
        | Return (Some outermost_entrance) =>
            warp_out_of_bosses boss_exits' done_exits_to_entrances
              (call_stage
                 (update_boss_warp_out_destination (Some (x_stage_name boss_exit))
                    outermost_entrance) self)
        | Return None => (self, Raise AttributeError)
        | Raise e => (self, Raise e)
        | OutOfFuel => (self, OutOfFuel)
        end
  end.

(** Lines 313-324. *)
Fixpoint warp_out_of_dungeons (dungeon_exits : list ZoneExit)
    (done_exits_to_entrances : list (ZoneExit * ZoneEntrance))
    (self : Randomizer) : Randomizer * result unit :=
  match dungeon_exits with
  | [] => (self, Return tt)
  | dungeon_exit :: dungeon_exits' =>
      match dict_index dungeon_exit done_exits_to_entrances with
      | Return outermost_entrance =>
          let self :=
            if dry_run self then self
            else call_stage
                   (update_boss_warp_out_destination (boss_stage_name dungeon_exit)
                      outermost_entrance) self in
          match list_find (λ zone_exit, Some (x_stage_name zone_exit) = boss_stage_name dungeon_exit)
                          BOSS_EXITS with
          | Some (_, boss_exit) =>
              warp_out_of_dungeons dungeon_exits' done_exits_to_entrances
                (set_island_location (zone_name boss_exit) (island_name outermost_entrance) self)
          | None => (self, Raise StopIteration)
          end
      | Raise e => (self, Raise e)
      | OutOfFuel => (self, OutOfFuel)
      end
  end.

(** Lines 330-337. *)
Fixpoint nested_paths (terminal_exits : list ZoneExit)
    (done_exits_to_entrances : list (ZoneExit * ZoneEntrance))
    (self : Randomizer) : Randomizer * result unit :=
  match terminal_exits with
  | [] => (self, Return tt)
  | terminal_exit :: terminal_exits' =>
      match dict_index terminal_exit done_exits_to_entrances with
      | Return zone_entrance =>
          match get_all_entrances_on_path_to_entrance zone_entrance done_exits_to_entrances with
          | Return (Some seen_entrances) =>
              let path := unique_name terminal_exit :: (entrance_name <$> seen_entrances) in
              nested_paths terminal_exits' done_exits_to_entrances
                (set_nested_entrance_paths (nested_entrance_paths self ++ [reverse path]) self)
          | Return None => (self, Raise TypeError)
          | Raise e => (self, Raise e)
          | OutOfFuel => (self, OutOfFuel)
          end
      | Raise e => (self, Raise e)
      | OutOfFuel => (self, OutOfFuel)
      end
  end.

(** Lines 297-337, on the locals the loop ended with.
    [self.logic.update_entrance_connection_macros()] (line 297) only
    rebuilds logic macros from [entrance_connections] and is left out. *)
Definition finish (sel : Selection) (l : Locals) : Randomizer * result unit :=
  let d := done_exits_to_entrances l in
  and_then (attribute_exits d d (l_self l)) (λ self,
  and_then
    (if include_bosses sel then warp_out_of_bosses BOSS_EXITS d self
     else if include_dungeons sel then warp_out_of_dungeons DUNGEON_EXITS d self
     else (self, Return tt)) (λ self,
  if include_bosses sel then
    nested_paths (filter (λ ex, ex ∉ DUNGEON_EXITS) (relevant_exits_of sel)) d
      (set_nested_entrance_paths [] self)
  else (self, Return tt))).

Definition randomize_one_set_of_entrances (fuel : nat) (self : Randomizer) (sel : Selection)
    : Randomizer * result unit :=
  match prepare self sel with
  | (_, Return l0) =>
      match main_loop fuel l0 with
      | (l, Return _) => finish sel l
      | (l, Raise e) => (l_self l, Raise e)
      | (l, OutOfFuel) => (l_self l, OutOfFuel)
      end
  | (self, Raise e) => (self, Raise e)
  | (self, OutOfFuel) => (self, OutOfFuel)
  end.

(** [randomize_entrances]: the selections made for each value of the
    [randomize_entrances] option. *)
Definition selections_of_option (opt : string) : result (list Selection) :=
  if decide (opt = "Dungeons"%string) then Return [mkSelection true false false]
  else if decide (opt = "Nested Dungeons"%string) then Return [mkSelection true true false]
  else if decide (opt = "Secret Caves"%string) then Return [mkSelection false false true]
  else if decide (opt = "Dungeons & Secret Caves (Separately)"%string) then
    Return [mkSelection true false false; mkSelection false false true]
  else if decide (opt = "Nested Dungeons & Secret Caves (Separately)"%string) then
    Return [mkSelection true true false; mkSelection false false true]
  else if decide (opt = "Dungeons & Secret Caves (Together)"%string) then
    Return [mkSelection true false true]
  else if decide (opt = "Nested Dungeons & Secret Caves (Together)"%string) then
    Return [mkSelection true true true]
  else Raise (Exception ("Invalid entrance randomizer option: " +:+ opt)%string).

Fixpoint randomize_each (fuel : nat) (sels : list Selection) (self : Randomizer)
    : Randomizer * result unit :=
  match sels with
  | [] => (self, Return tt)
  | sel :: sels' =>
      and_then (randomize_one_set_of_entrances fuel self sel) (randomize_each fuel sels')
  end.

Definition randomize_entrances (fuel : nat) (self : Randomizer) : Randomizer * result unit :=
  match selections_of_option (randomize_entrances_option (options self)) with
  | Return sels => randomize_each fuel sels self
  | Raise e => (self, Raise e)
  | OutOfFuel => (self, OutOfFuel)
  end.

(** ** [get_entrance_zone_for_item_location]

    [self.logic.split_location_name_by_zone] and [self.logic.is_dungeon_or_cave]
    belong to the logic module; the lookup is parameterised by them. *)
Section zone_lookup.
Variable split_location_name_by_zone : string → string * string.
Variable is_dungeon_or_cave : string → bool.

Definition tower_of_the_gods_sector : string := "Tower of the Gods Sector".

(** The result is a zone name, or [None] when the attributed island is. *)
Definition get_entrance_zone_for_item_location (self : Randomizer) (location_name : string)
    : option string :=
  let '(zone_name, specific_location_name) := split_location_name_by_zone location_name in
  let zone_name :=
    match dict_get location_name ITEM_LOCATION_NAME_TO_EXIT_ZONE_NAME_OVERRIDES with
    | Some z => z
    | None => zone_name
    end in
  let otherwise :=
    let entrance_zone := zone_name in
    if decide (location_name = "Tower of the Gods - Sunken Treasure"%string)
    then Some tower_of_the_gods_sector else Some entrance_zone in
  match dict_get zone_name (dungeon_and_cave_island_locations self) with
  | Some entrance_zone =>
      if is_dungeon_or_cave location_name then
        if decide (entrance_zone = Some "Tower of the Gods"%string)
        then Some tower_of_the_gods_sector else entrance_zone
      else otherwise
  | None => otherwise
  end.
End zone_lookup.

(** ** Sector coordinates

    The arithmetic of [update_entrance_to_lead_to_exit] (lines 443-447)
    that turns the number of the outermost entrance's island into the
    sector coordinates written to the 2DMA chunk of a secret cave. [%] and
    [//] are Python's, which round down as [mod] and [/] on [Z] do. *)
Definition sector_coordinates (island_number : Z) : Z * Z :=
  let sector_x := ((island_number - 1) mod 7)%Z in
  let sector_y := ((island_number - 1) / 7)%Z in
  ((sector_x - 3)%Z, (sector_y - 3)%Z).

(** * The hints randomizer

    The functions of [randomizers/hints.py] that place hints and those that
    call [get_entrance_zone_for_item_location]. *)

Inductive HintType := PATH | BARREN | ITEM | LOCATION.

#[global] Instance HintType_eq_dec : EqDecision HintType.
Proof. solve_decision. Defined.

Record Hint := mkHint {
  hint_type : HintType;
  place : string;
  reward : option string;
}.

#[global] Instance Hint_eq_dec : EqDecision Hint.
Proof. solve_decision. Defined.

(** [Hint.__init__], with its three assertions. *)
Definition new_Hint (type : HintType) (place : option string) (reward : option string)
    : result Hint :=
  match place with
  | None => Raise AssertionError
  | Some place =>
      if bool_decide (type = BARREN) && bool_decide (reward ≠ None) then Raise AssertionError
      else if bool_decide (type ≠ BARREN) && bool_decide (reward = None)
      then Raise AssertionError
      else Return (mkHint type place reward)
  end.

Definition DUNGEON_NAME_TO_BOSS_NAME : list (string * string) :=
  [("Dragon Roost Cavern", "Gohma");
   ("Forbidden Woods", "Kalle Demos");
   ("Tower of the Gods", "Gohdan");
   ("Forsaken Fortress", "Helmaroc King");
   ("Earth Temple", "Jalhalla");
   ("Wind Temple", "Molgera");
   ("Hyrule", "Hyrule");
   ("Ganon's Tower", "Ganondorf")]%string.

(** The state of the hints randomizer that these functions use: the
    randomizer it belongs to, its random source and the two placement
    dicts. *)
Record HintsRandomizer := mkHintsRandomizer {
  rando : Randomizer;
  hints_rng : Rng;
  island_to_fishman_hint : list (nat * Hint);
  hoho_index_to_hints : list (nat * list Hint);
}.

Definition set_hints_rng (r : Rng) (self : HintsRandomizer) : HintsRandomizer :=
  mkHintsRandomizer (rando self) r (island_to_fishman_hint self) (hoho_index_to_hints self).

Definition set_island_to_fishman_hint (d : list (nat * Hint)) (self : HintsRandomizer)
    : HintsRandomizer :=
  mkHintsRandomizer (rando self) (hints_rng self) d (hoho_index_to_hints self).

Definition set_hoho_index_to_hints (d : list (nat * list Hint)) (self : HintsRandomizer)
    : HintsRandomizer :=
  mkHintsRandomizer (rando self) (hints_rng self) (island_to_fishman_hint self) d.

(** [l[i]] for an index that is not negative. *)
Definition list_index {A} (l : list A) (i : nat) : result A :=
  match l !! i with
  | Some a => Return a
  | None => Raise IndexError
  end.

(** ** [distribute_fishmen_hints]

    The assertion makes [len(hints)] positive where [%] is evaluated. The
    dict is updated in place: the loops return it as it is when they stop. *)
Fixpoint fishmen_loop (hints : list Hint) (fishman_hint_number : nat) (islands : list nat)
    (island_to_fishman_hint : list (nat * Hint)) : list (nat * Hint) * result unit :=
  match islands with
  | [] => (island_to_fishman_hint, Return tt)
  | fishman_island_number :: islands' =>
      match list_index hints (fishman_hint_number mod length hints) with
      | Return hint =>
          fishmen_loop hints (S fishman_hint_number) islands'
            (dict_set fishman_island_number hint island_to_fishman_hint)
      | Raise e => (island_to_fishman_hint, Raise e)
      | OutOfFuel => (island_to_fishman_hint, OutOfFuel)
      end
  end.

Definition distribute_fishmen_hints (hints : list Hint) (self : HintsRandomizer)
    : HintsRandomizer * result unit :=
  match hints with
  | [] => (self, Raise AssertionError)
  | _ :: _ =>
      let '(islands, rng') := rng_shuffle (seq 1 49) (hints_rng self) in
      let self := set_hints_rng rng' self in
      let '(d, r) := fishmen_loop hints 0 islands [] in
      (set_island_to_fishman_hint d self, r)
  end.

(** ** [distribute_hoho_hints] *)

(** [for i in range(len(hohos)): self.hoho_index_to_hints[i] = []] *)
Definition empty_hoho_lists (n : nat) (d : list (nat * list Hint)) : list (nat * list Hint) :=
  foldl (λ d i, dict_set i [] d) d (seq 0 n).

(** The [for hoho_index in hohos] loop; it returns the next [hint_index]. *)
Fixpoint hoho_round (hints : list Hint) (hint_index : nat) (hohos : list nat)
    (hoho_index_to_hints : list (nat * list Hint))
    : list (nat * list Hint) * result nat :=
  match hohos with
  | [] => (hoho_index_to_hints, Return hint_index)
  | hoho_index :: hohos' =>
      match list_index hints (hint_index mod length hints) with
      | Return hint =>
          match dict_index hoho_index hoho_index_to_hints with
          | Return given =>
              hoho_round hints (S hint_index) hohos'
                (dict_set hoho_index (given ++ [hint]) hoho_index_to_hints)
          | Raise e => (hoho_index_to_hints, Raise e)
          | OutOfFuel => (hoho_index_to_hints, OutOfFuel)
          end
      | Raise e => (hoho_index_to_hints, Raise e)
      | OutOfFuel => (hoho_index_to_hints, OutOfFuel)
      end
  end.

(** The [while hint_index < len(hints)] loop; one unit of fuel per round. *)
Fixpoint hoho_loop (fuel : nat) (hints : list Hint) (hint_index : nat) (hohos : list nat)
    (hoho_index_to_hints : list (nat * list Hint))
    : list (nat * list Hint) * result unit :=
  if decide (hint_index < length hints) then
    match fuel with
    | 0 => (hoho_index_to_hints, OutOfFuel)
    | S fuel' =>
        match hoho_round hints hint_index hohos hoho_index_to_hints with
        | (hoho_index_to_hints, Return hint_index) =>
            hoho_loop fuel' hints hint_index hohos hoho_index_to_hints
        | (hoho_index_to_hints, Raise e) => (hoho_index_to_hints, Raise e)
        | (hoho_index_to_hints, OutOfFuel) => (hoho_index_to_hints, OutOfFuel)
        end
    end
  else (hoho_index_to_hints, Return tt).

Definition distribute_hoho_hints (fuel : nat) (hints : list Hint) (self : HintsRandomizer)
    : HintsRandomizer * result unit :=
  match hints with
  | [] => (self, Raise AssertionError)
  | _ :: _ =>
      let '(hohos, rng') := rng_shuffle (seq 0 10) (hints_rng self) in
      let self := set_hints_rng rng' self in
      let '(d, r) := hoho_loop fuel hints 0 hohos (empty_hoho_lists (length hohos) []) in
      (set_hoho_index_to_hints d self, r)
  end.

(** ** [get_hint_item_name] *)

(** [s.endswith(suffix)] *)
Definition endswith (s suffix : string) : bool :=
  bool_decide (String.length suffix ≤ String.length s)
  && bool_decide (string_drop (String.length s - String.length suffix) s = suffix).

Definition get_hint_item_name (item_name : string) : string :=
  if String.prefix "Triforce Chart" item_name then "Triforce Chart"
  else if String.prefix "Triforce Shard" item_name then "Triforce Shard"
  else if String.prefix "Treasure Chart" item_name then "Treasure Chart"
  else if endswith item_name "Tingle Statue" then "Tingle Statue"
  else if endswith item_name "Small Key" then "Small Key"
  else if endswith item_name "Big Key" then "Big Key"
  else item_name.

(** ** Hints that look up the logic

    [self.logic.split_location_name_by_zone], [self.logic.is_dungeon_or_cave],
    [self.logic.is_dungeon_location] and the dict
    [self.logic.done_item_locations] belong to the logic module. *)
Section hints_logic.
Variable split_location_name_by_zone : string → string * string.
Variable is_dungeon_or_cave : string → bool.
Variable is_dungeon_location : string → bool.
Variable done_item_locations : list (string * string).

Definition entrance_zone_of (self : HintsRandomizer) (location_name : string)
    : option string :=
  get_entrance_zone_for_item_location split_location_name_by_zone is_dungeon_or_cave
    (rando self) location_name.

(** The mailbox cases of [filter_out_hinted_barren_locations]. *)
Definition mailbox_of_barren_dungeon (location_name : string) (barrens : list string)
    : bool :=
  (bool_decide (location_name = "Mailbox - Letter from Baito"%string)
   && bool_decide ("Earth Temple"%string ∈ barrens))
  || (bool_decide (location_name = "Mailbox - Letter from Orca"%string)
      && bool_decide ("Forbidden Woods"%string ∈ barrens))
  || (bool_decide (location_name = "Mailbox - Letter from Aryll"%string)
      && bool_decide ("Forsaken Fortress"%string ∈ barrens))
  || (bool_decide (location_name = "Mailbox - Letter from Tingle"%string)
      && bool_decide ("Forsaken Fortress"%string ∈ barrens)).

(** [entrance_zone not in barrens]: the places of hints are strings, so
    that [None] is in no list of them. *)
Definition not_in_barrens (entrance_zone : option string) (barrens : list string) : bool :=
  match entrance_zone with
  | Some zone => bool_decide (zone ∉ barrens)
  | None => true
  end.

Fixpoint barren_filter_loop (self : HintsRandomizer) (barrens : list string)
    (hintable_locations new_hintable_locations : list string) : list string :=
  match hintable_locations with
  | [] => new_hintable_locations
  | location_name :: hintable_locations' =>
      if mailbox_of_barren_dungeon location_name barrens then
        barren_filter_loop self barrens hintable_locations' new_hintable_locations
      else if is_dungeon_location location_name
              && bool_decide ((split_location_name_by_zone location_name).1 ∈ barrens) then
        barren_filter_loop self barrens hintable_locations' new_hintable_locations
      else if not_in_barrens (entrance_zone_of self location_name) barrens then
        barren_filter_loop self barrens hintable_locations'
          (new_hintable_locations ++ [location_name])
      else barren_filter_loop self barrens hintable_locations' new_hintable_locations
  end.

Definition filter_out_hinted_barren_locations (self : HintsRandomizer)
    (hintable_locations : list string) (hinted_barren_zones : list Hint) : list string :=
  let barrens := place <$> hinted_barren_zones in
  barren_filter_loop self barrens hintable_locations [].

(** [get_item_hint]: the caller's list is updated in place and is returned
    with the randomizer. *)
Definition get_item_hint (self : HintsRandomizer) (hintable_locations : list string)
    : HintsRandomizer * list string * result (option Hint * option string) :=
  if decide (length hintable_locations = 0) then
    (self, hintable_locations, Return (None, None))
  else
    match rng_choice hintable_locations (hints_rng self) with
    | Return (location_name, rng') =>
        let self := set_hints_rng rng' self in
        match list_remove location_name hintable_locations with
        | Return hintable_locations =>
            match dict_index location_name done_item_locations with
            | Return item_name =>
                let entrance_zone := entrance_zone_of self location_name in
                let entrance_zone :=
                  if decide (entrance_zone = Some "Tower of the Gods Sector"%string)
                  then Some "Tower of the Gods"%string else entrance_zone in
                match new_Hint ITEM entrance_zone (Some item_name) with
                | Return item_hint =>
                    (self, hintable_locations, Return (Some item_hint, Some location_name))
                | Raise e => (self, hintable_locations, Raise e)
                | OutOfFuel => (self, hintable_locations, OutOfFuel)
                end
            | Raise e => (self, hintable_locations, Raise e)
            | OutOfFuel => (self, hintable_locations, OutOfFuel)
            end
        | Raise e => (self, hintable_locations, Raise e)
        | OutOfFuel => (self, hintable_locations, OutOfFuel)
        end
    | Raise e => (self, hintable_locations, Raise e)
    | OutOfFuel => (self, hintable_locations, OutOfFuel)
    end.

(** A required location: zone name, entrance zone, specific location name
    and item name. *)
Definition PathLocation : Type := string * option string * string * string.

(** The [while not valid_path_hint] loop of [get_path_hint]; one unit of
    fuel per iteration. *)
Fixpoint path_hint_loop (fuel : nat) (self : HintsRandomizer)
    (unhinted_locations : list PathLocation) (hinted_locations : list string)
    : HintsRandomizer * list PathLocation * result (option (PathLocation * string)) :=
  match fuel with
  | 0 => (self, unhinted_locations, OutOfFuel)
  | S fuel' =>
      if decide (length unhinted_locations = 0) then
        (self, unhinted_locations, Return None)
      else
        match rng_choice unhinted_locations (hints_rng self) with
        | Return (chosen, rng') =>
            let self := set_hints_rng rng' self in
            let '(zone_name, entrance_zone, specific_location_name, item_name) := chosen in
            let hinted_location := (zone_name +:+ " - " +:+ specific_location_name)%string in
            match list_remove chosen unhinted_locations with
            | Return unhinted_locations =>
                if decide (hinted_location ∉ hinted_locations) then
                  (self, unhinted_locations, Return (Some (chosen, hinted_location)))
                else path_hint_loop fuel' self unhinted_locations hinted_locations
            | Raise e => (self, unhinted_locations, Raise e)
            | OutOfFuel => (self, unhinted_locations, OutOfFuel)
            end
        | Raise e => (self, unhinted_locations, Raise e)
        | OutOfFuel => (self, unhinted_locations, OutOfFuel)
        end
  end.

Definition get_path_hint (fuel : nat) (self : HintsRandomizer)
    (unhinted_locations : list PathLocation) (hinted_locations : list string)
    (path_name : string)
    : HintsRandomizer * list PathLocation * result (option Hint * option string) :=
  match path_hint_loop fuel self unhinted_locations hinted_locations with
  | (self, unhinted_locations, Return None) =>
      (self, unhinted_locations, Return (None, None))
  | (self, unhinted_locations,
     Return (Some ((zone_name, entrance_zone, _, _), hinted_location))) =>
      let hint_zone :=
        if decide (hinted_location = "Tower of the Gods - Sunken Treasure"%string)
        then Some "Tower of the Gods Sector"%string
        else if is_dungeon_location hinted_location then Some zone_name
        else entrance_zone in
      match dict_index path_name DUNGEON_NAME_TO_BOSS_NAME with
      | Return boss_name =>
          match new_Hint PATH hint_zone (Some boss_name) with
          | Return path_hint =>
              (self, unhinted_locations, Return (Some path_hint, Some hinted_location))
          | Raise e => (self, unhinted_locations, Raise e)
          | OutOfFuel => (self, unhinted_locations, OutOfFuel)
          end
      | Raise e => (self, unhinted_locations, Raise e)
      | OutOfFuel => (self, unhinted_locations, OutOfFuel)
      end
  | (self, unhinted_locations, Raise e) => (self, unhinted_locations, Raise e)
  | (self, unhinted_locations, OutOfFuel) => (self, unhinted_locations, OutOfFuel)
  end.
End hints_logic.

(** * Properties *)

(** ** Lists, dicts and the random source *)

Lemma list_remove_Return `{EqDecision A} (x : A) (l l' : list A) :
  list_remove x l = Return l' →
  ∃ l1 l2, l = l1 ++ x :: l2 ∧ l' = l1 ++ l2 ∧ x ∉ l1.
Proof.
  revert l'. induction l as [|y l IH]; intros l' H; simpl in H; [discriminate|].
  destruct (decide (y = x)) as [->|Hne].
  - inversion H; subst. exists [], l'. split_and!; [done..|]. apply not_elem_of_nil.
  - destruct (list_remove x l) as [l''| |] eqn:E; simpl in H; try discriminate.
    inversion H; subst. destruct (IH _ eq_refl) as (l1 & l2 & -> & -> & Hn).
    exists (y :: l1), l2. split_and!; [done..|].
    rewrite not_elem_of_cons. split; [congruence|done].
Qed.

Lemma list_remove_elem_of `{EqDecision A} (x : A) (l : list A) :
  x ∈ l → ∃ l', list_remove x l = Return l'.
Proof.
  induction l as [|y l IH]; intros H; [by apply elem_of_nil in H|].
  simpl. destruct (decide (y = x)); [eauto|].
  apply elem_of_cons in H as [->|H]; [done|].
  destruct (IH H) as [l' ->]. simpl. eauto.
Qed.

Lemma list_remove_Permutation `{EqDecision A} (x : A) (l l' : list A) :
  list_remove x l = Return l' → l ≡ₚ x :: l'.
Proof.
  intros (l1 & l2 & -> & -> & _)%list_remove_Return.
  by rewrite Permutation_middle.
Qed.

Lemma list_remove_not_Raise `{EqDecision A} (x : A) (l : list A) e :
  list_remove x l = Raise e → x ∉ l.
Proof.
  intros H Hin. destruct (list_remove_elem_of x l Hin) as [l' E]. congruence.
Qed.

Lemma list_remove_not_OutOfFuel `{EqDecision A} (x : A) (l : list A) :
  list_remove x l ≠ OutOfFuel.
Proof.
  induction l as [|y l IH]; simpl; [done|].
  destruct (decide (y = x)); [done|].
  destruct (list_remove x l); simpl; congruence.
Qed.

Section dict_facts.
Context {K V : Type} `{EqDecision K}.
Implicit Types (d : list (K * V)) (k : K) (v : V).

Lemma dict_get_Some_elem_of d k v : dict_get k d = Some v → (k, v) ∈ d.
Proof.
  induction d as [|[k' v'] d IH]; simpl; [done|].
  destruct (decide (k' = k)) as [->|]; intros H.
  - inversion H; subst. apply elem_of_cons; auto.
  - apply elem_of_cons; auto.
Qed.

Lemma dict_get_None d k : dict_get k d = None ↔ k ∉ d.*1.
Proof.
  induction d as [|[k' v'] d IH]; simpl.
  - split; [intros _; apply not_elem_of_nil|done].
  - rewrite not_elem_of_cons. destruct (decide (k' = k)) as [->|Hne].
    + split; [done|]. intros [? _]; done.
    + rewrite IH. intuition congruence.
Qed.

Lemma dict_get_elem_of d k v : NoDup d.*1 → (k, v) ∈ d → dict_get k d = Some v.
Proof.
  induction d as [|[k' v'] d IH]; simpl; intros Hnd Hin.
  - by apply elem_of_nil in Hin.
  - apply NoDup_cons in Hnd as [Hk Hnd].
    apply elem_of_cons in Hin as [Heq|Hin].
    + inversion Heq; subst. by rewrite decide_True.
    + destruct (decide (k' = k)) as [->|]; [|auto].
      exfalso. apply Hk. apply list_elem_of_fmap. by exists (k, v).
Qed.

Lemma dict_set_fresh d k v : k ∉ d.*1 → dict_set k v d = d ++ [(k, v)].
Proof.
  induction d as [|[k' v'] d IH]; simpl; [done|].
  rewrite not_elem_of_cons. intros [Hne Hk].
  rewrite decide_False by congruence. by rewrite IH.
Qed.

Lemma dict_get_set_eq d k v : dict_get k (dict_set k v d) = Some v.
Proof.
  induction d as [|[k' v'] d IH]; simpl.
  - by rewrite decide_True.
  - destruct (decide (k' = k)) as [->|Hne]; simpl.
    + by rewrite decide_True.
    + by rewrite decide_False.
Qed.

Lemma dict_get_set_ne d k k' v : k ≠ k' → dict_get k' (dict_set k v d) = dict_get k' d.
Proof.
  intros Hne. induction d as [|[k0 v0] d IH]; simpl.
  - by rewrite decide_False.
  - destruct (decide (k0 = k)) as [->|Hne0]; simpl.
    + by rewrite !decide_False.
    + destruct (decide (k0 = k')); [done|auto].
Qed.

Lemma dict_get_app_l d d' k v : dict_get k d = Some v → dict_get k (d ++ d') = Some v.
Proof.
  induction d as [|[k0 v0] d IH]; simpl; [done|].
  destruct (decide (k0 = k)); auto.
Qed.
End dict_facts.

Ltac by_compute := apply (bool_decide_unpack _); vm_compute; exact I.

Lemma swap_Permutation {A} (i j : nat) (x : list A) : swap i j x ≡ₚ x.
Proof.
  unfold swap. destruct (x !! i) as [a|] eqn:Ei; [|done].
  destruct (x !! j) as [b|] eqn:Ej; [|done].
  revert i j Ei Ej. induction x as [|c x IH]; intros [|i] [|j] Ei Ej; simpl in *; try done.
  - by simplify_eq.
  - simplify_eq. clear IH. revert j Ej. induction x as [|d x IH]; intros [|j] Ej; simpl in *; try done.
    + simplify_eq. apply perm_swap.
    + rewrite perm_swap, (perm_swap d). f_equiv. by apply IH.
  - simplify_eq. clear IH. revert i Ei. induction x as [|d x IH]; intros [|i] Ei; simpl in *; try done.
    + simplify_eq. apply perm_swap.
    + rewrite perm_swap, (perm_swap d). f_equiv. by apply IH.
  - f_equiv. by apply IH.
Qed.

Lemma shuffle_from_Permutation {A} (i : nat) (x : list A) rng :
  (shuffle_from i x rng).1 ≡ₚ x.
Proof.
  revert x rng. induction i as [|i IH]; intros x rng; simpl; [done|].
  destruct (randbelow (S (S i)) rng) as [j rng'].
  rewrite IH. apply swap_Permutation.
Qed.

Lemma rng_shuffle_Permutation {A} (x : list A) rng : (rng_shuffle x rng).1 ≡ₚ x.
Proof. apply shuffle_from_Permutation. Qed.

Lemma rng_choice_Return {A} (seq : list A) rng a rng' :
  rng_choice seq rng = Return (a, rng') → a ∈ seq.
Proof.
  unfold rng_choice. destruct seq as [|b seq]; [done|].
  destruct (randbelow _ rng) as [i r]. 
  destruct (_ !! i) eqn:E; [|done]. intros; simplify_eq.
  by eapply list_elem_of_lookup_2.
Qed.

Lemma rng_choice_nonempty {A} (seq : list A) rng :
  seq ≠ [] → ∃ a rng', rng_choice seq rng = Return (a, rng').
Proof.
  unfold rng_choice. destruct seq as [|b seq]; [done|]. intros _.
  generalize (b :: seq) (eq_refl : length (b :: seq) = S (length seq)).
  intros l Hl. unfold randbelow. destruct rng as [|r rng].
  - destruct (lookup_lt_is_Some_2 l 0) as [a Ha]; [lia|]. rewrite Ha. eauto.
  - destruct (lookup_lt_is_Some_2 l (r mod length l)) as [a Ha].
    { apply Nat.mod_upper_bound. lia. }
    rewrite Ha. eauto.
Qed.

(** ** Chains of nested entrances *)

(** [walk d e pre e']: following the connections [d] from [e] through the
    nested entrances [pre] leads to [e']. *)
Inductive walk (d : list (ZoneExit * ZoneEntrance))
    : ZoneEntrance → list ZoneEntrance → ZoneEntrance → Prop :=
| walk_here e : walk d e [] e
| walk_step e x e' pre e'' :
    is_nested e = true →
    get_dungeon_start_exit_leading_to_nested_entrance e = Return x →
    dict_get x d = Some e' →
    walk d e' pre e'' →
    walk d e (e :: pre) e''.

Lemma path_loop_unfold fuel seen ze d :
  path_loop fuel seen ze d =
  if is_nested ze then
    match fuel with
    | 0 => OutOfFuel
    | S fuel' =>
        if decide (ze ∈ seen) then Raise (Exception (infinite_loop_msg seen))
        else
          x ← get_dungeon_start_exit_leading_to_nested_entrance ze;
          match dict_get x d with
          | None => Return None
          | Some ze' => path_loop fuel' (seen ++ [ze]) ze' d
          end
    end
  else Return (Some (seen ++ [ze])).
Proof. by destruct fuel. Qed.

Lemma start_exit_is_dungeon_exit e x :
  get_dungeon_start_exit_leading_to_nested_entrance e = Return x → x ∈ DUNGEON_EXITS.
Proof.
  unfold get_dungeon_start_exit_leading_to_nested_entrance.
  destruct (String.prefix _ _); [|done].
  destruct (list_find _ _) as [[i y]|] eqn:E; [|done].
  intros; simplify_eq. apply list_find_Some in E as (E & _).
  by eapply list_elem_of_lookup_2.
Qed.

Lemma start_exit_not_OutOfFuel e :
  get_dungeon_start_exit_leading_to_nested_entrance e ≠ OutOfFuel.
Proof.
  unfold get_dungeon_start_exit_leading_to_nested_entrance.
  destruct (String.prefix _ _); [|done]. by destruct (list_find _ _) as [[??]|].
Qed.

Lemma walk_head d e pre a : walk d e pre a → head (pre ++ [a]) = Some e.
Proof. by destruct 1. Qed.

Lemma walk_nested d e pre a : walk d e pre a → Forall (λ b, is_nested b = true) pre.
Proof. induction 1; by constructor. Qed.

Lemma walk_snoc d e pre m a x :
  walk d e pre m → is_nested m = true →
  get_dungeon_start_exit_leading_to_nested_entrance m = Return x →
  dict_get x d = Some a → walk d e (pre ++ [m]) a.
Proof.
  induction 1; intros; simpl.
  - eapply walk_step; eauto using walk_here.
  - eapply walk_step; eauto.
Qed.

Lemma walk_init d e pre m a : walk d e (pre ++ [m]) a → walk d e pre m.
Proof.
  revert e. induction pre as [|p pre IH]; intros e H; simpl in H.
  - inversion H; subst. constructor.
  - inversion H; subst. econstructor; eauto.
Qed.

Lemma walk_weaken d d' e pre a :
  (∀ x v, dict_get x d = Some v → dict_get x d' = Some v) →
  walk d e pre a → walk d' e pre a.
Proof. intros Hd. induction 1; econstructor; eauto. Qed.

(** The dungeon exits a walk goes through. *)
Lemma walk_exits d e pre a :
  walk d e pre a →
  ∃ xs, length xs = length pre ∧ Forall (λ x, x ∈ DUNGEON_EXITS) xs
        ∧ (λ x, dict_get x d) <$> xs = Some <$> tail (pre ++ [a]).
Proof.
  induction 1 as [e|e x e' pre e'' Hn Hx Hd Hw (xs & Hlen & Hin & Heq)].
  - by exists [].
  - exists (x :: xs). split_and!; simpl.
    + by rewrite Hlen.
    + constructor; [by eapply start_exit_is_dungeon_exit|done].
    + rewrite Hd. f_equal. fold (fmap (M:=list) (λ x, dict_get x d) xs). rewrite Heq.
      apply walk_head in Hw.
      destruct (pre ++ [e'']) as [|? ?]; simpl in *; by simplify_eq.
Qed.

Lemma NoDup_DUNGEON_EXITS : NoDup DUNGEON_EXITS.
Proof. by_compute. Qed.

Lemma walk_length d e pre a :
  walk d e pre a → NoDup (tail (pre ++ [a])) → length pre ≤ length DUNGEON_EXITS.
Proof.
  intros (xs & <- & Hin & Heq)%walk_exits Hnd.
  apply submseteq_length, NoDup_submseteq.
  - apply (NoDup_fmap_1 (λ x, dict_get x d)). rewrite Heq.
    by apply (NoDup_fmap_2 _).
  - intros x Hx. by eapply (proj1 (Forall_forall _ _)) in Hin.
Qed.

Lemma walk_length_NoDup d e pre a :
  walk d e pre a → NoDup pre → length pre ≤ S (length DUNGEON_EXITS).
Proof.
  intros Hw Hnd. destruct pre as [|p pre _] using rev_ind; [cbn [length]; lia|].
  apply walk_init in Hw. rewrite length_app. cbn [length].
  apply walk_length in Hw; [lia|].
  destruct pre as [|q pre]; simpl in *.
  - apply NoDup_nil_2.
  - by apply NoDup_cons in Hnd as [_ Hnd].
Qed.

(** What each outcome of the loop says about the walk it made. *)
Definition path_outcome (d : list (ZoneExit * ZoneEntrance)) (fuel : nat)
    (seen : list ZoneEntrance) (ze : ZoneEntrance)
    (r : result (option (list ZoneEntrance))) : Prop :=
  match r with
  | Return (Some l) =>
      ∃ pre last, l = seen ++ pre ++ [last] ∧ walk d ze pre last
                  ∧ is_nested last = false ∧ (NoDup seen → NoDup (seen ++ pre))
  | Return None =>
      ∃ pre a x, walk d ze pre a ∧ is_nested a = true
                 ∧ (NoDup seen → NoDup (seen ++ pre ++ [a]))
                 ∧ get_dungeon_start_exit_leading_to_nested_entrance a = Return x
                 ∧ dict_get x d = None
  | Raise e =>
      ∃ pre a, walk d ze pre a ∧ is_nested a = true
               ∧ (NoDup seen → NoDup (seen ++ pre))
               ∧ ((a ∈ seen ++ pre ∧ e = Exception (infinite_loop_msg (seen ++ pre)))
                  ∨ ((a ∉ seen ++ pre)
                     ∧ get_dungeon_start_exit_leading_to_nested_entrance a = Raise e))
  | OutOfFuel =>
      ∃ pre a, walk d ze pre a ∧ is_nested a = true ∧ length pre = fuel
               ∧ (NoDup seen → NoDup (seen ++ pre))
  end.

Lemma path_loop_sound d fuel seen ze :
  path_outcome d fuel seen ze (path_loop fuel seen ze d).
Proof.
  revert seen ze. induction fuel as [|fuel IH]; intros seen ze;
    rewrite path_loop_unfold; destruct (is_nested ze) eqn:Hn.
  - exists [], ze. rewrite app_nil_r. split_and!; auto using walk_here.
  - exists [], ze. rewrite app_nil_r. split_and!; auto using walk_here.
  - destruct (decide (ze ∈ seen)) as [Hin|Hnin].
    { exists [], ze. rewrite app_nil_r. split_and!; auto using walk_here. }
    destruct (get_dungeon_start_exit_leading_to_nested_entrance ze) as [x|e|] eqn:Hx;
      simpl.
    + destruct (dict_get x d) as [ze'|] eqn:Hd.
      * specialize (IH (seen ++ [ze]) ze').
        assert (Hnd : NoDup seen → NoDup (seen ++ [ze])).
        { intros ?. apply NoDup_app. split_and!; [done| |apply NoDup_singleton].
          intros ? ? ->%list_elem_of_singleton. done. }
        destruct (path_loop fuel (seen ++ [ze]) ze' d) as [[l|]|e|]; simpl in *.
        -- destruct IH as (pre & last & -> & Hw & Hl & Hnd').
           exists (ze :: pre), last. rewrite <-!(assoc_L (++)) in *. simpl in *.
           split_and!; eauto using walk_step.
        -- destruct IH as (pre & a & y & Hw & Ha & Hnd' & Hy & Hdy).
           exists (ze :: pre), a, y. rewrite <-!(assoc_L (++)) in *. simpl in *.
           split_and!; eauto using walk_step.
        -- destruct IH as (pre & a & Hw & Ha & Hnd' & Hcase).
           exists (ze :: pre), a. rewrite <-!(assoc_L (++)) in *. simpl in *.
           split_and!; eauto using walk_step.
        -- destruct IH as (pre & a & Hw & Ha & Hlen & Hnd').
           exists (ze :: pre), a. rewrite <-!(assoc_L (++)) in *. simpl in *.
           split_and!; eauto using walk_step.
      * exists [], ze, x. rewrite app_nil_l. split_and!; auto using walk_here.
        intros ?. apply NoDup_app. split_and!; [done| |apply NoDup_singleton].
        intros ? ? ->%list_elem_of_singleton. done.
    + exists [], ze. rewrite app_nil_r. split_and!; auto using walk_here.
    + by apply start_exit_not_OutOfFuel in Hx.
  - exists [], ze. rewrite app_nil_r. split_and!; auto using walk_here.
Qed.

(** The loop never needs more than [path_fuel] iterations. *)
Lemma path_loop_fuel d ze :
  get_all_entrances_on_path_to_entrance ze d ≠ OutOfFuel.
Proof.
  unfold get_all_entrances_on_path_to_entrance. intros E.
  pose proof (path_loop_sound d path_fuel [] ze) as H. rewrite E in H.
  destruct H as (pre & a & Hw & _ & Hlen & Hnd).
  specialize (Hnd NoDup_nil_2). simpl in Hnd.
  apply (walk_length_NoDup _ _ _ _ Hw) in Hnd. rewrite Hlen in Hnd.
  unfold path_fuel in Hnd. lia.
Qed.

Lemma path_loop_complete d fuel seen ze pre last :
  walk d ze pre last → is_nested last = false → NoDup (seen ++ pre) →
  length pre ≤ fuel →
  path_loop fuel seen ze d = Return (Some (seen ++ pre ++ [last])).
Proof.
  intros Hw Hl. revert fuel seen.
  induction Hw as [e|e x e' pre e'' Hn Hx Hd Hw IH]; intros fuel seen Hnd Hlen;
    rewrite path_loop_unfold.
  - by rewrite Hl.
  - rewrite Hn. destruct fuel as [|fuel]; [simpl in Hlen; lia|].
    rewrite decide_False.
    2:{ apply NoDup_app in Hnd as (_ & Hdisj & _). intros Hin.
        apply (Hdisj _ Hin). apply elem_of_cons; auto. }
    rewrite Hx. simpl. rewrite Hd.
    rewrite (IH Hl); [|by rewrite <-(assoc_L (++))|simpl in Hlen; lia].
    by rewrite <-!(assoc_L (++)).
Qed.

(** A complete chain: a walk that ends at an entrance with an island. *)
Definition resolves (d : list (ZoneExit * ZoneEntrance)) (ze : ZoneEntrance)
    (l : list ZoneEntrance) : Prop :=
  ∃ pre last, l = pre ++ [last] ∧ walk d ze pre last ∧ is_nested last = false ∧ NoDup l.

Lemma nested_last_not_in pre last :
  Forall (λ b, is_nested b = true) pre → is_nested last = false → last ∉ pre.
Proof.
  intros Hall Hl Hin. eapply (proj1 (Forall_forall _ _)) in Hall; [|done]. congruence.
Qed.

Lemma resolves_iff d ze l :
  get_all_entrances_on_path_to_entrance ze d = Return (Some l) ↔ resolves d ze l.
Proof.
  unfold get_all_entrances_on_path_to_entrance. split.
  - intros E. pose proof (path_loop_sound d path_fuel [] ze) as H. rewrite E in H.
    destruct H as (pre & last & -> & Hw & Hl & Hnd). exists pre, last. simpl.
    split_and!; [done..|].
    apply NoDup_app. split_and!; [apply Hnd, NoDup_nil_2| |apply NoDup_singleton].
    intros a Ha ->%list_elem_of_singleton.
    eapply (nested_last_not_in pre last); [by eapply walk_nested|done..].
  - intros (pre & last & -> & Hw & Hl & Hnd).
    apply NoDup_app in Hnd as (Hnd & _ & _).
    apply (path_loop_complete d path_fuel [] ze pre last); [done..|].
    apply (walk_length_NoDup _ _ _ _ Hw) in Hnd. unfold path_fuel. lia.
Qed.

Lemma resolves_weaken d d' ze l :
  (∀ x v, dict_get x d = Some v → dict_get x d' = Some v) →
  resolves d ze l → resolves d' ze l.
Proof.
  intros Hd (pre & last & -> & Hw & Hl & Hnd).
  exists pre, last. eauto using walk_weaken.
Qed.

(** ** Catalog facts, by evaluation *)

Lemma NoDup_ALL_ENTRANCES : NoDup ALL_ENTRANCES.
Proof. by_compute. Qed.

Lemma NoDup_ALL_EXITS : NoDup ALL_EXITS.
Proof. by_compute. Qed.

Lemma NoDup_entrance_names : NoDup (entrance_name <$> ALL_ENTRANCES).
Proof. by_compute. Qed.

Lemma NoDup_zone_names : NoDup (zone_name <$> ALL_EXITS).
Proof. by_compute. Qed.

Lemma nested_catalog_entrances e :
  e ∈ ALL_ENTRANCES → is_nested e = true → e ∈ BOSS_ENTRANCES.
Proof.
  revert e. apply (Forall_forall (λ e, is_nested e = true → e ∈ BOSS_ENTRANCES)).
  by_compute.
Qed.

Lemma boss_entrances_nested e : e ∈ BOSS_ENTRANCES → is_nested e = true.
Proof. revert e. apply Forall_forall. by_compute. Qed.

(** The dungeon exit a boss entrance is reached from. *)
Definition start_exit_of (e : ZoneEntrance) : option ZoneExit :=
  match get_dungeon_start_exit_leading_to_nested_entrance e with
  | Return x => Some x
  | _ => None
  end.

Lemma boss_entrances_start_exit e :
  e ∈ BOSS_ENTRANCES →
  ∃ x, get_dungeon_start_exit_leading_to_nested_entrance e = Return x.
Proof.
  revert e. apply Forall_forall.
  assert (H : Forall (λ e, is_Some (start_exit_of e)) BOSS_ENTRANCES) by by_compute.
  eapply Forall_impl; [exact H|]. intros e [x Hx]. unfold start_exit_of in Hx.
  destruct (get_dungeon_start_exit_leading_to_nested_entrance e); naive_solver.
Qed.

Lemma start_exits_NoDup : NoDup (start_exit_of <$> BOSS_ENTRANCES).
Proof. by_compute. Qed.

Lemma boss_exits_not_dungeon x : x ∈ BOSS_EXITS → x ∉ DUNGEON_EXITS.
Proof. revert x. apply Forall_forall. by_compute. Qed.

Lemma boss_exits_have_requirements x o :
  x ∈ BOSS_EXITS → unique_name x ∉ exit_names_with_no_requirements o.
Proof.
  intros Hx. assert (H : Forall (λ x, unique_name x ∉
      DUNGEON_EXIT_NAMES_WITH_NO_REQUIREMENTS
      ++ PUZZLE_SECRET_CAVE_EXIT_NAMES_WITH_NO_REQUIREMENTS
      ++ COMBAT_SECRET_CAVE_EXIT_NAMES_WITH_NO_REQUIREMENTS) BOSS_EXITS) by by_compute.
  eapply (proj1 (Forall_forall _ _)) in H; [|exact Hx]. intros Hin. apply H.
  unfold exit_names_with_no_requirements in Hin.
  rewrite !elem_of_app in *.
  destruct (progression_dungeons o), (progression_puzzle_secret_caves o),
    (progression_combat_secret_caves o);
    rewrite ?elem_of_nil in Hin; tauto.
Qed.

#[global] Instance Selection_eq_dec : EqDecision Selection.
Proof. solve_decision. Defined.

(** The eight selections. *)
Definition all_selections : list Selection :=
  sel ← [true; false]; b ← [true; false]; c ← [true; false]; [mkSelection sel b c].

Lemma all_selections_complete sel : sel ∈ all_selections.
Proof. destruct sel as [[] [] []]; by_compute. Qed.

Lemma relevant_entrances_NoDup sel : NoDup (relevant_entrances_of sel).
Proof.
  revert sel. 
  assert (H : Forall (λ sel, NoDup (relevant_entrances_of sel)) all_selections) by by_compute.
  intros sel. eapply (proj1 (Forall_forall _ _)) in H; [done|apply all_selections_complete].
Qed.

Lemma relevant_exits_NoDup sel : NoDup (relevant_exits_of sel).
Proof.
  assert (H : Forall (λ sel, NoDup (relevant_exits_of sel)) all_selections) by by_compute.
  eapply (proj1 (Forall_forall _ _)) in H; [done|apply all_selections_complete].
Qed.

Lemma relevant_same_length sel :
  length (relevant_entrances_of sel) = length (relevant_exits_of sel).
Proof. by destruct sel as [[] [] []]. Qed.

Lemma relevant_entrances_catalog sel e : e ∈ relevant_entrances_of sel → e ∈ ALL_ENTRANCES.
Proof.
  unfold relevant_entrances_of, ALL_ENTRANCES. rewrite !elem_of_app.
  destruct sel as [[] [] []]; simpl; rewrite ?elem_of_nil; tauto.
Qed.

Lemma relevant_exits_catalog sel x : x ∈ relevant_exits_of sel → x ∈ ALL_EXITS.
Proof.
  unfold relevant_exits_of, ALL_EXITS. rewrite !elem_of_app.
  destruct sel as [[] [] []]; simpl; rewrite ?elem_of_nil; tauto.
Qed.

(** ** One iteration of the assignment loop *)

Lemma possible_subset l ze x :
  x ∈ possible_remaining_exits l ze → x ∈ remaining_exits l.
Proof.
  unfold possible_remaining_exits.
  repeat (case_match || case_bool_decide); rewrite ?list_elem_of_filter;
    intuition; repeat match goal with
                      | H : _ ∈ filter _ _ |- _ => apply list_elem_of_filter in H as [? ?]
                      end; done.
Qed.

(** Only start placing boss exits after all dungeon exits have been placed. *)
Lemma possible_boss l ze x :
  x ∈ possible_remaining_exits l ze → x ∈ BOSS_EXITS →
  ∀ y, y ∈ remaining_exits l → y ∉ DUNGEON_EXITS.
Proof.
  unfold possible_remaining_exits. intros Hx Hb y Hy Hd.
  assert (Hreq := boss_exits_have_requirements x (options (l_self l)) Hb).
  set (p1 := if doing_progress l && bool_decide (Some ze = safety_entrance l)
             then filter _ (remaining_exits l) else remaining_exits l) in Hx.
  set (p2 := if bool_decide (Exists (λ e, e ∈ DUNGEON_EXITS) p1)
             then filter _ (remaining_exits l) else p1) in Hx.
  assert (Hx2 : x ∈ p2).
  { destruct (race_mode _); [|done]. destruct (filter _ (done_entrances_to_exits l)); [done|].
    by apply list_elem_of_filter in Hx as [_ ?]. }
  clear Hx. subst p2. case_bool_decide as Hex.
  - by apply list_elem_of_filter in Hx2 as [? _].
  - subst p1. destruct (doing_progress l && bool_decide _).
    + by apply list_elem_of_filter in Hx2 as [? _].
    + apply Hex, Exists_exists. eauto.
Qed.

Lemma possible_race l ze x :
  race_mode (options (l_self l)) = true →
  x ∈ possible_remaining_exits l ze →
  ∀ p, p ∈ done_entrances_to_exits l → island_name p.1 = island_name ze →
       p.2 ∈ DUNGEON_EXITS → (x ∉ DUNGEON_EXITS) ∧ (x ∉ BOSS_EXITS).
Proof.
  unfold possible_remaining_exits. intros -> Hx p Hp Hi Hd.
  match type of Hx with context [filter ?P (done_entrances_to_exits l)] =>
    assert (Hin : p ∈ filter P (done_entrances_to_exits l))
      by (apply list_elem_of_filter; auto);
    destruct (filter P (done_entrances_to_exits l)) as [|q qs];
      [by apply elem_of_nil in Hin|]
  end.
  apply list_elem_of_filter in Hx as [Hx _]. rewrite elem_of_app in Hx. tauto.
Qed.

(** The two ways an iteration goes on to the next one. *)
Inductive loop_step (l : Locals) : Locals → Prop :=
| step_defer zone_entrance rest :
    relevant_entrances l = zone_entrance :: rest →
    get_outermost_entrance_for_entrance zone_entrance (done_exits_to_entrances l)
      = Return None →
    loop_step l (mkLocals (l_self l) (doing_progress l) (safety_entrance l)
                   (rest ++ [zone_entrance]) (remaining_exits l)
                   (done_entrances_to_exits l) (done_exits_to_entrances l))
| step_place zone_entrance rest outermost_entrance zone_exit rng' remaining :
    relevant_entrances l = zone_entrance :: rest →
    get_outermost_entrance_for_entrance zone_entrance (done_exits_to_entrances l)
      = Return (Some outermost_entrance) →
    rng_choice (possible_remaining_exits l zone_entrance) (rng (l_self l))
      = Return (zone_exit, rng') →
    list_remove zone_exit (remaining_exits l) = Return remaining →
    loop_step l (mkLocals
                   (set_entrance_connection (entrance_name zone_entrance)
                      (unique_name zone_exit) (set_rng rng' (l_self l)))
                   (doing_progress l) (safety_entrance l) rest remaining
                   (dict_set zone_entrance zone_exit (done_entrances_to_exits l))
                   (dict_set zone_exit zone_entrance (done_exits_to_entrances l))).

Lemma loop_body_Next l l' : loop_body l = Next l' → loop_step l l'.
Proof.
  unfold loop_body. intros H.
  destruct (relevant_entrances l) as [|ze rest] eqn:Hq; [done|].
  destruct (get_outermost_entrance_for_entrance ze _) as [[o|]|e|] eqn:Ho; try done.
  - destruct (possible_remaining_exits l ze) as [|c cs] eqn:Hp; [done|].
    destruct (rng_choice _ _) as [[zx rng']|e|] eqn:Hc; try done.
    destruct (list_remove _ _) as [rem|e|] eqn:Hr; try done.
    inversion H; subst. rewrite <-Hp in Hc. by eapply step_place.
  - inversion H; subst. by eapply step_defer.
Qed.

(** States of the loop: those it passes through from [l0]. *)
Inductive reachable (l0 : Locals) : Locals → Prop :=
| reachable_start : reachable l0 l0
| reachable_next l l' : reachable l0 l → loop_body l = Next l' → reachable l0 l'.

Lemma main_loop_reachable fuel l0 l r :
  main_loop fuel l0 = (l, r) → reachable l0 l.
Proof.
  revert l0. induction fuel as [|fuel IH]; intros l0 H; simpl in H.
  - inversion H; subst. constructor.
  - destruct (loop_body l0) as [| | |l1] eqn:Hb; try (inversion H; subst; constructor).
    specialize (IH _ H). clear H. revert l0 Hb.
    induction IH as [|l2 l3 Hr IH' Hb']; intros l0 Hb.
    + eapply reachable_next; [constructor|done].
    + eapply reachable_next; [|done]. by apply IH'.
Qed.

Lemma main_loop_Return fuel l0 l :
  main_loop fuel l0 = (l, Return tt) → loop_body l = Finished.
Proof.
  revert l0. induction fuel as [|fuel IH]; intros l0 H; simpl in H; [done|].
  destruct (loop_body l0) as [| | |l1] eqn:Hb; try (inversion H; subst; done).
  eauto.
Qed.

Lemma loop_body_Finished l : loop_body l = Finished ↔ relevant_entrances l = [].
Proof.
  unfold loop_body. destruct (relevant_entrances l) as [|ze rest]; [done|].
  split; [|done]. repeat case_match; done.
Qed.

(** ** Before the loop *)

Lemma list_remove_middle `{EqDecision A} (x : A) (pre l : list A) :
  x ∉ pre → list_remove x (pre ++ x :: l) = Return (pre ++ l).
Proof.
  induction pre as [|y pre IH]; simpl; intros Hn.
  - by rewrite decide_True.
  - apply not_elem_of_cons in Hn as [Hne Hn].
    rewrite decide_False by done. by rewrite IH.
Qed.

Lemma remove_each_filter `{EqDecision A} (P : A → Prop) `{∀ x, Decision (P x)}
    (pre l : list A) :
  Forall (λ x, ¬ P x) pre →
  remove_each (filter P l) (pre ++ l) = Return (pre ++ filter (λ x, ¬ P x) l).
Proof.
  revert pre. induction l as [|x l IH]; intros pre Hpre.
  - done.
  - destruct (decide (P x)) as [HP|HP].
    + rewrite (filter_cons_True P) by done. rewrite filter_cons_False by tauto.
      simpl. rewrite list_remove_middle; [by apply IH|].
      intros Hin. by eapply (proj1 (Forall_forall _ _)) in Hpre.
    + rewrite (filter_cons_False P) by done. rewrite filter_cons_True by done.
      rewrite (cons_middle x pre l), (cons_middle x pre (filter _ l)), !(assoc_L (++)).
      apply IH. apply Forall_app. split; [done|]. by constructor.
Qed.

Lemma island_grouping_Return rel :
  island_grouping rel
  = Return (filter (not_on_unique_island rel) rel
            ++ filter (λ e, ¬ not_on_unique_island rel e) rel).
Proof.
  unfold island_grouping.
  pose proof (remove_each_filter (not_on_unique_island rel) [] rel (Forall_nil_2 _)) as H.
  simpl in H. by rewrite H.
Qed.

Lemma filter_complement_Permutation {A} (P : A → Prop) `{∀ x, Decision (P x)} (l : list A) :
  filter P l ++ filter (λ x, ¬ P x) l ≡ₚ l.
Proof.
  induction l as [|x l IH]; [done|].
  destruct (decide (P x)).
  - rewrite (filter_cons_True P), filter_cons_False by tauto. simpl. by rewrite IH.
  - rewrite (filter_cons_False P), filter_cons_True by tauto.
    by rewrite <-Permutation_middle, IH.
Qed.

(** Sharing an island does not depend on the order of the list. *)
Lemma not_on_unique_island_Permutation l l' e :
  l ≡ₚ l' → not_on_unique_island l e ↔ not_on_unique_island l' e.
Proof.
  intros Hp. unfold not_on_unique_island. rewrite !Exists_exists.
  split; intros (o & Ho & ?); exists o; split; try done.
  - by rewrite <-Hp.
  - by rewrite Hp.
Qed.

(** The entrances that share their island with another one of the run. *)
Definition shares_island (sel : Selection) (e : ZoneEntrance) : Prop :=
  not_on_unique_island (relevant_entrances_of sel) e.

(** The queue starts with the entrances that share an island, the safety
    entrance possibly among them. *)
Definition front_first (sel : Selection) (safety : option ZoneEntrance)
    (q : list ZoneEntrance) : Prop :=
  ∃ front rest, q = front ++ rest
    ∧ Forall (λ e, shares_island sel e ∨ Some e = safety) front
    ∧ Forall (λ e, ¬ shares_island sel e) rest.

(** What the loop starts from. *)
Record prepared (self : Randomizer) (sel : Selection) (l0 : Locals) : Prop := {
  prep_queue : relevant_entrances l0 ≡ₚ relevant_entrances_of sel;
  prep_exits : remaining_exits l0 = relevant_exits_of sel;
  prep_done : done_entrances_to_exits l0 = [];
  prep_done' : done_exits_to_entrances l0 = [];
  prep_options : options (l_self l0) = options self;
  prep_dry_run : dry_run (l_self l0) = dry_run self;
  prep_calls : stage_calls (l_self l0) = stage_calls self;
  prep_islands :
    dungeon_and_cave_island_locations (l_self l0) = dungeon_and_cave_island_locations self;
  prep_doing :
    doing_progress l0 = doing_progress_entrances_for_dungeons_and_caves_only_start self sel;
  prep_safety :
    match safety_entrance l0 with
    | Some s => doing_progress l0 = true ∧ head (relevant_entrances l0) = Some s
    | None => doing_progress l0 = false
    end;
  prep_front :
    race_mode (options self) = true →
    front_first sel (safety_entrance l0) (relevant_entrances l0);
}.

Lemma front_first_move sel s l l' :
  front_first sel None l → list_remove s l = Return l' →
  front_first sel (Some s) (s :: l').
Proof.
  intros (front & rest & -> & Hf & Hr) (l1 & l2 & Heq & -> & Hn)%list_remove_Return.
  assert (Hf' : Forall (λ e, shares_island sel e ∨ Some e = Some s) front).
  { eapply Forall_impl; [exact Hf|]. intros ? [?|[=]]; auto. }
  apply app_eq_inv in Heq as [(k & -> & Hk)|(k & -> & Hk)].
  - destruct k as [|x k]; simpl in Hk.
    + subst rest. apply Forall_cons in Hr as [_ Hr].
      exists (s :: l1), l2. rewrite app_nil_r in Hf'. split_and!; [done| |done].
      constructor; auto.
    + injection Hk as <- ->. exists (s :: l1 ++ k), rest.
      apply Forall_app in Hf' as [Hf1 [_ Hf2]%Forall_cons].
      split_and!; [by simpl; rewrite <-(assoc_L (++))| |done].
      constructor; [auto|]. by apply Forall_app.
  - exists (s :: front), (k ++ l2).
    rewrite Hk in Hr. apply Forall_app in Hr as [Hr1 [_ Hr2]%Forall_cons].
    split_and!; [by simpl; rewrite <-(assoc_L (++))| |by apply Forall_app].
    constructor; auto.
Qed.

Lemma prepare_Return self sel s l0 :
  prepare self sel = (s, Return l0) → prepared self sel l0.
Proof.
  unfold prepare.
  destruct (rng_shuffle _ _) as [shuffled rng1] eqn:Hs.
  assert (Hperm : shuffled ≡ₚ relevant_entrances_of sel).
  { pose proof (rng_shuffle_Permutation (relevant_entrances_of sel) (rng self)) as H.
    by rewrite Hs in H. }
  clear Hs. cbn [options set_rng].
  set (grouped := if race_mode (options self) then island_grouping shuffled
                  else Return shuffled).
  assert (Hg : ∃ q, grouped = Return q ∧ q ≡ₚ relevant_entrances_of sel
                    ∧ (race_mode (options self) = true → front_first sel None q)).
  { subst grouped. destruct (race_mode (options self)).
    - rewrite island_grouping_Return. eexists. split_and!; [done|..].
      + by rewrite filter_complement_Permutation.
      + intros _. eexists _, _. split_and!; [done|..].
        * apply Forall_forall. intros e [He _]%list_elem_of_filter. left.
          by apply (not_on_unique_island_Permutation _ _ _ Hperm).
        * apply Forall_forall. intros e [He _]%list_elem_of_filter.
          unfold shares_island.
          by rewrite <-(not_on_unique_island_Permutation _ _ _ Hperm).
    - exists shuffled. split_and!; [done..|]. intros [=]. }
  destruct Hg as (q & -> & Hq & Hfront).
  destruct (doing_progress_entrances_for_dungeons_and_caves_only_start _ sel) eqn:Hdo.
  - destruct (rng_choice _ _) as [[safety rng2]|e|] eqn:Hc; try (intros [=]; fail).
    destruct (list_remove safety q) as [rest|e|] eqn:Hr; try (intros [=]; fail).
    intros [= _ <-]. split; simpl; try done.
    + rewrite <-Hq. symmetry. by apply list_remove_Permutation.
    + intros Hrace. eapply front_first_move; eauto.
  - intros [= _ <-]. split; simpl; try done.
Qed.

(** ** The loop invariant *)

Lemma outermost_Some ze d o :
  get_outermost_entrance_for_entrance ze d = Return (Some o) →
  ∃ c, get_all_entrances_on_path_to_entrance ze d = Return (Some c) ∧ last c = Some o.
Proof.
  unfold get_outermost_entrance_for_entrance.
  destruct (get_all_entrances_on_path_to_entrance ze d) as [[c|]|e|]; simpl; try done.
  unfold list_last_item. destruct (last c) eqn:E; simpl; [|done].
  intros [= <-]. eauto.
Qed.

Lemma outermost_None ze d :
  get_outermost_entrance_for_entrance ze d = Return None →
  get_all_entrances_on_path_to_entrance ze d = Return None.
Proof.
  unfold get_outermost_entrance_for_entrance.
  destruct (get_all_entrances_on_path_to_entrance ze d) as [[c|]|e|]; simpl; try done.
  unfold list_last_item. destruct (last c); simpl; done.
Qed.

Lemma resolves_outermost d ze c :
  resolves d ze c →
  ∃ o, get_outermost_entrance_for_entrance ze d = Return (Some o)
       ∧ last c = Some o ∧ is_nested o = false.
Proof.
  intros Hr. pose proof Hr as (pre & o & -> & Hw & Ho & Hnd).
  apply resolves_iff in Hr. unfold get_outermost_entrance_for_entrance.
  rewrite Hr. simpl. unfold list_last_item. rewrite last_snoc. simpl. eauto.
Qed.

Definition dungeon_leading (done : list (ZoneEntrance * ZoneExit)) : list ZoneEntrance :=
  (filter (λ p : ZoneEntrance * ZoneExit, p.2 ∈ DUNGEON_EXITS) done).*1.

(** The dict [done_entrances_to_exits] lists the pairings in the order they
    were made. [chosen_in_order pool sel done]: whenever a boss exit was
    chosen, every exit of the run that is in [pool] had been placed before. *)
Definition chosen_in_order (pool : ZoneExit → Prop) (sel : Selection)
    (done : list (ZoneEntrance * ZoneExit)) : Prop :=
  ∀ i e x, done !! i = Some (e, x) → x ∈ BOSS_EXITS →
    ∀ y, y ∈ relevant_exits_of sel → pool y → y ∈ (take i done).*2.

Record loop_inv (self : Randomizer) (sel : Selection) (l0 l : Locals) : Prop := {
  inv_inverse :
    done_exits_to_entrances l = prod_swap <$> done_entrances_to_exits l;
  inv_entrances :
    (done_entrances_to_exits l).*1 ++ relevant_entrances l ≡ₚ relevant_entrances_of sel;
  inv_exits :
    (done_entrances_to_exits l).*2 ++ remaining_exits l ≡ₚ relevant_exits_of sel;
  inv_options : options (l_self l) = options self;
  inv_dry_run : dry_run (l_self l) = dry_run self;
  inv_calls : stage_calls (l_self l) = stage_calls self;
  inv_islands :
    dungeon_and_cave_island_locations (l_self l) = dungeon_and_cave_island_locations self;
  inv_doing : doing_progress l = doing_progress l0;
  inv_safety : safety_entrance l = safety_entrance l0;
  inv_resolved :
    ∀ e, e ∈ (done_entrances_to_exits l).*1 →
         ∃ c, resolves (done_exits_to_entrances l) e c;
  inv_boss :
    (∃ x, x ∈ (done_entrances_to_exits l).*2 ∧ x ∈ BOSS_EXITS) →
    ∀ y, y ∈ remaining_exits l → y ∉ DUNGEON_EXITS;
  inv_race :
    race_mode (options self) = true →
    NoDup (island_name <$> dungeon_leading (done_entrances_to_exits l));
  inv_order :
    chosen_in_order (λ y, y ∈ DUNGEON_EXITS) sel (done_entrances_to_exits l);
  inv_connections :
    ∀ e x, (e, x) ∈ done_entrances_to_exits l →
           dict_get (entrance_name e) (entrance_connections (l_self l))
           = Some (unique_name x);
}.

Lemma loop_inv_start self sel l0 : prepared self sel l0 → loop_inv self sel l0 l0.
Proof.
  intros [Hq Hx Hd Hd' Ho Hdr Hc Hi Hdo Hs Hf]. split; try done.
  - by rewrite Hd, Hd'.
  - by rewrite Hd.
  - by rewrite Hd, Hx.
  - rewrite Hd. intros e []%elem_of_nil.
  - rewrite Hd. intros (x & []%elem_of_nil & _).
  - rewrite Hd. intros _. apply NoDup_nil_2.
  - rewrite Hd. intros i e x [=].
  - rewrite Hd. intros e x []%elem_of_nil.
Qed.

Lemma fst_swap_snd {A B} (l : list (A * B)) : (prod_swap <$> l).*1 = l.*2.
Proof. induction l as [|[??] l IH]; [done|]. rewrite !fmap_cons. by f_equal. Qed.

Lemma entrance_names_inj e1 e2 :
  e1 ∈ ALL_ENTRANCES → e2 ∈ ALL_ENTRANCES → entrance_name e1 = entrance_name e2 → e1 = e2.
Proof.
  intros H1 H2 Heq.
  apply list_elem_of_lookup in H1 as [i Hi]. apply list_elem_of_lookup in H2 as [j Hj].
  assert (i = j); [|by simplify_eq].
  eapply (NoDup_lookup _ _ _ _ NoDup_entrance_names); rewrite list_lookup_fmap.
  - by rewrite Hi.
  - by rewrite Hj, Heq.
Qed.

Section step.
Context (self : Randomizer) (sel : Selection) (l0 l : Locals).
Context (Hinv : loop_inv self sel l0 l).

Lemma inv_NoDup_entrances :
  NoDup ((done_entrances_to_exits l).*1 ++ relevant_entrances l).
Proof. rewrite (inv_entrances _ _ _ _ Hinv). apply relevant_entrances_NoDup. Qed.

Lemma inv_NoDup_exits :
  NoDup ((done_entrances_to_exits l).*2 ++ remaining_exits l).
Proof. rewrite (inv_exits _ _ _ _ Hinv). apply relevant_exits_NoDup. Qed.

Lemma inv_queue_catalog e : e ∈ relevant_entrances l → e ∈ ALL_ENTRANCES.
Proof.
  intros He. apply (relevant_entrances_catalog sel).
  rewrite <-(inv_entrances _ _ _ _ Hinv). apply elem_of_app. auto.
Qed.

Lemma inv_done_catalog e : e ∈ (done_entrances_to_exits l).*1 → e ∈ ALL_ENTRANCES.
Proof.
  intros He. apply (relevant_entrances_catalog sel).
  rewrite <-(inv_entrances _ _ _ _ Hinv). apply elem_of_app. auto.
Qed.

Lemma loop_inv_step l' : loop_step l l' → loop_inv self sel l0 l'.
Proof.
  destruct Hinv as [inv_inverse0 inv_entrances0 inv_exits0 inv_options0 inv_dry_run0
    inv_calls0 inv_islands0 inv_doing0 inv_safety0 inv_resolved0 inv_boss0 inv_race0
    inv_order0 inv_connections0].
  pose proof inv_NoDup_entrances as Hnde.
  pose proof inv_NoDup_exits as Hndx.
  intros [ze rest Hq Ho|ze rest o zx rng' rem Hq Ho Hc Hr].
  - split; simpl; try done.
    rewrite <-inv_entrances0, Hq. f_equiv. by rewrite <-Permutation_cons_append.
  - apply rng_choice_Return in Hc.
    pose proof (possible_subset _ _ _ Hc) as Hzx.
    pose proof (list_remove_Permutation _ _ _ Hr) as Hrem.
    rewrite Hq in Hnde. rewrite Hrem in Hndx.
    assert (Hze : ze ∉ (done_entrances_to_exits l).*1).
    { apply NoDup_app in Hnde as (_ & Hd & _). intros Hin.
      apply (Hd _ Hin). apply elem_of_cons; auto. }
    assert (Hzx' : zx ∉ (done_entrances_to_exits l).*2).
    { apply NoDup_app in Hndx as (_ & Hd & _). intros Hin.
      apply (Hd _ Hin). apply elem_of_cons; auto. }
    rewrite inv_inverse0 in *.
    rewrite (dict_set_fresh _ ze) by done.
    rewrite (dict_set_fresh _ zx) by by rewrite fst_swap_snd.
    assert (Hmono : ∀ x v,
      dict_get x (prod_swap <$> done_entrances_to_exits l) = Some v →
      dict_get x ((prod_swap <$> done_entrances_to_exits l) ++ [(zx, ze)]) = Some v).
    { intros x v. apply dict_get_app_l. }
    split; simpl; try done.
    + by rewrite fmap_app.
    + rewrite fmap_app, <-inv_entrances0, Hq, <-(assoc_L (++)). done.
    + rewrite fmap_app, <-inv_exits0, Hrem, <-(assoc_L (++)). done.
    + rewrite fmap_app. intros e [He|He%list_elem_of_singleton]%elem_of_app;
        [|simpl in He; subst e].
      * destruct (inv_resolved0 e He) as [c Hres]. eauto using resolves_weaken.
      * apply outermost_Some in Ho as (c & Hres%resolves_iff & _).
        eauto using resolves_weaken.
    + rewrite fmap_app.
      intros (x & [Hx|Hx%list_elem_of_singleton]%elem_of_app & Hb) y Hy;
        [|simpl in Hx; subst x].
      * apply inv_boss0; [eauto|]. rewrite Hrem. apply elem_of_cons; auto.
      * eapply possible_boss; eauto. rewrite Hrem. apply elem_of_cons; auto.
    + intros Hrace. specialize (inv_race0 Hrace). unfold dungeon_leading in *.
      rewrite filter_app, !fmap_app.
      destruct (decide (zx ∈ DUNGEON_EXITS)) as [Hd|Hd].
      * rewrite filter_cons_True, filter_nil by done. simpl.
        apply NoDup_app. split_and!; [done| |apply NoDup_singleton].
        intros i Hi Hi'%list_elem_of_singleton. subst i.
        apply list_elem_of_fmap in Hi as (e & Hie & He).
        apply list_elem_of_fmap in He as (p & -> & [Hp1 Hp2]%list_elem_of_filter).
        rewrite <-inv_options0 in Hrace.
        by destruct (possible_race _ _ _ Hrace Hc p Hp2 (eq_sym Hie) Hp1).
      * rewrite filter_cons_False, filter_nil by done. simpl. by rewrite app_nil_r.
    + intros i e x Hi Hb y Hy Hd.
      destruct (decide (i < length (done_entrances_to_exits l))) as [Hlt|Hge].
      * rewrite lookup_app_l in Hi by done. rewrite take_app_le by lia.
        by eapply inv_order0.
      * rewrite lookup_app_r in Hi by lia.
        apply list_lookup_singleton_Some in Hi as [Hi [= -> ->]].
        replace i with (length (done_entrances_to_exits l)) by lia.
        rewrite take_app_length.
        rewrite <-inv_exits0 in Hy. apply elem_of_app in Hy as [Hy|Hy]; [done|].
        by destruct (possible_boss _ _ _ Hc Hb y Hy).
    + intros e x [Hin|Hin%list_elem_of_singleton]%elem_of_app;
        [|injection Hin as -> ->].
      * rewrite dict_get_set_ne; [by apply inv_connections0|].
        intros Heq. apply Hze. 
        assert (He : e ∈ (done_entrances_to_exits l).*1).
        { apply list_elem_of_fmap. by exists (e, x). }
        rewrite (entrance_names_inj ze e); [done| | |done].
        -- apply inv_queue_catalog. rewrite Hq. apply elem_of_cons; auto.
        -- by apply inv_done_catalog.
      * apply dict_get_set_eq.
Qed.
End step.

Lemma loop_inv_reachable self sel l0 l :
  prepared self sel l0 → reachable l0 l → loop_inv self sel l0 l.
Proof.
  intros Hp. induction 1 as [|l l' Hr IH Hb].
  - by apply loop_inv_start.
  - eapply loop_inv_step; [done|]. by apply loop_body_Next.
Qed.

(** ** Runs *)

(** The locals the assignment loop stops with, and how it stopped, for a
    call with the given fuel; [None] when the call fails before the loop. *)
Definition loop_result (fuel : nat) (self : Randomizer) (sel : Selection)
    : option (Locals * result unit) :=
  match prepare self sel with
  | (_, Return l0) => Some (main_loop fuel l0)
  | _ => None
  end.

Lemma loop_result_inv fuel self sel l r :
  loop_result fuel self sel = Some (l, r) →
  ∃ l0, prepared self sel l0 ∧ reachable l0 l ∧ loop_inv self sel l0 l
        ∧ main_loop fuel l0 = (l, r).
Proof.
  unfold loop_result. destruct (prepare self sel) as [s [l0|e|]] eqn:Hp; try done.
  intros [= Hm]. apply prepare_Return in Hp. exists l0.
  pose proof (main_loop_reachable _ _ _ _ Hm). eauto using loop_inv_reachable.
Qed.

(** Example configurations. *)
Definition no_options : Options := mkOptions false false false false false "Dungeons".

Definition all_three : Selection := mkSelection true true true.
Definition dungeons_only : Selection := mkSelection true false false.

(** A randomizer whose random source only ever draws 0. *)
Definition plain_randomizer : Randomizer :=
  mkRandomizer no_options false false [] [] [] [] [].

(** Restricted start with dungeons in the progression; the sixth draw is
    the one for the safety entrance's exit. *)
Definition restricted_start_randomizer : Randomizer :=
  mkRandomizer (mkOptions false true false false false "Dungeons") true false
    [0; 0; 0; 0; 0; 1] [] [] [] [].


(** ** Order of the pairings (C2) *)

(** The run of [plain_randomizer] over all three categories, stopped after
    six iterations. *)
Definition six_iterations : Locals :=
  Eval vm_compute in
    (main_loop 6 (mkLocals plain_randomizer false None
                    (rng_shuffle (relevant_entrances_of all_three) []).1
                    (relevant_exits_of all_three) [] [])).1.

Definition savage_labyrinth : ZoneExit :=
  plain_exit "Cave09" 0 1 0 "Outset Island" "Savage Labyrinth".

(** C2, as stated, fails: with all three categories selected a boss exit
    is paired (here "Gohma Boss Arena", sixth pairing) while secret-cave
    exits of the run are still unplaced. *)
Lemma boss_exit_before_cave_exits :
  ¬ (∀ fuel self sel l r,
       loop_result fuel self sel = Some (l, r) →
       chosen_in_order (λ y, y ∉ BOSS_EXITS) sel (done_entrances_to_exits l)).
Proof.
  intros H.
  assert (Hrun : loop_result 6 plain_randomizer all_three
                 = Some (six_iterations, OutOfFuel)) by (vm_compute; reflexivity).
  specialize (H _ _ _ _ _ Hrun 5
    (nested_entrance "kindan" 16 0 1 "Boss Entrance in Forbidden Woods")
    (plain_exit "M_DragB" 0 0 0 "Gohma Boss Arena" "Gohma Boss Arena")
    eq_refl).
  assert (Hin : savage_labyrinth ∈ (take 5 (done_entrances_to_exits six_iterations)).*2).
  { apply H; by_compute. }
  revert Hin. apply (bool_decide_eq_false_1 _). vm_compute. reflexivity.
Qed.

(** C2, amended: whenever a boss exit is paired, every dungeon exit of the
    run has been placed before; this holds in every state the loop passes
    through. *)
Theorem boss_exits_after_dungeon_exits fuel self sel l r :
  loop_result fuel self sel = Some (l, r) →
  chosen_in_order (λ y, y ∈ DUNGEON_EXITS) sel (done_entrances_to_exits l).
Proof.
  intros (l0 & _ & _ & Hinv & _)%loop_result_inv. apply Hinv.
Qed.

Lemma boss_exits_after_dungeon_exits_witness :
  chosen_in_order (λ y, y ∈ DUNGEON_EXITS) all_three
    (done_entrances_to_exits six_iterations).
Proof.
  apply (boss_exits_after_dungeon_exits 6 plain_randomizer all_three six_iterations
           OutOfFuel).
  vm_compute. reflexivity.
Defined.

(** ** The safety entrance (C3) *)

(** C3 fails on the code: the filter of line 255 is taken over
    [remaining_exits], which drops the restriction to exits with no
    requirements as soon as one of those is a dungeon exit. Restricted
    start, dungeons only: the safety entrance is paired with "Forbidden
    Woods", which is not in the allow-list. *)
Definition restricted_start_first_pairing : Locals :=
  Eval vm_compute in
    match loop_result 1 restricted_start_randomizer dungeons_only with
    | Some (l, _) => l
    | None => mkLocals restricted_start_randomizer false None [] [] [] []
    end.

Lemma safety_entrance_exit_not_allowed :
  let l := restricted_start_first_pairing in
  let s := island_entrance "Adanmae" 0 2 2 "Dungeon Entrance on Dragon Roost Island"
             "Dragon Roost Island" "sea" 13 211 in
  let x := dungeon_exit "kindan" 0 0 0 "Forbidden Woods" "Forbidden Woods" "kinBOSS" in
  loop_result 1 restricted_start_randomizer dungeons_only = Some (l, OutOfFuel)
  ∧ doing_progress l = true
  ∧ safety_entrance l = Some s
  ∧ dict_get s (done_entrances_to_exits l) = Some x
  ∧ unique_name x ∉ exit_names_with_no_requirements (options restricted_start_randomizer).
Proof.
  split_and!; [vm_compute; reflexivity|reflexivity|reflexivity|vm_compute; reflexivity|].
  by_compute.
Qed.

(** ** Zone lookup (C9) *)

(** The lookup as the specification words it: the override replaces the
    nominal zone; an attributed dungeon or cave zone gives its island; any
    other location gives the zone; both with the Tower of the Gods case. *)
Definition zone_lookup_spec (split : string → string * string) (dungeon_or_cave : string → bool)
    (island_attribution : list (string * option string)) (location : string)
    : option string :=
  let nominal := (split location).1 in
  let zone := default nominal (dict_get location ITEM_LOCATION_NAME_TO_EXIT_ZONE_NAME_OVERRIDES) in
  match dict_get zone island_attribution, dungeon_or_cave location with
  | Some island, true =>
      if decide (island = Some "Tower of the Gods"%string)
      then Some "Tower of the Gods Sector"%string else island
  | _, _ =>
      if decide (location = "Tower of the Gods - Sunken Treasure"%string)
      then Some "Tower of the Gods Sector"%string else Some zone
  end.

(** C9: [get_entrance_zone_for_item_location] applies the override table,
    then returns the attributed island of a dungeon or cave zone present in
    the attribution ("Tower of the Gods" becoming "Tower of the Gods
    Sector"), and otherwise the zone name ("Tower of the Gods - Sunken
    Treasure" giving "Tower of the Gods Sector"). *)
Theorem zone_lookup_correct (split : string → string * string)
    (dungeon_or_cave : string → bool) (self : Randomizer) (location : string) :
  get_entrance_zone_for_item_location split dungeon_or_cave self location
  = zone_lookup_spec split dungeon_or_cave (dungeon_and_cave_island_locations self) location.
Proof.
  unfold get_entrance_zone_for_item_location, zone_lookup_spec, tower_of_the_gods_sector.
  generalize (dict_get location ITEM_LOCATION_NAME_TO_EXIT_ZONE_NAME_OVERRIDES).
  intros override. destruct (split location) as [zone specific].
  destruct override as [z|]; simpl;
    match goal with
    | |- context [dict_get ?k (dungeon_and_cave_island_locations self)] =>
        destruct (dict_get k (dungeon_and_cave_island_locations self)) as [island|]
    end;
    destruct (dungeon_or_cave location); reflexivity.
Qed.

(** ** Nested entrances in race mode (C10) *)

Lemma nested_same_island e1 e2 :
  is_nested e1 = true → is_nested e2 = true → island_name e1 = island_name e2.
Proof. unfold is_nested. by destruct (island_name e1), (island_name e2). Qed.

Lemma boss_entrances_relevant sel b :
  include_bosses sel = true → b ∈ BOSS_ENTRANCES → b ∈ relevant_entrances_of sel.
Proof.
  intros Hb Hin. unfold relevant_entrances_of. rewrite Hb, !elem_of_app. auto.
Qed.

Lemma boss_entrances_share l b :
  BOSS_ENTRANCES ⊆ l → b ∈ BOSS_ENTRANCES → not_on_unique_island l b.
Proof.
  intros Hsub Hb. apply Exists_exists.
  assert (H : Forall (λ b, ∃ b', b' ∈ BOSS_ENTRANCES ∧ b' ≠ b) BOSS_ENTRANCES).
  { apply Forall_forall. intros b0 Hb0.
    destruct (decide (b0 = nested_entrance "M_NewD2" 10 1 27
                             "Boss Entrance in Dragon Roost Cavern")) as [->|Hne].
    - exists (nested_entrance "kindan" 16 0 1 "Boss Entrance in Forbidden Woods").
      split; [by_compute|done].
    - eexists. split; [|done]. by_compute. }
  eapply (proj1 (Forall_forall _ _)) in H as (b' & Hb' & Hne); [|exact Hb].
  exists b'. split_and!; [by apply Hsub| |done].
  apply nested_same_island; by apply boss_entrances_nested.
Qed.

(** C10: island names are compared with plain equality, so nested
    entrances share "their island": with boss entrances selected, the
    race-mode reorder puts every boss entrance in its front block; and in
    race mode, once a nested entrance leads to a dungeon exit, no dungeon or
    boss exit is a candidate for another nested entrance. *)
Theorem nested_entrances_share_an_island (sel : Selection) (rng : Rng) (l : Locals)
    (zone_entrance : ZoneEntrance) :
  (∀ e1 e2, is_nested e1 = true → is_nested e2 = true → island_name e1 = island_name e2)
  ∧ (include_bosses sel = true →
     let shuffled := (rng_shuffle (relevant_entrances_of sel) rng).1 in
     let front := filter (not_on_unique_island shuffled) shuffled in
     (∃ rest, island_grouping shuffled = Return (front ++ rest))
     ∧ ∀ b, b ∈ BOSS_ENTRANCES → b ∈ front)
  ∧ (race_mode (options (l_self l)) = true →
     is_nested zone_entrance = true →
     Exists (λ p, is_nested p.1 = true ∧ p.2 ∈ DUNGEON_EXITS) (done_entrances_to_exits l) →
     Forall (λ x, x ∉ DUNGEON_EXITS ++ BOSS_EXITS)
       (possible_remaining_exits l zone_entrance)).
Proof.
  split_and!.
  - apply nested_same_island.
  - intros Hb shuffled front. split.
    + eexists. apply island_grouping_Return.
    + intros b Hin. pose proof (rng_shuffle_Permutation (relevant_entrances_of sel) rng) as Hp.
      fold shuffled in Hp. apply list_elem_of_filter. split.
      * apply boss_entrances_share; [|done]. intros b' Hb'. rewrite Hp.
        by apply boss_entrances_relevant.
      * rewrite Hp. by apply boss_entrances_relevant.
  - intros Hrace Hn (p & Hp & Hpn & Hpd)%Exists_exists. apply Forall_forall. intros x Hx.
    destruct (possible_race l zone_entrance x Hrace Hx p Hp) as [H1 H2]; [|done|].
    + by apply nested_same_island.
    + rewrite elem_of_app. tauto.
Qed.

(** A state in race mode where a boss entrance already leads to a dungeon. *)
Definition race_state_with_nested_dungeon : Locals :=
  mkLocals
    (mkRandomizer (mkOptions true false false false false "Nested Dungeons") false false
       [] [] [] [] [])
    false None
    [nested_entrance "kindan" 16 0 1 "Boss Entrance in Forbidden Woods"]
    [dungeon_exit "kaze" 15 0 15 "Wind Temple" "Wind Temple" "kazeB";
     plain_exit "M_DragB" 0 0 0 "Gohma Boss Arena" "Gohma Boss Arena";
     plain_exit "Cave02" 0 0 0 "Star Island" "Star Island Secret Cave"]
    [(nested_entrance "M_NewD2" 10 1 27 "Boss Entrance in Dragon Roost Cavern",
      dungeon_exit "kindan" 0 0 0 "Forbidden Woods" "Forbidden Woods" "kinBOSS")]
    [(dungeon_exit "kindan" 0 0 0 "Forbidden Woods" "Forbidden Woods" "kinBOSS",
      nested_entrance "M_NewD2" 10 1 27 "Boss Entrance in Dragon Roost Cavern")].

Lemma nested_entrances_share_an_island_witness :
  (nested_entrance "kaze" 12 0 27 "Boss Entrance in Wind Temple"
   ∈ filter (not_on_unique_island (rng_shuffle (relevant_entrances_of all_three) [3; 1]).1)
       (rng_shuffle (relevant_entrances_of all_three) [3; 1]).1)
  ∧ Forall (λ x, x ∉ DUNGEON_EXITS ++ BOSS_EXITS)
      (possible_remaining_exits race_state_with_nested_dungeon
         (nested_entrance "kindan" 16 0 1 "Boss Entrance in Forbidden Woods")).
Proof.
  destruct (nested_entrances_share_an_island all_three [3; 1]
              race_state_with_nested_dungeon
              (nested_entrance "kindan" 16 0 1 "Boss Entrance in Forbidden Woods"))
    as (_ & H2 & H3).
  split.
  - apply (H2 eq_refl). by_compute.
  - apply H3; [reflexivity|reflexivity|by_compute].
Defined.

(** ** Resolution of placed entrances (C5) *)

Lemma walk_functional d e pre pre' a last :
  walk d e pre a → walk d e pre' last → is_nested last = false →
  ∃ suffix, pre' ++ [last] = pre ++ suffix ∧ walk d a (removelast suffix) last
            ∧ head suffix = Some a.
Proof.
  intros Hw. revert pre'. induction Hw as [e|e x e' pre e'' Hn Hx Hd Hw IH];
    intros pre' Hw' Hl.
  - exists (pre' ++ [last]). split_and!; [done|by rewrite removelast_last|].
    by eapply walk_head.
  - inversion Hw' as [?|? x' e2 pre2 ? Hn' Hx' Hd' Hw2]; subst; [congruence|].
    rewrite Hx in Hx'. injection Hx' as <-. rewrite Hd in Hd'. injection Hd' as <-.
    destruct (IH _ Hw2 Hl) as (suffix & Heq & Hws & Hh).
    exists suffix. simpl. by rewrite Heq.
Qed.

(** An entrance is blocked when the dungeon exit it is reached from is not
    connected yet. *)
Definition blocked (d : list (ZoneExit * ZoneEntrance)) (e : ZoneEntrance) : Prop :=
  is_nested e = true
  ∧ ∃ x, get_dungeon_start_exit_leading_to_nested_entrance e = Return x ∧ dict_get x d = None.

Lemma resolves_not_blocked_walk d e c pre a :
  resolves d e c → walk d e pre a → ¬ blocked d a.
Proof.
  intros (pre' & last & -> & Hw' & Hl & Hnd) Hw (Hn & x & Hx & Hd).
  destruct (walk_functional _ _ _ _ _ _ Hw Hw' Hl) as (suffix & _ & Hws & Hh).
  inversion Hws; subst; [congruence|]. congruence.
Qed.

Lemma resolves_walk_NoDup d e c pre a :
  resolves d e c → walk d e pre a → NoDup (pre ++ [a]) ∧ pre ++ [a] ⊆ c.
Proof.
  intros (pre' & last & -> & Hw' & Hl & Hnd) Hw.
  destruct (walk_functional _ _ _ _ _ _ Hw Hw' Hl) as (suffix & Heq & Hws & Hh).
  destruct suffix as [|a' suffix]; [done|]. simpl in Hh. simplify_eq.
  rewrite Heq in *. rewrite (cons_middle a pre suffix), (assoc_L (++)) in Hnd |- *.
  split.
  - by apply NoDup_app in Hnd as (? & _).
  - intros y Hy. apply elem_of_app. auto.
Qed.

Lemma walk_end d e pre a :
  walk d e pre a → a = e ∨ ∃ x, dict_get x d = Some a.
Proof. induction 1 as [|e x e' pre e'' Hn Hx Hd Hw [->|?]]; eauto. Qed.

Lemma walk_elements d e pre a b :
  walk d e pre a → b ∈ pre → b = e ∨ ∃ x, dict_get x d = Some b.
Proof.
  induction 1 as [|e x e' pre e'' Hn Hx Hd Hw IH]; intros Hb.
  - by apply elem_of_nil in Hb.
  - apply elem_of_cons in Hb as [->|Hb]; [auto|].
    destruct (IH Hb) as [->|?]; eauto.
Qed.

(** The three outcomes of chain resolution on catalog entrances. *)
Definition chain_outcome (d : list (ZoneExit * ZoneEntrance)) (ze : ZoneEntrance) : Prop :=
  (∃ pre last,
      get_all_entrances_on_path_to_entrance ze d = Return (Some (pre ++ [last]))
      ∧ NoDup (pre ++ [last]) ∧ head (pre ++ [last]) = Some ze
      ∧ walk d ze pre last
      ∧ Forall (λ e, is_nested e = true) pre ∧ island_name last ≠ None)
  ∨ (get_all_entrances_on_path_to_entrance ze d = Return None
     ∧ ∃ pre a, walk d ze pre a ∧ blocked d a)
  ∨ (∃ pre a,
      get_all_entrances_on_path_to_entrance ze d
      = Raise (Exception (infinite_loop_msg pre))
      ∧ walk d ze pre a ∧ a ∈ pre).

Lemma chain_outcome_catalog d ze :
  ze ∈ ALL_ENTRANCES → Forall (λ p, p.2 ∈ ALL_ENTRANCES) d → chain_outcome d ze.
Proof.
  intros Hze Hd. unfold chain_outcome.
  pose proof (path_loop_fuel d ze) as Hfuel.
  pose proof (path_loop_sound d path_fuel [] ze) as H.
  unfold get_all_entrances_on_path_to_entrance in *.
  destruct (path_loop path_fuel [] ze d) as [[c|]|e|]; simpl in H; [| | |done].
  - left. destruct H as (pre & last & -> & Hw & Hl & Hnd).
    assert (Hnested := walk_nested _ _ _ _ Hw).
    exists pre, last. split_and!; try done.
    + apply NoDup_app. split_and!; [apply Hnd, NoDup_nil_2| |apply NoDup_singleton].
      intros a Ha Ha'%list_elem_of_singleton. subst a.
      by apply (nested_last_not_in pre last).
    + by eapply walk_head.
    + unfold is_nested in Hl. by destruct (island_name last).
  - right; left. destruct H as (pre & a & x & Hw & Ha & _ & Hx & Hdx).
    split; [done|]. exists pre, a. split; [done|]. split; eauto.
  - right; right. destruct H as (pre & a & Hw & Ha & _ & [[Hin ->]|[_ Hx]]).
    + exists pre, a. done.
    + exfalso. assert (Hcat : a ∈ ALL_ENTRANCES).
      { destruct (walk_end _ _ _ _ Hw) as [->|[x Hx']]; [done|].
        apply dict_get_Some_elem_of in Hx'.
        by eapply (proj1 (Forall_forall _ _)) in Hd; [|exact Hx']. }
      destruct (boss_entrances_start_exit a) as [y Hy]; [|congruence].
      by apply nested_catalog_entrances.
Qed.

Section resolution.
Context (self : Randomizer) (sel : Selection) (l0 l : Locals).
Context (Hinv : loop_inv self sel l0 l).

Lemma inv_connected x e :
  dict_get x (done_exits_to_entrances l) = Some e →
  e ∈ (done_entrances_to_exits l).*1 ∧ x ∈ (done_entrances_to_exits l).*2.
Proof.
  rewrite (inv_inverse _ _ _ _ Hinv). intros Hin%dict_get_Some_elem_of.
  apply list_elem_of_fmap in Hin as ([e' x'] & [= -> ->] & Hin).
  split; apply list_elem_of_fmap; by exists (e', x').
Qed.

Lemma inv_not_connected x :
  x ∉ (done_entrances_to_exits l).*2 → dict_get x (done_exits_to_entrances l) = None.
Proof.
  intros Hx. apply dict_get_None. by rewrite (inv_inverse _ _ _ _ Hinv), fst_swap_snd.
Qed.

Lemma inv_values_catalog : Forall (λ p, p.2 ∈ ALL_ENTRANCES) (done_exits_to_entrances l).
Proof.
  apply Forall_forall. intros [x e] Hin. simpl.
  apply (inv_done_catalog self sel l0 l Hinv).
  rewrite (inv_inverse _ _ _ _ Hinv) in Hin.
  apply list_elem_of_fmap in Hin as ([e' x'] & [= -> ->] & Hin).
  apply list_elem_of_fmap. by exists (e', x').
Qed.

(** A placed entrance resolves to an entrance with an island. *)
Lemma placed_resolves e :
  e ∈ (done_entrances_to_exits l).*1 →
  ∃ c o, get_all_entrances_on_path_to_entrance e (done_exits_to_entrances l)
           = Return (Some c)
         ∧ get_outermost_entrance_for_entrance e (done_exits_to_entrances l)
           = Return (Some o)
         ∧ head c = Some e ∧ last c = Some o ∧ island_name o ≠ None.
Proof.
  intros He. destruct (inv_resolved _ _ _ _ Hinv e He) as [c Hres].
  destruct (resolves_outermost _ _ _ Hres) as (o & Ho & Hl & Hn).
  exists c, o. split_and!; try done.
  - by apply resolves_iff.
  - destruct Hres as (pre & last & -> & Hw & _). by eapply walk_head.
  - unfold is_nested in Hn. by destruct (island_name o).
Qed.

(** For an entrance still in the queue, resolution either completes or
    is incomplete because the entrance itself is blocked. *)
Lemma pending_resolution ze :
  ze ∈ relevant_entrances l →
  (∃ o, get_outermost_entrance_for_entrance ze (done_exits_to_entrances l)
        = Return (Some o))
  ∨ (get_outermost_entrance_for_entrance ze (done_exits_to_entrances l) = Return None
     ∧ ze ∈ BOSS_ENTRANCES ∧ blocked (done_exits_to_entrances l) ze).
Proof.
  intros Hq. set (d := done_exits_to_entrances l).
  assert (Hcat : ze ∈ ALL_ENTRANCES) by by eapply inv_queue_catalog.
  assert (Hfresh : ze ∉ (done_entrances_to_exits l).*1).
  { pose proof (inv_NoDup_entrances _ _ _ _ Hinv) as Hnd.
    apply NoDup_app in Hnd as (_ & Hdisj & _). intros Hin. by apply (Hdisj _ Hin). }
  assert (Hstep : ∀ pre a, walk d ze pre a → pre ≠ [] →
            ∃ e1 c1 pre1, pre = ze :: pre1 ∧ e1 ∈ (done_entrances_to_exits l).*1
                          ∧ resolves d e1 c1 ∧ walk d e1 pre1 a).
  { intros pre a Hw Hne. inversion Hw as [|? x e1 pre1 ? Hn Hx Hd Hw1]; subst; [done|].
    destruct (inv_connected _ _ Hd) as [He1 _].
    destruct (inv_resolved _ _ _ _ Hinv e1 He1) as [c1 Hres]. eauto 10. }
  destruct (chain_outcome_catalog d ze Hcat inv_values_catalog)
    as [(pre & last & Hc & _)|[(Hc & pre & a & Hw & Hb)|(pre & a & Hc & Hw & Hin)]].
  - left. apply resolves_iff, resolves_outermost in Hc as (o & Ho & _). eauto.
  - right. unfold get_outermost_entrance_for_entrance. fold d. rewrite Hc. simpl.
    split; [done|]. destruct pre as [|p pre].
    + inversion Hw; subst. split; [|done].
      apply nested_catalog_entrances; [done|]. by destruct Hb.
    + destruct (Hstep _ _ Hw) as (e1 & c1 & pre1 & _ & _ & Hres & Hw1); [done|].
      by destruct (resolves_not_blocked_walk _ _ _ _ _ Hres Hw1).
  - exfalso. destruct (Hstep _ _ Hw) as (e1 & c1 & pre1 & -> & He1 & Hres & Hw1).
    { intros ->. by apply elem_of_nil in Hin. }
    destruct (resolves_walk_NoDup _ _ _ _ _ Hres Hw1) as [Hnd Hsub].
    apply elem_of_cons in Hin as [->|Hin].
    + apply Hfresh. assert (Hze : ze ∈ c1) by (apply Hsub, elem_of_app; right; by left).
      destruct Hres as (pre' & last & -> & Hw' & _).
      apply elem_of_app in Hze as [Hze|Hze%list_elem_of_singleton].
      * destruct (walk_elements _ _ _ _ _ Hw' Hze) as [->|[x Hx]]; [done|].
        by destruct (inv_connected _ _ Hx).
      * subst. destruct (walk_end _ _ _ _ Hw') as [->|[x Hx]]; [done|].
        by destruct (inv_connected _ _ Hx).
    + apply NoDup_app in Hnd as (_ & Hdisj & _). apply (Hdisj _ Hin). by left.
Qed.
End resolution.

(** The run of [plain_randomizer] over all three categories, to the end. *)
Definition complete_run : Locals :=
  Eval vm_compute in
    match loop_result 931 plain_randomizer all_three with
    | Some (l, _) => l
    | None => mkLocals plain_randomizer false None [] [] [] []
    end.

(** C5: on catalog entrances, chain resolution either returns a
    duplicate-free chain from the entrance to one with an island (all the
    others being nested), or returns [None] at a nested entrance whose
    dungeon exit is not connected, or raises the infinite-loop exception when
    an entrance of the chain reappears; after a completed loop it returns a
    complete chain, ending at an entrance with an island, for every placed
    entrance. *)
Theorem chain_resolution :
  (∀ ze d, ze ∈ ALL_ENTRANCES → Forall (λ p, p.2 ∈ ALL_ENTRANCES) d → chain_outcome d ze)
  ∧ (∀ fuel self sel l e,
       loop_result fuel self sel = Some (l, Return tt) →
       e ∈ (done_entrances_to_exits l).*1 →
       ∃ c o, get_all_entrances_on_path_to_entrance e (done_exits_to_entrances l)
                = Return (Some c)
              ∧ get_outermost_entrance_for_entrance e (done_exits_to_entrances l)
                = Return (Some o)
              ∧ head c = Some e ∧ last c = Some o ∧ island_name o ≠ None).
Proof.
  split.
  - intros ze d. apply chain_outcome_catalog.
  - intros fuel self sel l e (l0 & _ & _ & Hinv & _)%loop_result_inv He.
    by eapply placed_resolves.
Qed.

Lemma chain_resolution_witness :
  chain_outcome
    [(dungeon_exit "kindan" 0 0 0 "Forbidden Woods" "Forbidden Woods" "kinBOSS",
      island_entrance "Ekaze" 0 0 1 "Dungeon Entrance on Gale Isle" "Gale Isle" "sea" 4 232)]
    (nested_entrance "kindan" 16 0 1 "Boss Entrance in Forbidden Woods")
  ∧ ∃ c o,
      get_all_entrances_on_path_to_entrance
        (nested_entrance "kaze" 12 0 27 "Boss Entrance in Wind Temple")
        (done_exits_to_entrances complete_run) = Return (Some c)
      ∧ get_outermost_entrance_for_entrance
          (nested_entrance "kaze" 12 0 27 "Boss Entrance in Wind Temple")
          (done_exits_to_entrances complete_run) = Return (Some o)
      ∧ head c = Some (nested_entrance "kaze" 12 0 27 "Boss Entrance in Wind Temple")
      ∧ last c = Some o ∧ island_name o ≠ None.
Proof.
  destruct chain_resolution as [H1 H2]. split.
  - apply H1; by_compute.
  - apply (H2 931 plain_randomizer all_three complete_run).
    + vm_compute. reflexivity.
    + by_compute.
Defined.

(** ** Termination of the loop (C7) *)

(** The selections [randomize_entrances] makes: boss entrances only
    together with the dungeons they are reached from. *)
Definition valid_selection (sel : Selection) : Prop :=
  include_bosses sel = true → include_dungeons sel = true.

Lemma nested_relevant sel e :
  e ∈ relevant_entrances_of sel → is_nested e = true → include_bosses sel = true.
Proof.
  destruct (include_bosses sel) eqn:Hb; [done|]. intros He Hn. exfalso.
  unfold relevant_entrances_of in He. rewrite Hb in He. simpl in He.
  assert (H : Forall (λ e, is_nested e = false) (DUNGEON_ENTRANCES ++ SECRET_CAVE_ENTRANCES))
    by by_compute.
  assert (Hin : e ∈ DUNGEON_ENTRANCES ++ SECRET_CAVE_ENTRANCES).
  { apply elem_of_app in He as [He|He]; apply elem_of_app.
    - destruct (include_dungeons sel); [auto|by apply elem_of_nil in He].
    - destruct (include_caves sel); [auto|by apply elem_of_nil in He]. }
  eapply (proj1 (Forall_forall _ _)) in H; [|exact Hin]. simpl in H. congruence.
Qed.

Lemma dungeon_exits_relevant sel x :
  include_dungeons sel = true → x ∈ DUNGEON_EXITS → x ∈ relevant_exits_of sel.
Proof. intros Hd Hx. unfold relevant_exits_of. rewrite Hd, !elem_of_app. auto. Qed.

Lemma boss_exits_relevant sel x :
  include_bosses sel = true → x ∈ BOSS_EXITS → x ∈ relevant_exits_of sel.
Proof. intros Hd Hx. unfold relevant_exits_of. rewrite Hd, !elem_of_app. auto. Qed.

Lemma start_exit_of_inj e1 e2 :
  e1 ∈ BOSS_ENTRANCES → e2 ∈ BOSS_ENTRANCES → start_exit_of e1 = start_exit_of e2 → e1 = e2.
Proof.
  intros H1 H2 Heq.
  apply list_elem_of_lookup in H1 as [i Hi]. apply list_elem_of_lookup in H2 as [j Hj].
  assert (i = j); [|by simplify_eq].
  eapply (NoDup_lookup _ _ _ _ start_exits_NoDup); rewrite list_lookup_fmap.
  - by rewrite Hi.
  - by rewrite Hj, Heq.
Qed.

Section progress.
Context (self : Randomizer) (sel : Selection) (l0 l : Locals).
Context (Hinv : loop_inv self sel l0 l) (Hvalid : valid_selection sel).

Lemma inv_same_length : length (relevant_entrances l) = length (remaining_exits l).
Proof.
  pose proof (Permutation_length (inv_entrances _ _ _ _ Hinv)) as H1.
  pose proof (Permutation_length (inv_exits _ _ _ _ Hinv)) as H2.
  rewrite length_app in H1, H2. rewrite length_fmap in H1. rewrite length_fmap in H2.
  pose proof (relevant_same_length sel). lia.
Qed.

(** The entrances of the queue cannot all be blocked. *)
Lemma not_all_blocked :
  relevant_entrances l ≠ [] →
  ¬ Forall (blocked (done_exits_to_entrances l)) (relevant_entrances l).
Proof.
  intros Hne Hall. set (q := relevant_entrances l) in *.
  assert (Hboss : ∀ e, e ∈ q → e ∈ BOSS_ENTRANCES).
  { intros e He. apply nested_catalog_entrances; [by eapply inv_queue_catalog|].
    eapply (proj1 (Forall_forall _ _)) in Hall as [? _]; done. }
  assert (Hb : include_bosses sel = true).
  { destruct q as [|e q'] eqn:Hq; [done|].
    apply (nested_relevant sel e).
    - rewrite <-(inv_entrances _ _ _ _ Hinv). fold q. rewrite Hq.
      apply elem_of_app. right. by left.
    - apply boss_entrances_nested, Hboss. by left. }
  assert (Hd := Hvalid Hb).
  assert (Hsub : ∀ o, o ∈ start_exit_of <$> q → o ∈ Some <$> remaining_exits l).
  { intros o (e & -> & He)%list_elem_of_fmap.
    eapply (proj1 (Forall_forall _ _)) in Hall as (_ & x & Hx & Hdx); [|exact He].
    unfold start_exit_of. rewrite Hx. apply list_elem_of_fmap_2.
    assert (Hrel : x ∈ relevant_exits_of sel).
    { apply dungeon_exits_relevant; [done|]. by eapply start_exit_is_dungeon_exit. }
    rewrite <-(inv_exits _ _ _ _ Hinv) in Hrel.
    apply elem_of_app in Hrel as [Hrel|Hrel]; [|done].
    apply dict_get_None in Hdx.
    by rewrite (inv_inverse _ _ _ _ Hinv), fst_swap_snd in Hdx. }
  assert (Hnd : NoDup (start_exit_of <$> q)).
  { apply NoDup_fmap_2_strong.
    - intros e1 e2 H1 H2. apply start_exit_of_inj; auto.
    - pose proof (inv_NoDup_entrances _ _ _ _ Hinv) as H.
      by apply NoDup_app in H as (_ & _ & H). }
  assert (Hperm : start_exit_of <$> q ≡ₚ Some <$> remaining_exits l).
  { apply submseteq_length_Permutation.
    - by apply NoDup_submseteq.
    - rewrite !length_fmap. unfold q. by rewrite inv_same_length. }
  assert (Hdungeon : ∀ y, y ∈ remaining_exits l → y ∈ DUNGEON_EXITS).
  { intros y Hy. apply (list_elem_of_fmap_2 Some) in Hy. rewrite <-Hperm in Hy.
    apply list_elem_of_fmap in Hy as (e & Hy & He). unfold start_exit_of in Hy.
    destruct (get_dungeon_start_exit_leading_to_nested_entrance e) as [x| |] eqn:Hx;
      [|done..].
    injection Hy as ->. by eapply start_exit_is_dungeon_exit. }
  assert (Hy : ∃ y, y ∈ remaining_exits l).
  { destruct (remaining_exits l) as [|y rem] eqn:Hrem; [|exists y; by left].
    pose proof inv_same_length as Hlen. rewrite Hrem in Hlen. fold q in Hlen.
    by destruct q. }
  destruct Hy as [y Hy].
  set (b := plain_exit "M_DragB" 0 0 0 "Gohma Boss Arena" "Gohma Boss Arena").
  assert (Hbb : b ∈ BOSS_EXITS) by by_compute.
  assert (Hrel : b ∈ relevant_exits_of sel) by by apply boss_exits_relevant.
  rewrite <-(inv_exits _ _ _ _ Hinv) in Hrel.
  apply elem_of_app in Hrel as [Hrel|Hrel].
  - eapply (inv_boss _ _ _ _ Hinv); [eauto|exact Hy|by apply Hdungeon].
  - by apply (boss_exits_not_dungeon b), Hdungeon.
Qed.

(** What an iteration does, given the invariant. *)
Lemma loop_body_cases :
  match loop_body l with
  | Finished => relevant_entrances l = []
  | Failed e => ∃ ze, e = Exception (no_valid_exits_msg ze)
  | Stuck => False
  | Next l' =>
      ∃ ze rest, relevant_entrances l = ze :: rest
        ∧ ((relevant_entrances l' = rest ++ [ze]
            ∧ done_exits_to_entrances l' = done_exits_to_entrances l
            ∧ ze ∈ BOSS_ENTRANCES ∧ blocked (done_exits_to_entrances l) ze)
           ∨ relevant_entrances l' = rest)
  end.
Proof.
  destruct (loop_body l) as [|e| |l'] eqn:Hb.
  - by apply loop_body_Finished.
  - unfold loop_body in Hb.
    destruct (relevant_entrances l) as [|ze rest] eqn:Hq; [done|].
    destruct (pending_resolution _ _ _ _ Hinv ze) as [[o Ho]|[Ho _]];
      [rewrite Hq; by left|..]; rewrite Ho in Hb; [|done].
    destruct (possible_remaining_exits l ze) as [|c cs] eqn:Hp.
    { injection Hb as <-. eauto. }
    destruct (rng_choice_nonempty (c :: cs) (rng (l_self l))) as (zx & rng' & Hc);
      [done|]. rewrite Hc in Hb.
    assert (Hzx : zx ∈ remaining_exits l).
    { apply (possible_subset l ze). rewrite Hp. by eapply rng_choice_Return. }
    destruct (list_remove_elem_of _ _ Hzx) as [rem Hr]. by rewrite Hr in Hb.
  - unfold loop_body in Hb.
    destruct (relevant_entrances l) as [|ze rest] eqn:Hq; [done|].
    destruct (pending_resolution _ _ _ _ Hinv ze) as [[o Ho]|[Ho _]];
      [rewrite Hq; by left|..]; rewrite Ho in Hb; [|done].
    destruct (possible_remaining_exits l ze) as [|c cs] eqn:Hp; [done|].
    destruct (rng_choice_nonempty (c :: cs) (rng (l_self l))) as (zx & rng' & Hc);
      [done|]. rewrite Hc in Hb.
    assert (Hzx : zx ∈ remaining_exits l).
    { apply (possible_subset l ze). rewrite Hp. by eapply rng_choice_Return. }
    destruct (list_remove_elem_of _ _ Hzx) as [rem Hr]. by rewrite Hr in Hb.
  - apply loop_body_Next in Hb as [ze rest Hq Ho|ze rest o zx rng' rem Hq Ho Hc Hr].
    + exists ze, rest. split; [done|]. left. simpl. split_and!; [done..| |].
      * destruct (pending_resolution _ _ _ _ Hinv ze) as [[o Ho']|(_ & ? & _)];
          [rewrite Hq; by left|congruence|done].
      * destruct (pending_resolution _ _ _ _ Hinv ze) as [[o Ho']|(_ & _ & ?)];
          [rewrite Hq; by left|congruence|done].
    + exists ze, rest. split; [done|]. by right.
Qed.
End progress.

(** Enough fuel for a queue of [n] entrances of which the first [a] have
    not been looked at since the last pairing. *)
Definition fuel_for (n a : nat) : nat := n * n + a + 1.

Definition loop_fuel (sel : Selection) : nat :=
  fuel_for (length (relevant_entrances_of sel)) (length (relevant_entrances_of sel)).

Lemma main_loop_enough_fuel self sel l0 (Hvalid : valid_selection sel) fuel :
  ∀ l A B,
    loop_inv self sel l0 l →
    relevant_entrances l = A ++ B →
    Forall (blocked (done_exits_to_entrances l)) B →
    fuel_for (length (relevant_entrances l)) (length A) ≤ fuel →
    (main_loop fuel l).2 ≠ OutOfFuel.
Proof.
  unfold fuel_for. induction fuel as [|fuel IH]; intros l A B Hinv Hq HB Hfuel; [lia|].
  simpl. pose proof (loop_body_cases self sel l0 l Hinv) as Hcases.
  pose proof (loop_inv_step self sel l0 l Hinv) as Hstep.
  destruct (loop_body l) as [|e| |l'] eqn:Hb; try done.
  specialize (Hstep l' (loop_body_Next _ _ Hb)).
  destruct Hcases as (ze & rest & Hq' & [(Hq1 & Hd & _ & Hblocked)|Hq1]).
  - destruct A as [|a A].
    { exfalso. simpl in Hq. apply (not_all_blocked self sel l0 l Hinv Hvalid).
      - by rewrite Hq'.
      - by rewrite Hq. }
    rewrite Hq in Hq'. injection Hq' as Ha Hrest. subst a rest.
    apply (IH l' A (B ++ [ze])); [done|..].
    + by rewrite Hq1, (assoc_L (++)).
    + rewrite Hd. apply Forall_app. split; [done|]. by constructor.
    + rewrite Hq1, Hq in *. rewrite !length_app in *. simpl in *. lia.
  - apply (IH l' rest []); [done|by rewrite app_nil_r|by constructor|].
    rewrite Hq1, Hq' in *. simpl in *.
    assert (length A ≤ S (length rest)).
    { apply (f_equal length) in Hq. rewrite length_app in Hq. simpl in Hq. lia. }
    nia.
Qed.

Lemma main_loop_outcome self sel l0 fuel :
  ∀ l l' r, loop_inv self sel l0 l → main_loop fuel l = (l', r) →
    (r = Return tt ∧ relevant_entrances l' = [])
    ∨ (∃ ze, r = Raise (Exception (no_valid_exits_msg ze)))
    ∨ r = OutOfFuel.
Proof.
  induction fuel as [|fuel IH]; intros l l' r Hinv Hm; simpl in Hm.
  { injection Hm as <- <-. auto. }
  pose proof (loop_body_cases self sel l0 l Hinv) as Hcases.
  destruct (loop_body l) as [|e| |l1] eqn:Hb; try done.
  - injection Hm as <- <-. auto.
  - injection Hm as <- <-. destruct Hcases as [ze ->]. eauto.
  - eapply IH; [|done]. eapply loop_inv_step; [done|]. by apply loop_body_Next.
Qed.

Lemma safety_candidates_nonempty self sel q :
  q ≡ₚ relevant_entrances_of sel →
  doing_progress_entrances_for_dungeons_and_caves_only_start self sel = true →
  filter (λ e, entrance_name e ∈ entrance_names_with_no_requirements (options self)) q ≠ [].
Proof.
  intros Hq Hdo.
  assert (∃ e, e ∈ relevant_entrances_of sel
               ∧ entrance_name e ∈ entrance_names_with_no_requirements (options self))
    as (e & He & Hn).
  { unfold doing_progress_entrances_for_dungeons_and_caves_only_start in Hdo.
    apply andb_prop in Hdo as [_ Hdo].
    apply orb_prop in Hdo as [Hdo|Hdo]; apply andb_prop in Hdo as [Hi Hp].
    - exists (island_entrance "Adanmae" 0 2 2 "Dungeon Entrance on Dragon Roost Island"
                "Dragon Roost Island" "sea" 13 211).
      unfold relevant_entrances_of, entrance_names_with_no_requirements.
      rewrite Hi, Hp, !elem_of_app. split; left; by_compute.
    - exists (island_entrance "sea" 12 0 1 "Secret Cave Entrance on Pawprint Isle"
                "Pawprint Isle" "sea" 12 1).
      unfold relevant_entrances_of, entrance_names_with_no_requirements.
      rewrite Hi, Hp, !elem_of_app. split; right; [right|]; by_compute. }
  intros Hnil. eapply (filter_nil_not_elem_of _ _ e Hnil); [done|by rewrite Hq].
Qed.

Lemma prepare_total self sel : ∃ s l0, prepare self sel = (s, Return l0).
Proof.
  unfold prepare.
  destruct (rng_shuffle _ _) as [shuffled rng1] eqn:Hs.
  assert (Hperm : shuffled ≡ₚ relevant_entrances_of sel).
  { pose proof (rng_shuffle_Permutation (relevant_entrances_of sel) (rng self)) as H.
    by rewrite Hs in H. }
  clear Hs. cbn [options rng set_rng].
  assert (Hg : ∃ q, (if race_mode (options self) then island_grouping shuffled
                     else Return shuffled) = Return q ∧ q ≡ₚ relevant_entrances_of sel).
  { destruct (race_mode (options self)).
    - rewrite island_grouping_Return. eexists. split; [done|].
      by rewrite filter_complement_Permutation.
    - eauto. }
  destruct Hg as (q & -> & Hq).
  destruct (doing_progress_entrances_for_dungeons_and_caves_only_start _ sel) eqn:Hdo;
    [|eauto].
  destruct (rng_choice_nonempty _ rng1 (safety_candidates_nonempty self sel q Hq Hdo))
    as (safety & rng2 & Hc).
  rewrite Hc.
  apply rng_choice_Return in Hc. apply list_elem_of_filter in Hc as [_ Hc].
  destruct (list_remove_elem_of _ _ Hc) as [rest ->]. eauto.
Qed.

Lemma loop_body_Failed self sel l0 l e :
  loop_inv self sel l0 l → loop_body l = Failed e →
  ∃ ze rest, relevant_entrances l = ze :: rest
    ∧ e = Exception (no_valid_exits_msg ze)
    ∧ possible_remaining_exits l ze = []
    ∧ ¬ blocked (done_exits_to_entrances l) ze.
Proof.
  intros Hinv Hb. unfold loop_body in Hb.
  destruct (relevant_entrances l) as [|ze rest] eqn:Hq; [done|].
  exists ze, rest.
  destruct (pending_resolution _ _ _ _ Hinv ze) as [[o Ho]|[Ho _]];
    [rewrite Hq; by left|..]; rewrite Ho in Hb; [|done].
  destruct (possible_remaining_exits l ze) as [|c cs] eqn:Hp.
  - injection Hb as <-. split_and!; [done..|].
    intros (Hn & x & Hx & Hd).
    apply outermost_Some in Ho as (c & Hres%resolves_iff & _).
    eapply resolves_not_blocked_walk; [exact Hres|apply walk_here|].
    split; eauto.
  - exfalso.
    destruct (rng_choice_nonempty (c :: cs) (rng (l_self l))) as (zx & rng' & Hc);
      [done|]. rewrite Hc in Hb.
    assert (Hzx : zx ∈ remaining_exits l).
    { apply (possible_subset l ze). rewrite Hp. by eapply rng_choice_Return. }
    destruct (list_remove_elem_of _ _ Hzx) as [rem Hr]. by rewrite Hr in Hb.
Qed.

Lemma main_loop_Failed fuel :
  ∀ l l' e, main_loop fuel l = (l', Raise e) → loop_body l' = Failed e.
Proof.
  induction fuel as [|fuel IH]; intros l l' e; simpl; [done|].
  destruct (loop_body l) as [|e'| |l1] eqn:Hb; try done.
  - by intros [= <- <-].
  - apply IH.
Qed.

Lemma main_loop_more_fuel fuel k :
  ∀ l, (main_loop fuel l).2 ≠ OutOfFuel → main_loop (fuel + k) l = main_loop fuel l.
Proof.
  induction fuel as [|fuel IH]; intros l; simpl; [done|].
  destruct (loop_body l) as [|e| |l1]; try done. apply IH.
Qed.

Lemma main_loop_fuel_agree n m l :
  (main_loop n l).2 ≠ OutOfFuel → (main_loop m l).2 ≠ OutOfFuel →
  main_loop n l = main_loop m l.
Proof.
  intros Hn Hm. destruct (Nat.le_ge_cases n m) as [Hle|Hle].
  - replace m with (n + (m - n)) by lia. symmetry. by apply main_loop_more_fuel.
  - replace n with (m + (n - m)) by lia. by apply main_loop_more_fuel.
Qed.

(** A race-mode run over all three categories that ends with the
    no-valid-exits exception, after 29 pairings. *)
Definition failing_randomizer : Randomizer :=
  mkRandomizer (mkOptions true false false false false
                  "Nested Dungeons & Secret Caves (Together)") false false
    [25; 9; 2; 46; 10; 28; 45; 32; 43; 27; 34; 53; 14; 40; 51; 44; 33; 28; 14; 33;
     41; 1; 25; 43; 36; 51; 20; 42; 40; 27; 3; 47; 19; 8; 13; 56; 3; 19; 4; 54;
     4; 19; 58; 19; 47; 10; 26; 36; 16; 8; 0; 35; 56; 54; 2; 37; 52; 13; 57; 36]
    [] [] [] [].

(** The state the loop of the failing race-mode run starts from, and the
    state it stops in: 29 pairings are made, "Boss Entrance in Dragon Roost
    Cavern" is left in the queue and "Gohdan Boss Arena" among the exits. *)
Definition failing_start : Locals :=
  Eval vm_compute in
    match prepare failing_randomizer all_three with
    | (_, Return l0) => l0
    | _ => mkLocals failing_randomizer false None [] [] [] []
    end.

Definition failing_end : Locals :=
  Eval vm_compute in (main_loop 931 failing_start).1.

Definition nested_dungeons : Selection := mkSelection true true false.

(** The first iteration of a nested-dungeons run: the queue starts with a
    boss entrance. *)
Definition nested_start : Locals :=
  Eval vm_compute in
    match loop_result 0 (mkRandomizer no_options false false [0; 8; 7; 6; 5; 4; 3; 2; 1]
                           [] [] [] []) nested_dungeons with
    | Some (l, _) => l
    | None => mkLocals plain_randomizer false None [] [] [] []
    end.

(** C7, as stated, fails: the selection of all three categories is valid,
    and in race mode the loop can end, after 29 pairings, with the
    no-valid-exits exception for "Boss Entrance in Dragon Roost Cavern",
    which is never placed. *)
Lemma entrance_left_unplaced :
  ¬ (∀ self sel, valid_selection sel →
       ∃ fuel l r, loop_result fuel self sel = Some (l, r) ∧ r ≠ OutOfFuel
                   ∧ ∀ e, e ∈ relevant_entrances_of sel →
                          e ∈ (done_entrances_to_exits l).*1).
Proof.
  intros H.
  destruct (H failing_randomizer all_three) as (fuel & l & r & Hrun & Hr & Hall).
  { by intros _. }
  unfold loop_result in Hrun.
  assert (Hp : (prepare failing_randomizer all_three).2 = Return failing_start)
    by (vm_compute; reflexivity).
  destruct (prepare failing_randomizer all_three) as [s r0]. simpl in Hp. subst r0.
  injection Hrun as Hrun.
  assert (Hend : (main_loop 931 failing_start).1 = failing_end)
    by (vm_compute; reflexivity).
  assert (Hend' : (main_loop 931 failing_start).2 ≠ OutOfFuel).
  { vm_compute. intros Heq. inversion Heq. }
  rewrite <-(main_loop_fuel_agree fuel 931) in Hend; [|by rewrite Hrun|done].
  rewrite Hrun in Hend. simpl in Hend. subst l.
  specialize (Hall (nested_entrance "M_NewD2" 10 1 27
                      "Boss Entrance in Dragon Roost Cavern")).
  revert Hall. apply (bool_decide_unpack _). vm_compute. exact I.
Qed.

(** C7, corrected: for the selections [randomize_entrances] makes, the
    assignment loop ends within [loop_fuel sel] iterations, whatever it
    draws, and further iterations change nothing. It ends either with the
    queue empty and every entrance placed, or with the no-valid-exits
    exception at the entrance at the head of the queue, which is not
    blocked and has no candidate exit left; that entrance and the ones
    behind it are then not placed. An iteration that places nothing moves a
    boss entrance, whose dungeon exit is not connected yet, to the back of
    the queue. *)
Theorem assignment_loop_terminates self sel fuel :
  valid_selection sel → loop_fuel sel ≤ fuel →
  (∃ l0 l r,
      prepared self sel l0 ∧ reachable l0 l
      ∧ loop_result fuel self sel = Some (l, r)
      ∧ (∀ fuel', loop_fuel sel ≤ fuel' →
           loop_result fuel' self sel = Some (l, r))
      ∧ (done_entrances_to_exits l).*1 ++ relevant_entrances l
        ≡ₚ relevant_entrances_of sel
      ∧ ((r = Return tt ∧ relevant_entrances l = []
          ∧ (done_entrances_to_exits l).*1 ≡ₚ relevant_entrances_of sel)
         ∨ ∃ ze rest,
             r = Raise (Exception (no_valid_exits_msg ze))
             ∧ relevant_entrances l = ze :: rest
             ∧ loop_body l = Failed (Exception (no_valid_exits_msg ze))
             ∧ possible_remaining_exits l ze = []
             ∧ ¬ blocked (done_exits_to_entrances l) ze))
  ∧ (∀ n l r l', loop_result n self sel = Some (l, r) → loop_body l = Next l' →
       length (relevant_entrances l') = length (relevant_entrances l) →
       ∃ ze rest, relevant_entrances l = ze :: rest
         ∧ relevant_entrances l' = rest ++ [ze]
         ∧ ze ∈ BOSS_ENTRANCES ∧ is_nested ze = true
         ∧ ∃ x, get_dungeon_start_exit_leading_to_nested_entrance ze = Return x
                ∧ dict_get x (done_exits_to_entrances l) = None).
Proof.
  intros Hvalid Hfuel. split.
  - destruct (prepare_total self sel) as (s & l0 & Hp).
    unfold loop_result. rewrite Hp.
    pose proof (prepare_Return _ _ _ _ Hp) as Hprep.
    pose proof (loop_inv_start _ _ _ Hprep) as Hinv0.
    assert (Henough : ∀ n, loop_fuel sel ≤ n → (main_loop n l0).2 ≠ OutOfFuel).
    { intros n Hn.
      apply (main_loop_enough_fuel self sel l0 Hvalid n l0 (relevant_entrances l0) []);
        [done|by rewrite app_nil_r|by constructor|].
      unfold loop_fuel in Hn. by rewrite (Permutation_length (prep_queue _ _ _ Hprep)). }
    destruct (main_loop fuel l0) as [l r] eqn:Hm. exists l0, l, r.
    pose proof (main_loop_reachable _ _ _ _ Hm) as Hreach.
    pose proof (loop_inv_reachable _ _ _ _ Hprep Hreach) as Hinv.
    split_and!; [done..| | |].
    + intros fuel' Hfuel'. f_equal. rewrite <-Hm.
      apply main_loop_fuel_agree; by apply Henough.
    + apply (inv_entrances _ _ _ _ Hinv).
    + destruct r as [[]|e|].
      * pose proof (proj1 (loop_body_Finished l) (main_loop_Return _ _ _ Hm)) as Hq.
        left. split_and!; [done..|].
        rewrite <-(inv_entrances _ _ _ _ Hinv), Hq. by rewrite app_nil_r.
      * right. pose proof (main_loop_Failed _ _ _ _ Hm) as Hb.
        destruct (loop_body_Failed _ _ _ _ _ Hinv Hb) as (ze & rest & Hq & -> & Hp' & Hnb).
        exists ze, rest. by split_and!.
      * exfalso. apply (Henough fuel Hfuel). by rewrite Hm.
  - intros n l r l' (l0 & _ & _ & Hinv & _)%loop_result_inv Hb Hlen.
    pose proof (loop_body_cases self sel l0 l Hinv) as Hcases. rewrite Hb in Hcases.
    destruct Hcases as (ze & rest & Hq & [(Hq' & _ & Hboss & Hn & Hx)|Hq']).
    + exists ze, rest. split_and!; done.
    + rewrite Hq, Hq' in Hlen. simpl in Hlen. lia.
Qed.

Lemma assignment_loop_terminates_witness :
  (∃ l0 l r,
      prepared failing_randomizer all_three l0 ∧ reachable l0 l
      ∧ loop_result 931 failing_randomizer all_three = Some (l, r)
      ∧ (∀ fuel', loop_fuel all_three ≤ fuel' →
           loop_result fuel' failing_randomizer all_three = Some (l, r))
      ∧ (done_entrances_to_exits l).*1 ++ relevant_entrances l
        ≡ₚ relevant_entrances_of all_three
      ∧ ((r = Return tt ∧ relevant_entrances l = []
          ∧ (done_entrances_to_exits l).*1 ≡ₚ relevant_entrances_of all_three)
         ∨ ∃ ze rest,
             r = Raise (Exception (no_valid_exits_msg ze))
             ∧ relevant_entrances l = ze :: rest
             ∧ loop_body l = Failed (Exception (no_valid_exits_msg ze))
             ∧ possible_remaining_exits l ze = []
             ∧ ¬ blocked (done_exits_to_entrances l) ze))
  ∧ ∃ ze rest, relevant_entrances nested_start = ze :: rest
         ∧ ze ∈ BOSS_ENTRANCES ∧ is_nested ze = true
         ∧ ∃ x, get_dungeon_start_exit_leading_to_nested_entrance ze = Return x
                ∧ dict_get x (done_exits_to_entrances nested_start) = None.
Proof.
  split.
  - destruct (assignment_loop_terminates failing_randomizer all_three 931) as [H1 _].
    + intros _. reflexivity.
    + vm_compute. lia.
    + exact H1.
  - destruct (assignment_loop_terminates
                (mkRandomizer no_options false false [0; 8; 7; 6; 5; 4; 3; 2; 1] [] [] [] [])
                nested_dungeons 200) as [_ H2].
    + intros _. reflexivity.
    + vm_compute. lia.
    + destruct (H2 0 nested_start OutOfFuel
                  (match loop_body nested_start with Next l' => l' | _ => nested_start end))
        as (ze & rest & Hq & _ & Hrest).
      * vm_compute. reflexivity.
      * vm_compute. reflexivity.
      * vm_compute. reflexivity.
      * eauto.
Defined.

(** ** After the loop *)

(** What the steps after the loop leave alone. *)
Definition same_settings (s s' : Randomizer) : Prop :=
  options s' = options s ∧ dry_run s' = dry_run s ∧ rng s' = rng s
  ∧ entrance_connections s' = entrance_connections s.

Lemma same_settings_refl s : same_settings s s.
Proof. by repeat split. Qed.

Lemma same_settings_trans s1 s2 s3 :
  same_settings s1 s2 → same_settings s2 s3 → same_settings s1 s3.
Proof. unfold same_settings. intros (?&?&?&?) (?&?&?&?). split_and!; congruence. Qed.

(** The boss arena paired with a dungeon exit (lines 320-323). *)
Definition paired_boss_exit (dungeon_exit : ZoneExit) : option ZoneExit :=
  snd <$> list_find (λ zone_exit, Some (x_stage_name zone_exit) = boss_stage_name dungeon_exit)
            BOSS_EXITS.

Section after_loop.
Context (d : list (ZoneExit * ZoneEntrance)).

Lemma attribute_exits_spec items : ∀ self,
  (∀ x e, (x, e) ∈ items → ∃ o, get_outermost_entrance_for_exit x d = Return (Some o)) →
  ∃ self', attribute_exits items d self = (self', Return tt)
    ∧ same_settings self self'
    ∧ nested_entrance_paths self' = nested_entrance_paths self
    ∧ (dry_run self = true → stage_calls self' = stage_calls self)
    ∧ (∀ k, k ∉ zone_name <$> items.*1 →
            dict_get k (dungeon_and_cave_island_locations self')
            = dict_get k (dungeon_and_cave_island_locations self))
    ∧ (NoDup (zone_name <$> items.*1) →
       ∀ x e, (x, e) ∈ items →
         ∃ o, get_outermost_entrance_for_exit x d = Return (Some o)
              ∧ dict_get (zone_name x) (dungeon_and_cave_island_locations self')
                = Some (island_name o)).
Proof.
  induction items as [|[x e] items IH]; intros self Hres.
  - exists self. simpl. split_and!; auto using same_settings_refl.
    intros _ ? ? []%elem_of_nil.
  - destruct (Hres x e) as [o Ho]; [by left|]. simpl. rewrite Ho.
    match goal with
    | |- context [attribute_exits items d ?s] => set (self2 := s)
    end.
    destruct (IH self2) as (self' & -> & Hs & Hp & Hc & Hk & Hv).
    { intros x' e' Hin. apply (Hres x' e'). by right. }
    assert (Hs2 : same_settings self self2
                  ∧ nested_entrance_paths self2 = nested_entrance_paths self
                  ∧ dungeon_and_cave_island_locations self2
                    = dict_set (zone_name x) (island_name o)
                        (dungeon_and_cave_island_locations self)
                  ∧ (dry_run self = true → stage_calls self2 = stage_calls self)).
    { subst self2. simpl. destruct (dry_run self) eqn:Hdry; simpl.
      - by split_and!; [repeat split|..].
      - split_and!; [by repeat split|done..]. }
    destruct Hs2 as (Hs2 & Hp2 & Hi2 & Hc2).
    exists self'. split_and!; [done|by eapply same_settings_trans|congruence|..].
    + intros Hdry. rewrite Hc, Hc2; [done..|]. destruct Hs2 as (_ & -> & _). done.
    + intros k Hk'. rewrite ?fmap_cons in Hk'. simpl in Hk'.
      apply not_elem_of_cons in Hk' as [Hne Hk'].
      rewrite Hk, Hi2 by done. by rewrite dict_get_set_ne.
    + rewrite ?fmap_cons. simpl. intros [Hx Hnd]%NoDup_cons x' e' Hin.
      apply elem_of_cons in Hin as [[= -> ->]|Hin].
      * exists o. split; [done|]. rewrite Hk, Hi2 by done. apply dict_get_set_eq.
      * by apply (Hv Hnd x' e').
Qed.

Lemma warp_out_of_bosses_spec xs : ∀ self,
  (∀ x, x ∈ xs → ∃ o, get_outermost_entrance_for_exit x d = Return (Some o)) →
  ∃ self', warp_out_of_bosses xs d self = (self', Return tt)
    ∧ same_settings self self'
    ∧ nested_entrance_paths self' = nested_entrance_paths self
    ∧ dungeon_and_cave_island_locations self' = dungeon_and_cave_island_locations self
    ∧ (dry_run self = true → stage_calls self' = stage_calls self).
Proof.
  induction xs as [|x xs IH]; intros self Hres.
  - exists self. simpl. split_and!; auto using same_settings_refl.
  - simpl. destruct (dry_run self) eqn:Hdry.
    + destruct (IH self) as (self' & -> & ?); [intros; apply Hres; by right|].
      exists self'. split_and!; tauto.
    + destruct (Hres x) as [o ->]; [by left|].
      destruct (IH (call_stage (update_boss_warp_out_destination
                                  (Some (x_stage_name x)) o) self))
        as (self' & -> & Hs & Hp & Hi & Hc); [intros; apply Hres; by right|].
      exists self'. split_and!; [done| |done|done|done].
      eapply same_settings_trans; [|exact Hs]. by repeat split.
Qed.

Lemma warp_out_of_dungeons_spec xs : ∀ self,
  (∀ x, x ∈ xs → is_Some (dict_get x d) ∧ is_Some (paired_boss_exit x)) →
  ∃ self', warp_out_of_dungeons xs d self = (self', Return tt)
    ∧ same_settings self self'
    ∧ nested_entrance_paths self' = nested_entrance_paths self
    ∧ (dry_run self = true → stage_calls self' = stage_calls self)
    ∧ (∀ k, Some k ∉ fmap zone_name <$> (paired_boss_exit <$> xs) →
            dict_get k (dungeon_and_cave_island_locations self')
            = dict_get k (dungeon_and_cave_island_locations self))
    ∧ (NoDup (fmap zone_name <$> (paired_boss_exit <$> xs)) →
       ∀ x, x ∈ xs →
         ∃ e b, dict_get x d = Some e ∧ paired_boss_exit x = Some b
                ∧ dict_get (zone_name b) (dungeon_and_cave_island_locations self')
                  = Some (island_name e)).
Proof.
  induction xs as [|x xs IH]; intros self Hres.
  - exists self. simpl. split_and!; auto using same_settings_refl.
    intros _ ? []%elem_of_nil.
  - destruct (Hres x) as [[e He] [b Hb]]; [by left|]. cbn [warp_out_of_dungeons].
    unfold dict_index. rewrite He. cbn beta iota. unfold paired_boss_exit in Hb.
    destruct (list_find _ BOSS_EXITS) as [[i b']|] eqn:Hfind; [|done].
    cbn in Hb. injection Hb as ->.
    match goal with
    | |- context [warp_out_of_dungeons xs d ?s] => set (self2 := s)
    end.
    destruct (IH self2) as (self' & -> & Hs & Hp & Hc & Hk & Hv).
    { intros x' Hin. apply (Hres x'). by right. }
    assert (Hs2 : same_settings self self2
                  ∧ nested_entrance_paths self2 = nested_entrance_paths self
                  ∧ dungeon_and_cave_island_locations self2
                    = dict_set (zone_name b) (island_name e)
                        (dungeon_and_cave_island_locations self)
                  ∧ (dry_run self = true → stage_calls self2 = stage_calls self)).
    { subst self2. destruct (dry_run self) eqn:Hdry; simpl.
      - by split_and!; [repeat split|..].
      - split_and!; [by repeat split|done..]. }
    destruct Hs2 as (Hs2 & Hp2 & Hi2 & Hc2).
    assert (Hpb : paired_boss_exit x = Some b)
      by (unfold paired_boss_exit; by rewrite Hfind).
    exists self'. split_and!; [done|by eapply same_settings_trans|congruence|..].
    + intros Hdry. rewrite Hc, Hc2; [done..|]. destruct Hs2 as (_ & -> & _). done.
    + intros k Hk'. rewrite ?fmap_cons in Hk'. simpl in Hk'. rewrite Hpb in Hk'. simpl in Hk'.
      apply not_elem_of_cons in Hk' as [Hne Hk'].
      rewrite Hk, Hi2 by done. rewrite dict_get_set_ne; [done|congruence].
    + rewrite ?fmap_cons. simpl. rewrite Hpb. simpl. intros [Hx Hnd]%NoDup_cons x' Hin.
      apply elem_of_cons in Hin as [->|Hin].
      * exists e, b. split_and!; [done..|]. rewrite Hk, Hi2 by done.
        apply dict_get_set_eq.
      * by apply (Hv Hnd x').
Qed.

Lemma nested_paths_spec xs : ∀ self,
  (∀ x, x ∈ xs → ∃ e c, dict_get x d = Some e
                        ∧ get_all_entrances_on_path_to_entrance e d = Return (Some c)) →
  ∃ self', nested_paths xs d self = (self', Return tt)
    ∧ same_settings self self'
    ∧ dungeon_and_cave_island_locations self' = dungeon_and_cave_island_locations self
    ∧ stage_calls self' = stage_calls self.
Proof.
  induction xs as [|x xs IH]; intros self Hres.
  - exists self. simpl. split_and!; auto using same_settings_refl.
  - destruct (Hres x) as (e & c & He & Hc); [by left|]. simpl.
    unfold dict_index. rewrite He, Hc.
    destruct (IH (set_nested_entrance_paths
                    (nested_entrance_paths self
                     ++ [reverse (unique_name x :: (entrance_name <$> c))]) self))
      as (self' & -> & Hs & Hi & Hcalls); [intros; apply Hres; by right|].
    exists self'. split_and!; [done| |done|done].
    eapply same_settings_trans; [|exact Hs]. by repeat split.
Qed.
End after_loop.

Lemma relevant_zone_names_NoDup sel : NoDup (zone_name <$> relevant_exits_of sel).
Proof.
  assert (H : Forall (λ sel, NoDup (zone_name <$> relevant_exits_of sel)) all_selections)
    by by_compute.
  eapply (proj1 (Forall_forall _ _)) in H; [done|apply all_selections_complete].
Qed.

Lemma dungeon_exits_paired x : x ∈ DUNGEON_EXITS → is_Some (paired_boss_exit x).
Proof. revert x. apply Forall_forall. by_compute. Qed.

Lemma paired_zone_names_NoDup :
  NoDup (fmap zone_name <$> (paired_boss_exit <$> DUNGEON_EXITS)).
Proof. by_compute. Qed.

Lemma paired_zone_names_fresh sel x :
  include_bosses sel = false → x ∈ relevant_exits_of sel →
  Some (zone_name x) ∉ fmap zone_name <$> (paired_boss_exit <$> DUNGEON_EXITS).
Proof.
  intros Hb. revert x. apply Forall_forall.
  destruct sel as [[] [] []]; try discriminate; by_compute.
Qed.

Section finish.
Context (self : Randomizer) (sel : Selection) (l0 l : Locals).
Context (Hinv : loop_inv self sel l0 l) (Hdone : relevant_entrances l = []).

Let d := done_exits_to_entrances l.

Lemma finished_keys : d.*1 ≡ₚ relevant_exits_of sel.
Proof.
  subst d. rewrite (inv_inverse _ _ _ _ Hinv), fst_swap_snd.
  rewrite <-(inv_exits _ _ _ _ Hinv).
  pose proof (inv_same_length _ _ _ _ Hinv) as Hlen. rewrite Hdone in Hlen.
  destruct (remaining_exits l); [by rewrite app_nil_r|done].
Qed.

Lemma finished_keys_NoDup : NoDup d.*1.
Proof. rewrite finished_keys. apply relevant_exits_NoDup. Qed.

Lemma finished_item x e :
  (x, e) ∈ d →
  dict_get x d = Some e
  ∧ ∃ c o, get_all_entrances_on_path_to_entrance e d = Return (Some c)
           ∧ get_outermost_entrance_for_exit x d = Return (Some o)
           ∧ get_outermost_entrance_for_entrance e d = Return (Some o)
           ∧ island_name o ≠ None.
Proof.
  intros Hin. assert (Hget : dict_get x d = Some e).
  { apply dict_get_elem_of; [apply finished_keys_NoDup|done]. }
  split; [done|].
  destruct (inv_connected _ _ _ _ Hinv x e Hget) as [He _].
  destruct (placed_resolves _ _ _ _ Hinv e He) as (c & o & Hc & Ho & _ & _ & Hi).
  exists c, o. split_and!; try done.
  unfold get_outermost_entrance_for_exit, dict_index. fold d. by rewrite Hget.
Qed.

Lemma finished_exit x :
  x ∈ relevant_exits_of sel → ∃ e, (x, e) ∈ d.
Proof.
  rewrite <-finished_keys. intros ([x' e] & -> & Hin)%list_elem_of_fmap. eauto.
Qed.

Lemma finish_spec :
  ∃ self', finish sel l = (self', Return tt)
    ∧ same_settings (l_self l) self'
    ∧ (dry_run self = true → stage_calls self' = stage_calls self)
    ∧ (∀ x, x ∈ relevant_exits_of sel →
         ∃ e o, dict_get x d = Some e
                ∧ get_outermost_entrance_for_exit x d = Return (Some o)
                ∧ island_name o ≠ None
                ∧ dict_get (zone_name x) (dungeon_and_cave_island_locations self')
                  = Some (island_name o))
    ∧ (include_dungeons sel = true → include_bosses sel = false →
       ∀ dx, dx ∈ DUNGEON_EXITS →
         ∃ e b, dict_get dx d = Some e ∧ paired_boss_exit dx = Some b
                ∧ dict_get (zone_name b) (dungeon_and_cave_island_locations self')
                  = Some (island_name e)).
Proof.
  unfold finish. fold d.
  destruct (attribute_exits_spec d d (l_self l)) as (s1 & -> & Hs1 & _ & Hc1 & _ & Hv1).
  { intros x e (_ & c & o & _ & Ho & _)%finished_item. eauto. }
  cbn [and_then].
  assert (Hnd : NoDup (zone_name <$> d.*1)).
  { rewrite finished_keys. apply relevant_zone_names_NoDup. }
  specialize (Hv1 Hnd).
  assert (Hdry1 : dry_run self = true → stage_calls s1 = stage_calls self).
  { intros Hdry. rewrite Hc1; [apply (inv_calls _ _ _ _ Hinv)|].
    by rewrite (inv_dry_run _ _ _ _ Hinv). }
  assert (Hdry_s1 : dry_run s1 = dry_run self).
  { destruct Hs1 as (_ & -> & _). apply (inv_dry_run _ _ _ _ Hinv). }
  assert (Hisl1 : ∀ x, x ∈ relevant_exits_of sel →
            ∃ e o, dict_get x d = Some e
                   ∧ get_outermost_entrance_for_exit x d = Return (Some o)
                   ∧ island_name o ≠ None
                   ∧ dict_get (zone_name x) (dungeon_and_cave_island_locations s1)
                     = Some (island_name o)).
  { intros x [e Hin]%finished_exit.
    destruct (finished_item _ _ Hin) as (Hget & c & o & _ & Ho & _ & Hi).
    destruct (Hv1 x e Hin) as (o' & Ho' & Hd'). rewrite Ho in Ho'. injection Ho' as <-.
    eauto 10. }
  destruct (include_bosses sel) eqn:Hb.
  - destruct (warp_out_of_bosses_spec d BOSS_EXITS s1) as (s2 & -> & Hs2 & _ & Hi2 & Hc2).
    { intros x Hx. destruct (finished_exit x) as [e Hin]; [by apply boss_exits_relevant|].
      destruct (finished_item _ _ Hin) as (_ & c & o & _ & Ho & _). eauto. }
    cbn [and_then].
    destruct (nested_paths_spec d (filter (λ ex, ex ∉ DUNGEON_EXITS) (relevant_exits_of sel))
                (set_nested_entrance_paths [] s2)) as (s3 & -> & Hs3 & Hi3 & Hc3).
    { intros x [_ Hx]%list_elem_of_filter. destruct (finished_exit x Hx) as [e Hin].
      destruct (finished_item _ _ Hin) as (Hget & c & o & Hc & _). eauto. }
    exists s3. split_and!; [done| | | |done].
    + eapply same_settings_trans; [exact Hs1|].
      eapply same_settings_trans; [exact Hs2|].
      eapply same_settings_trans; [|exact Hs3]. by repeat split.
    + intros Hdry. rewrite Hc3. simpl. rewrite Hc2; [by apply Hdry1|congruence].
    + intros x Hx. rewrite Hi3. simpl. rewrite Hi2. by apply Hisl1.
  - destruct (include_dungeons sel) eqn:Hd.
    + destruct (warp_out_of_dungeons_spec d DUNGEON_EXITS s1)
        as (s2 & -> & Hs2 & _ & Hc2 & Hk2 & Hv2).
      { intros x Hx. split; [|by apply dungeon_exits_paired].
        destruct (finished_exit x) as [e Hin]; [by apply dungeon_exits_relevant|].
        destruct (finished_item _ _ Hin) as (Hget & _). by rewrite Hget. }
      cbn [and_then]. exists s2. split_and!; [done| | | |].
      * by eapply same_settings_trans.
      * intros Hdry. rewrite Hc2; [by apply Hdry1|congruence].
      * intros x Hx. rewrite Hk2; [by apply Hisl1|].
        by apply (paired_zone_names_fresh sel).
      * intros _ _ dx Hdx. by apply (Hv2 paired_zone_names_NoDup).
    + cbn [and_then]. exists s1. split_and!; [done..|]. intros [=].
Qed.
End finish.

Lemma run_Return fuel self sel self' :
  randomize_one_set_of_entrances fuel self sel = (self', Return tt) →
  ∃ l, loop_result fuel self sel = Some (l, Return tt)
       ∧ finish sel l = (self', Return tt).
Proof.
  unfold randomize_one_set_of_entrances, loop_result.
  destruct (prepare self sel) as [s [l0|e|]]; try done.
  destruct (main_loop fuel l0) as [l [[]|e|]]; try done. eauto.
Qed.

(** ** The completed mapping (C1) *)

(** C1: when [randomize_one_set_of_entrances] returns, the recorded
    connections pair the selected entrances with the selected exits one to
    one: each selected entrance has exactly one exit, each selected exit is
    the exit of exactly one entrance, and there are as many of the ones as
    of the others. *)
Theorem connections_bijection fuel self sel self' :
  randomize_one_set_of_entrances fuel self sel = (self', Return tt) →
  ∃ l, loop_result fuel self sel = Some (l, Return tt)
    ∧ (done_entrances_to_exits l).*1 ≡ₚ relevant_entrances_of sel
    ∧ (done_entrances_to_exits l).*2 ≡ₚ relevant_exits_of sel
    ∧ NoDup (done_entrances_to_exits l).*1
    ∧ NoDup (done_entrances_to_exits l).*2
    ∧ length (relevant_entrances_of sel) = length (relevant_exits_of sel)
    ∧ done_exits_to_entrances l = prod_swap <$> done_entrances_to_exits l
    ∧ (∀ e, e ∈ relevant_entrances_of sel →
         ∃ x, dict_get e (done_entrances_to_exits l) = Some x ∧ x ∈ relevant_exits_of sel
              ∧ dict_get (entrance_name e) (entrance_connections self')
                = Some (unique_name x))
    ∧ (∀ x, x ∈ relevant_exits_of sel →
         ∃ e, dict_get x (done_exits_to_entrances l) = Some e ∧ e ∈ relevant_entrances_of sel
              ∧ dict_get e (done_entrances_to_exits l) = Some x).
Proof.
  intros (l & Hrun & Hfin)%run_Return. exists l. split; [done|].
  pose proof Hrun as (l0 & Hprep & _ & Hinv & Hm)%loop_result_inv.
  pose proof (proj1 (loop_body_Finished l) (main_loop_Return _ _ _ Hm)) as Hq.
  destruct (finish_spec _ _ _ _ Hinv Hq) as (s & Hfin' & Hs & _).
  rewrite Hfin in Hfin'. injection Hfin' as <-.
  pose proof (inv_entrances _ _ _ _ Hinv) as He. rewrite Hq, app_nil_r in He.
  pose proof (finished_keys _ _ _ _ Hinv Hq) as Hx.
  rewrite (inv_inverse _ _ _ _ Hinv), fst_swap_snd in Hx.
  assert (Hnde : NoDup (done_entrances_to_exits l).*1)
    by (rewrite He; apply relevant_entrances_NoDup).
  assert (Hndx : NoDup (done_entrances_to_exits l).*2)
    by (rewrite Hx; apply relevant_exits_NoDup).
  split_and!; try done.
  - apply relevant_same_length.
  - apply (inv_inverse _ _ _ _ Hinv).
  - intros e Hin. rewrite <-He in Hin.
    apply list_elem_of_fmap in Hin as ([e' x] & -> & Hin). exists x. split_and!.
    + by apply dict_get_elem_of.
    + rewrite <-Hx. apply list_elem_of_fmap. by exists (e', x).
    + destruct Hs as (_ & _ & _ & ->). by apply (inv_connections _ _ _ _ Hinv).
  - intros x Hin. rewrite <-Hx in Hin.
    apply list_elem_of_fmap in Hin as ([e x'] & -> & Hin). exists e. split_and!.
    + rewrite (inv_inverse _ _ _ _ Hinv). apply dict_get_elem_of.
      * by rewrite fst_swap_snd.
      * apply list_elem_of_fmap. by exists (e, x').
    + rewrite <-He. apply list_elem_of_fmap. by exists (e, x').
    + by apply dict_get_elem_of.
Qed.

(** The randomizer after a complete run of [plain_randomizer] over all
    three categories. *)
Definition after_complete_run : Randomizer :=
  Eval vm_compute in (randomize_one_set_of_entrances 931 plain_randomizer all_three).1.

Lemma connections_bijection_witness :
  ∃ l, loop_result 931 plain_randomizer all_three = Some (l, Return tt)
    ∧ (done_entrances_to_exits l).*1 ≡ₚ relevant_entrances_of all_three
    ∧ (done_entrances_to_exits l).*2 ≡ₚ relevant_exits_of all_three
    ∧ NoDup (done_entrances_to_exits l).*1
    ∧ NoDup (done_entrances_to_exits l).*2
    ∧ length (relevant_entrances_of all_three) = length (relevant_exits_of all_three)
    ∧ done_exits_to_entrances l = prod_swap <$> done_entrances_to_exits l
    ∧ (∀ e, e ∈ relevant_entrances_of all_three →
         ∃ x, dict_get e (done_entrances_to_exits l) = Some x
              ∧ x ∈ relevant_exits_of all_three
              ∧ dict_get (entrance_name e) (entrance_connections after_complete_run)
                = Some (unique_name x))
    ∧ (∀ x, x ∈ relevant_exits_of all_three →
         ∃ e, dict_get x (done_exits_to_entrances l) = Some e
              ∧ e ∈ relevant_entrances_of all_three
              ∧ dict_get e (done_entrances_to_exits l) = Some x).
Proof.
  apply (connections_bijection 931 plain_randomizer all_three after_complete_run).
  vm_compute. reflexivity.
Defined.

(** ** Calls into the stage data (C6) *)

(** C6: a call that does not return normally has made no call into the
    stage data, and neither has a dry run; calls are made only once the
    loop has ended with every entrance placed. *)
Theorem no_stage_calls_on_failure fuel self sel self' r :
  randomize_one_set_of_entrances fuel self sel = (self', r) →
  (r ≠ Return tt → stage_calls self' = stage_calls self)
  ∧ (dry_run self = true → stage_calls self' = stage_calls self)
  ∧ (stage_calls self' ≠ stage_calls self →
     ∃ l, loop_result fuel self sel = Some (l, Return tt)
          ∧ relevant_entrances l = []
          ∧ (done_entrances_to_exits l).*1 ≡ₚ relevant_entrances_of sel).
Proof.
  unfold randomize_one_set_of_entrances, loop_result.
  destruct (prepare_total self sel) as (s & l0 & Hp). rewrite Hp.
  pose proof (prepare_Return _ _ _ _ Hp) as Hprep.
  destruct (main_loop fuel l0) as [l r1] eqn:Hm.
  pose proof (loop_inv_reachable _ _ _ _ Hprep (main_loop_reachable _ _ _ _ Hm)) as Hinv.
  destruct r1 as [[]|e|].
  - pose proof (proj1 (loop_body_Finished l) (main_loop_Return _ _ _ Hm)) as Hq.
    destruct (finish_spec _ _ _ _ Hinv Hq) as (s' & -> & _ & Hdry & _).
    intros [= <- <-]. split_and!; [done|done|]. intros _. exists l. split_and!; [done..|].
    rewrite <-(inv_entrances _ _ _ _ Hinv), Hq. by rewrite app_nil_r.
  - intros [= <- <-]. pose proof (inv_calls _ _ _ _ Hinv). split_and!; done.
  - intros [= <- <-]. pose proof (inv_calls _ _ _ _ Hinv). split_and!; done.
Qed.

Definition after_failing_run : Randomizer :=
  Eval vm_compute in (randomize_one_set_of_entrances 931 failing_randomizer all_three).1.

Lemma no_stage_calls_on_failure_witness :
  randomize_one_set_of_entrances 931 failing_randomizer all_three
  = (after_failing_run,
     Raise (Exception
       "No valid exits to place for entrance: Boss Entrance in Dragon Roost Cavern"))
  ∧ stage_calls after_failing_run = stage_calls failing_randomizer.
Proof.
  assert (Hrun : randomize_one_set_of_entrances 931 failing_randomizer all_three
    = (after_failing_run,
       Raise (Exception
         "No valid exits to place for entrance: Boss Entrance in Dragon Roost Cavern")))
    by (vm_compute; reflexivity).
  split; [exact Hrun|].
  destruct (no_stage_calls_on_failure 931 failing_randomizer all_three after_failing_run _ Hrun)
    as (Hfail & _ & _).
  apply Hfail. intros Heq. inversion Heq.
Defined.

(** ** Island attribution (C8) *)

(** C8: after a call that returns, every selected exit is placed and its
    zone name is attributed the island of its outermost entrance; and when
    dungeons are selected without bosses, the zone of each dungeon exit's
    paired boss arena is attributed the island of the dungeon's entrance. *)
Theorem island_attribution fuel self sel self' :
  randomize_one_set_of_entrances fuel self sel = (self', Return tt) →
  ∃ l, loop_result fuel self sel = Some (l, Return tt)
    ∧ (∀ x, x ∈ relevant_exits_of sel →
         ∃ e o, dict_get x (done_exits_to_entrances l) = Some e
                ∧ get_outermost_entrance_for_exit x (done_exits_to_entrances l)
                  = Return (Some o)
                ∧ island_name o ≠ None
                ∧ dict_get (zone_name x) (dungeon_and_cave_island_locations self')
                  = Some (island_name o))
    ∧ (include_dungeons sel = true → include_bosses sel = false →
       ∀ dx, dx ∈ DUNGEON_EXITS →
         ∃ e b, dict_get dx (done_exits_to_entrances l) = Some e
                ∧ get_outermost_entrance_for_exit dx (done_exits_to_entrances l)
                  = Return (Some e)
                ∧ b ∈ BOSS_EXITS ∧ Some (x_stage_name b) = boss_stage_name dx
                ∧ dict_get (zone_name b) (dungeon_and_cave_island_locations self')
                  = Some (island_name e)).
Proof.
  intros (l & Hrun & Hfin)%run_Return. exists l. split; [done|].
  pose proof Hrun as (l0 & Hprep & _ & Hinv & Hm)%loop_result_inv.
  pose proof (proj1 (loop_body_Finished l) (main_loop_Return _ _ _ Hm)) as Hq.
  destruct (finish_spec _ _ _ _ Hinv Hq) as (s & Hfin' & _ & _ & Hexits & Hboss).
  rewrite Hfin in Hfin'. injection Hfin' as <-. split; [done|].
  intros Hd Hb dx Hdx. destruct (Hboss Hd Hb dx Hdx) as (e & b & He & Hpair & Hisl).
  exists e, b. split_and!; [done| | | |done].
  - destruct (inv_connected _ _ _ _ Hinv dx e He) as [Hin _].
    assert (Hcat : e ∈ relevant_entrances_of sel).
    { rewrite <-(inv_entrances _ _ _ _ Hinv). apply elem_of_app. auto. }
    assert (Hn : is_nested e = false).
    { destruct (is_nested e) eqn:Hn; [|done].
      pose proof (nested_relevant sel e Hcat Hn). congruence. }
    unfold get_outermost_entrance_for_exit, dict_index. rewrite He. simpl.
    unfold get_outermost_entrance_for_entrance, get_all_entrances_on_path_to_entrance.
    rewrite path_loop_unfold, Hn. simpl. done.
  - unfold paired_boss_exit in Hpair.
    destruct (list_find _ BOSS_EXITS) as [[i b']|] eqn:Hfind; [|done].
    injection Hpair as ->. apply list_find_Some in Hfind as (Hl & _).
    by eapply list_elem_of_lookup_2.
  - unfold paired_boss_exit in Hpair.
    destruct (list_find _ BOSS_EXITS) as [[i b']|] eqn:Hfind; [|done].
    injection Hpair as ->. by apply list_find_Some in Hfind as (_ & ? & _).
Qed.

Definition after_dungeons_run : Randomizer :=
  Eval vm_compute in (randomize_one_set_of_entrances 931 plain_randomizer dungeons_only).1.

Lemma island_attribution_witness :
  ∃ l, loop_result 931 plain_randomizer dungeons_only = Some (l, Return tt)
    ∧ (∀ x, x ∈ relevant_exits_of dungeons_only →
         ∃ e o, dict_get x (done_exits_to_entrances l) = Some e
                ∧ get_outermost_entrance_for_exit x (done_exits_to_entrances l)
                  = Return (Some o)
                ∧ island_name o ≠ None
                ∧ dict_get (zone_name x)
                    (dungeon_and_cave_island_locations after_dungeons_run)
                  = Some (island_name o))
    ∧ (include_dungeons dungeons_only = true → include_bosses dungeons_only = false →
       ∀ dx, dx ∈ DUNGEON_EXITS →
         ∃ e b, dict_get dx (done_exits_to_entrances l) = Some e
                ∧ get_outermost_entrance_for_exit dx (done_exits_to_entrances l)
                  = Return (Some e)
                ∧ b ∈ BOSS_EXITS ∧ Some (x_stage_name b) = boss_stage_name dx
                ∧ dict_get (zone_name b)
                    (dungeon_and_cave_island_locations after_dungeons_run)
                  = Some (island_name e)).
Proof.
  apply (island_attribution 931 plain_randomizer dungeons_only after_dungeons_run).
  vm_compute. reflexivity.
Defined.

(** ** Race mode: one dungeon per island (C4) *)

Definition front_like (sel : Selection) (safety : option ZoneEntrance) (e : ZoneEntrance)
    : Prop :=
  shares_island sel e ∨ Some e = safety.

(** The islands that carry more than one entrance of the catalog ([None]
    standing for the nested entrances). *)
Definition shared_islands : list (option string) :=
  [None; Some "Dragon Roost Island"%string; Some "Pawprint Isle"%string].

Lemma shares_island_catalog sel e :
  shares_island sel e → not_on_unique_island ALL_ENTRANCES e.
Proof.
  unfold shares_island, not_on_unique_island. rewrite !Exists_exists.
  intros (o & Ho & ?). exists o. split; [|done]. by eapply relevant_entrances_catalog.
Qed.

Lemma shares_island_islands sel e :
  e ∈ ALL_ENTRANCES → shares_island sel e → island_name e ∈ shared_islands.
Proof.
  intros He Hs%shares_island_catalog. revert e He Hs.
  apply (Forall_forall (λ e, not_on_unique_island ALL_ENTRANCES e
                             → island_name e ∈ shared_islands)).
  by_compute.
Qed.

Lemma nested_shares_island sel e :
  e ∈ relevant_entrances_of sel → is_nested e = true → shares_island sel e.
Proof.
  intros He Hn. apply boss_entrances_share.
  - intros b Hb. apply boss_entrances_relevant; [|done]. by eapply nested_relevant.
  - apply nested_catalog_entrances; [|done]. by eapply relevant_entrances_catalog.
Qed.

Lemma no_boss_exits_without_bosses sel x :
  include_bosses sel = false → x ∈ relevant_exits_of sel → x ∉ BOSS_EXITS.
Proof.
  intros Hb. revert x. apply Forall_forall.
  destruct sel as [[] [] []]; try discriminate; by_compute.
Qed.

Lemma NoDup_fmap_eq {A B} (f : A → B) (l : list A) a b :
  NoDup (f <$> l) → a ∈ l → b ∈ l → f a = f b → a = b.
Proof.
  intros Hnd [i Hi]%list_elem_of_lookup [j Hj]%list_elem_of_lookup Heq.
  assert (i = j); [|by simplify_eq].
  eapply (NoDup_lookup _ _ _ _ Hnd); rewrite list_lookup_fmap.
  - by rewrite Hi.
  - by rewrite Hj, Heq.
Qed.

(** The shape of the queue in race mode: entrances of the front block,
    then the others, then the deferred boss entrances; and no boss exit on
    an island entrance that shares its island. *)
Record race_inv (sel : Selection) (l : Locals) : Prop := {
  race_queue :
    ∃ X Y B, relevant_entrances l = X ++ Y ++ B
      ∧ Forall (front_like sel (safety_entrance l)) X
      ∧ Forall (λ e, ¬ shares_island sel e) Y
      ∧ Forall (λ e, is_nested e = true) B
      ∧ (X ≠ [] → ∀ p, p ∈ (done_entrances_to_exits l).*1 →
                       front_like sel (safety_entrance l) p);
  race_no_boss :
    ∀ e x, (e, x) ∈ done_entrances_to_exits l → shares_island sel e →
           is_nested e = false → x ∉ BOSS_EXITS;
}.

Section race.
Context (self : Randomizer) (sel : Selection) (l0 : Locals).
Context (Hrace : race_mode (options self) = true).
Context (Hdungeons : include_dungeons sel = true).

Lemma race_inv_start : prepared self sel l0 → race_inv sel l0.
Proof.
  intros Hp. split.
  - destruct (prep_front _ _ _ Hp Hrace) as (front & rest & Hq & Hf & Hr).
    exists front, rest, []. rewrite app_nil_r. split_and!; [done..|by constructor|].
    rewrite (prep_done _ _ _ Hp). intros _ p []%elem_of_nil.
  - rewrite (prep_done _ _ _ Hp). intros e x []%elem_of_nil.
Qed.

(** While an island entrance of the front block is being placed, some
    dungeon exit is still unplaced. *)
Lemma dungeon_exit_left l :
  loop_inv self sel l0 l →
  (∀ p, p ∈ (done_entrances_to_exits l).*1 → front_like sel (safety_entrance l) p) →
  ∃ y, y ∈ remaining_exits l ∧ y ∈ DUNGEON_EXITS.
Proof.
  intros Hinv Hfront.
  destruct (decide (Exists (λ y, y ∈ DUNGEON_EXITS) (remaining_exits l))) as [Hex|Hnex].
  { apply Exists_exists in Hex. naive_solver. }
  exfalso.
  set (E := dungeon_leading (done_entrances_to_exits l)).
  assert (Hlen : length DUNGEON_EXITS ≤ length E).
  { unfold E, dungeon_leading. rewrite length_fmap.
    rewrite <-(length_fmap snd). apply submseteq_length, NoDup_submseteq.
    - apply NoDup_DUNGEON_EXITS.
    - intros dx Hdx.
      assert (Hrel : dx ∈ relevant_exits_of sel) by by apply dungeon_exits_relevant.
      rewrite <-(inv_exits _ _ _ _ Hinv) in Hrel.
      apply elem_of_app in Hrel as [Hrel|Hrel].
      + apply list_elem_of_fmap in Hrel as ([e x] & -> & Hin).
        apply list_elem_of_fmap. exists (e, x). split; [done|].
        by apply list_elem_of_filter.
      + exfalso. apply Hnex, Exists_exists. eauto. }
  assert (Hsub : ∀ i, i ∈ island_name <$> E →
            i ∈ shared_islands ++ [from_option island_name None (safety_entrance l)]).
  { intros i (e & -> & He)%list_elem_of_fmap. unfold E, dungeon_leading in He.
    apply list_elem_of_fmap in He as ([e' x] & -> & [_ Hin]%list_elem_of_filter).
    assert (Hdone : e' ∈ (done_entrances_to_exits l).*1).
    { apply list_elem_of_fmap. by exists (e', x). }
    cbn [fst]. apply elem_of_app. destruct (Hfront e' Hdone) as [Hs|Hs].
    - left. eapply shares_island_islands; [|done].
      by eapply (inv_done_catalog self sel l0 l).
    - right. rewrite <-Hs. apply list_elem_of_singleton. done. }
  pose proof (inv_race _ _ _ _ Hinv Hrace) as Hnd. fold E in Hnd.
  apply NoDup_submseteq in Hsub; [|done]. apply submseteq_length in Hsub.
  rewrite length_fmap, length_app in Hsub. cbn [length shared_islands] in Hsub.
  cbn [length DUNGEON_EXITS] in Hlen. lia.
Qed.

Lemma race_inv_step l l' :
  loop_inv self sel l0 l → race_inv sel l → loop_step l l' → race_inv sel l'.
Proof.
  intros Hinv [(X & Y & B & Hq & HX & HY & HB & Hflag) Hk] Hstep.
  pose proof (loop_inv_step _ _ _ _ Hinv _ Hstep) as Hinv'.
  destruct Hstep as [ze rest Hq' Ho|ze rest o zx rng' rem Hq' Ho Hc Hr].
  - assert (Hn : is_nested ze = true).
    { destruct (pending_resolution _ _ _ _ Hinv ze) as [[o Ho']|(_ & _ & Hn & _)];
        [rewrite Hq'; by left|congruence|done]. }
    split; simpl; [|done].
    rewrite Hq in Hq'. destruct X as [|a X]; [destruct Y as [|a Y]|].
    + exists [], [], (rest ++ [ze]). simpl in *. destruct B as [|a B]; [done|].
      injection Hq' as -> ->. apply Forall_cons in HB as [_ HB].
      split_and!; [done|by constructor|by constructor| |done].
      apply Forall_app. split; [done|]. by constructor.
    + simpl in Hq'. injection Hq' as -> <-. apply Forall_cons in HY as [_ HY].
      exists [], Y, (B ++ [ze]). simpl. split_and!;
        [by rewrite (assoc_L (++))|by constructor|done| |done].
      apply Forall_app. split; [done|]. by constructor.
    + simpl in Hq'. injection Hq' as -> <-. apply Forall_cons in HX as [_ HX].
      exists X, Y, (B ++ [ze]). split_and!;
        [by rewrite <-!(assoc_L (++))|done|done| |].
      * apply Forall_app. split; [done|]. by constructor.
      * intros _. by apply Hflag.
  - pose proof (rng_choice_Return _ _ _ _ Hc) as Hzx.
    assert (Hfresh : ze ∉ (done_entrances_to_exits l).*1).
    { pose proof (inv_NoDup_entrances _ _ _ _ Hinv) as Hnd. rewrite Hq' in Hnd.
      apply NoDup_app in Hnd as (_ & Hdisj & _). intros Hin.
      apply (Hdisj _ Hin). by left. }
    assert (Hdone' : dict_set ze zx (done_entrances_to_exits l)
                     = done_entrances_to_exits l ++ [(ze, zx)])
      by by apply dict_set_fresh.
    split; simpl; rewrite Hdone'.
    + rewrite Hq in Hq'. destruct X as [|a X]; [destruct Y as [|a Y]|].
      * exists [], [], rest. simpl in *. destruct B as [|a B]; [done|].
        injection Hq' as -> ->. apply Forall_cons in HB as [_ HB].
        split_and!; [done|by constructor|by constructor|done|done].
      * simpl in Hq'. injection Hq' as -> <-. apply Forall_cons in HY as [_ HY].
        exists [], Y, B. split_and!; [done|by constructor|done|done|done].
      * simpl in Hq'. injection Hq' as -> <-. apply Forall_cons in HX as [Hze HX].
        exists X, Y, B. split_and!; [done..|].
        intros _ p. rewrite fmap_app.
        intros [Hp|Hp%list_elem_of_singleton]%elem_of_app; [|by subst p].
        by apply Hflag.
    + intros e x [Hin|Hin%list_elem_of_singleton]%elem_of_app; [by apply Hk|].
      injection Hin as -> ->. intros Hs Hn Hboss.
      rewrite Hq in Hq'. destruct X as [|a X].
      { destruct Y as [|a Y]; simpl in Hq'.
        - destruct B as [|a B]; [done|]. injection Hq' as -> ->.
          apply Forall_cons in HB as [HB _]. congruence.
        - injection Hq' as -> <-. by apply Forall_cons in HY as [HY _]. }
      destruct (dungeon_exit_left l Hinv) as (y & Hy & Hyd); [by apply Hflag|].
      by apply (possible_boss _ _ _ Hzx Hboss y).
Qed.

Lemma race_inv_reachable l :
  prepared self sel l0 → reachable l0 l → race_inv sel l.
Proof.
  intros Hp. induction 1 as [|l l' Hr IH Hb].
  - by apply race_inv_start.
  - eapply race_inv_step; [by apply loop_inv_reachable|done|by apply loop_body_Next].
Qed.
End race.

(** A placed nested entrance has its dungeon exit among the selected exits. *)
Lemma placed_nested_needs_dungeons self sel l0 l e :
  loop_inv self sel l0 l → e ∈ (done_entrances_to_exits l).*1 → is_nested e = true →
  include_dungeons sel = true.
Proof.
  intros Hinv He Hn.
  destruct (inv_resolved _ _ _ _ Hinv e He) as (c & pre & last & -> & Hw & Hl & _).
  inversion Hw as [|? x e' pre' ? _ Hx Hd Hw']; subst; [congruence|].
  destruct (inv_connected _ _ _ _ Hinv x e' Hd) as [_ Hin].
  assert (Hrel : x ∈ relevant_exits_of sel).
  { rewrite <-(inv_exits _ _ _ _ Hinv). apply elem_of_app. auto. }
  apply start_exit_is_dungeon_exit in Hx.
  destruct (include_dungeons sel) eqn:Hd'; [done|]. exfalso.
  clear Hd Hin Hw. revert x Hrel Hx.
  apply (Forall_forall (λ x, x ∈ DUNGEON_EXITS → False)).
  unfold relevant_exits_of. rewrite Hd'.
  destruct (include_bosses sel), (include_caves sel); by_compute.
Qed.

(** C4: in race mode, in the mapping of a completed loop, two distinct
    entrances on the same island are never both connected to a dungeon or
    boss exit. *)
Theorem race_mode_one_dungeon_per_island fuel self sel l e1 x1 e2 x2 island :
  race_mode (options self) = true →
  loop_result fuel self sel = Some (l, Return tt) →
  (e1, x1) ∈ done_entrances_to_exits l → (e2, x2) ∈ done_entrances_to_exits l →
  e1 ≠ e2 → island_name e1 = Some island → island_name e2 = Some island →
  ¬ (x1 ∈ DUNGEON_EXITS ++ BOSS_EXITS ∧ x2 ∈ DUNGEON_EXITS ++ BOSS_EXITS).
Proof.
  intros Hrace Hrun H1 H2 Hne Hi1 Hi2 [Hx1 Hx2].
  pose proof Hrun as (l0 & Hprep & Hreach & Hinv & Hm)%loop_result_inv.
  pose proof (proj1 (loop_body_Finished l) (main_loop_Return _ _ _ Hm)) as Hq.
  pose proof (inv_entrances _ _ _ _ Hinv) as Hall. rewrite Hq, app_nil_r in Hall.
  assert (Hrel : ∀ e x, (e, x) ∈ done_entrances_to_exits l →
            e ∈ relevant_entrances_of sel ∧ x ∈ relevant_exits_of sel).
  { intros e x Hin. split.
    - rewrite <-Hall. apply list_elem_of_fmap. by exists (e, x).
    - rewrite <-(inv_exits _ _ _ _ Hinv). apply elem_of_app. left.
      apply list_elem_of_fmap. by exists (e, x). }
  destruct (Hrel _ _ H1) as [He1 Hr1]. destruct (Hrel _ _ H2) as [He2 Hr2].
  assert (Hs1 : shares_island sel e1).
  { apply Exists_exists. exists e2. split_and!; [done|congruence|done]. }
  assert (Hs2 : shares_island sel e2).
  { apply Exists_exists. exists e1. split_and!; [done|congruence|done]. }
  assert (Hn1 : is_nested e1 = false) by (unfold is_nested; by rewrite Hi1).
  assert (Hn2 : is_nested e2 = false) by (unfold is_nested; by rewrite Hi2).
  assert (Hnoboss : (x1 ∉ BOSS_EXITS) ∧ (x2 ∉ BOSS_EXITS)).
  { destruct (include_bosses sel) eqn:Hb.
    - assert (Hd : include_dungeons sel = true).
      { set (b := nested_entrance "M_NewD2" 10 1 27 "Boss Entrance in Dragon Roost Cavern").
        apply (placed_nested_needs_dungeons self sel l0 l b Hinv); [|done].
        rewrite Hall. apply boss_entrances_relevant; [done|]. by_compute. }
      pose proof (race_inv_reachable self sel l0 Hrace Hd l Hprep Hreach) as [_ Hk].
      split; eauto.
    - split; eapply no_boss_exits_without_bosses; eauto. }
  destruct Hnoboss as [Hb1 Hb2]. rewrite elem_of_app in Hx1, Hx2.
  destruct Hx1 as [Hx1|?]; [|done]. destruct Hx2 as [Hx2|?]; [|done].
  apply Hne. pose proof (inv_race _ _ _ _ Hinv Hrace) as Hnd.
  apply (NoDup_fmap_eq island_name _ e1 e2 Hnd); [| |congruence].
  - apply list_elem_of_fmap. exists (e1, x1). split; [done|]. by apply list_elem_of_filter.
  - apply list_elem_of_fmap. exists (e2, x2). split; [done|]. by apply list_elem_of_filter.
Qed.

(** A complete race-mode run over all three categories. *)
Definition race_randomizer : Randomizer :=
  mkRandomizer (mkOptions true false false false false
                  "Nested Dungeons & Secret Caves (Together)") false false
    [] [] [] [] [].

Definition race_complete_run : Locals :=
  Eval vm_compute in
    match loop_result 931 race_randomizer all_three with
    | Some (l, _) => l
    | None => mkLocals race_randomizer false None [] [] [] []
    end.

Lemma race_mode_one_dungeon_per_island_witness :
  ¬ (dungeon_exit "M_NewD2" 0 0 0 "Dragon Roost Cavern" "Dragon Roost Cavern" "M_DragB"
       ∈ DUNGEON_EXITS ++ BOSS_EXITS
     ∧ plain_exit "TF_06" 0 0 0 "Dragon Roost Island" "Dragon Roost Island Secret Cave"
       ∈ DUNGEON_EXITS ++ BOSS_EXITS).
Proof.
  apply (race_mode_one_dungeon_per_island 931 race_randomizer all_three race_complete_run
           (island_entrance "sea" 13 2 5 "Secret Cave Entrance on Dragon Roost Island"
              "Dragon Roost Island" "sea" 13 5)
           (dungeon_exit "M_NewD2" 0 0 0 "Dragon Roost Cavern" "Dragon Roost Cavern" "M_DragB")
           (island_entrance "Adanmae" 0 2 2 "Dungeon Entrance on Dragon Roost Island"
              "Dragon Roost Island" "sea" 13 211)
           (plain_exit "TF_06" 0 0 0 "Dragon Roost Island" "Dragon Roost Island Secret Cave")
           "Dragon Roost Island").
  - reflexivity.
  - vm_compute. reflexivity.
  - by_compute.
  - by_compute.
  - by_compute.
  - reflexivity.
  - reflexivity.
Defined.

(** * Further properties of the entrance randomizer *)

(** ** Before the loop *)

(** The race-mode reorder (lines 192-203) never raises and is a stable
    partition: the entrances that share their island, in their shuffled
    order, then the others in theirs; nothing is lost or duplicated. *)
Theorem island_grouping_stable_partition (relevant_entrances : list ZoneEntrance) :
  island_grouping relevant_entrances
  = Return (filter (not_on_unique_island relevant_entrances) relevant_entrances
            ++ filter (λ e, ¬ not_on_unique_island relevant_entrances e) relevant_entrances)
  ∧ filter (not_on_unique_island relevant_entrances) relevant_entrances
    ++ filter (λ e, ¬ not_on_unique_island relevant_entrances e) relevant_entrances
    ≡ₚ relevant_entrances.
Proof.
  split; [apply island_grouping_Return|apply filter_complement_Permutation].
Qed.

Lemma no_requirement_entrances_have_islands e o :
  e ∈ ALL_ENTRANCES → entrance_name e ∈ entrance_names_with_no_requirements o →
  is_nested e = false.
Proof.
  intros He Hn.
  assert (H : Forall (λ e, entrance_name e ∈ DUNGEON_ENTRANCE_NAMES_WITH_NO_REQUIREMENTS
                             ++ SECRET_CAVE_ENTRANCE_NAMES_WITH_NO_REQUIREMENTS
                           → is_nested e = false) ALL_ENTRANCES) by by_compute.
  eapply (proj1 (Forall_forall _ _)) in H; [apply H|exact He].
  unfold entrance_names_with_no_requirements in Hn. rewrite !elem_of_app in *.
  destruct (progression_dungeons o), (progression_caves o);
    rewrite ?elem_of_nil in Hn; tauto.
Qed.

Lemma prepare_safety_entrance self sel s l0 safety :
  prepare self sel = (s, Return l0) → safety_entrance l0 = Some safety →
  entrance_name safety ∈ entrance_names_with_no_requirements (options self)
  ∧ safety ∈ relevant_entrances_of sel ∧ is_nested safety = false.
Proof.
  intros Hp Hsafe.
  pose proof (prepare_Return _ _ _ _ Hp) as [Hq _ _ _ _ _ _ _ _ Hs _].
  rewrite Hsafe in Hs. destruct Hs as [_ Hs].
  assert (Hin : safety ∈ relevant_entrances_of sel).
  { rewrite <-Hq. destruct (relevant_entrances l0); simpl in Hs; [done|].
    injection Hs as ->. by left. }
  assert (Hname : entrance_name safety
                  ∈ entrance_names_with_no_requirements (options self)).
  { revert Hp Hsafe. unfold prepare.
    destruct (rng_shuffle _ _) as [shuffled rng1].
    destruct (if race_mode _ then _ else _) as [q|e|]; [|by intros [= _ <-]..].
    destruct (doing_progress_entrances_for_dungeons_and_caves_only_start _ sel);
      [|by intros [= _ <-]].
    destruct (rng_choice _ _) as [[sf rng2]|e|] eqn:Hc; [|by intros [= _ <-]..].
    destruct (list_remove sf q) as [rest|e|]; [|by intros [= _ <-]..].
    intros [= _ <-] [= <-]. apply rng_choice_Return in Hc.
    by apply list_elem_of_filter in Hc as [Hc _]. }
  split_and!; [done..|].
  eapply no_requirement_entrances_have_islands; [|exact Hname].
  by eapply relevant_entrances_catalog.
Qed.

(** Lines 168-234 never raise: the loop starts with a permutation of the
    selected entrances and with all the selected exits; under the restricted
    start the safety entrance is chosen among the entrances with no
    requirements, has an island and is first in the queue. *)
Theorem prepare_never_raises (self : Randomizer) (sel : Selection) :
  ∃ s l0, prepare self sel = (s, Return l0)
    ∧ relevant_entrances l0 ≡ₚ relevant_entrances_of sel
    ∧ remaining_exits l0 = relevant_exits_of sel
    ∧ done_entrances_to_exits l0 = [] ∧ done_exits_to_entrances l0 = []
    ∧ doing_progress l0
      = doing_progress_entrances_for_dungeons_and_caves_only_start self sel
    ∧ match safety_entrance l0 with
      | Some safety =>
          doing_progress l0 = true
          ∧ head (relevant_entrances l0) = Some safety
          ∧ entrance_name safety ∈ entrance_names_with_no_requirements (options self)
          ∧ is_nested safety = false
      | None => doing_progress l0 = false
      end.
Proof.
  destruct (prepare_total self sel) as (s & l0 & Hp). exists s, l0.
  pose proof (prepare_Return _ _ _ _ Hp) as [Hq Hx Hd Hd' _ _ _ _ Hdo Hs _].
  split_and!; try done.
  destruct (safety_entrance l0) as [safety|] eqn:Hsafe; [|done].
  destruct Hs as [Hs1 Hs2].
  destruct (prepare_safety_entrance _ _ _ _ _ Hp Hsafe) as (Hname & _ & Hn).
  by split_and!.
Qed.

(** ** Outcomes of a call *)

Lemma main_loop_Raise self sel l0 fuel :
  ∀ l l' e, loop_inv self sel l0 l → main_loop fuel l = (l', Raise e) →
    ∃ ze, ze ∈ relevant_entrances_of sel ∧ e = Exception (no_valid_exits_msg ze)
          ∧ ze ∈ relevant_entrances l' ∧ possible_remaining_exits l' ze = [].
Proof.
  induction fuel as [|fuel IH]; intros l l' e Hinv Hm; simpl in Hm; [done|].
  destruct (loop_body l) as [|e'| |l1] eqn:Hb; try done.
  - injection Hm as <- <-.
    destruct (loop_body_Failed _ _ _ _ _ Hinv Hb) as (ze & rest & Hq & -> & Hp & _).
    exists ze. split_and!; [|done| |done].
    + rewrite <-(inv_entrances _ _ _ _ Hinv), Hq. apply elem_of_app. right. by left.
    + rewrite Hq. by left.
  - eapply IH; [|done]. eapply loop_inv_step; [done|]. by apply loop_body_Next.
Qed.

Lemma call_outcomes_of_run fuel self sel self' r :
  randomize_one_set_of_entrances fuel self sel = (self', r) →
  r = Return tt ∨ r = OutOfFuel
  ∨ ∃ ze, ze ∈ relevant_entrances_of sel
          ∧ r = Raise (Exception (no_valid_exits_msg ze)).
Proof.
  unfold randomize_one_set_of_entrances.
  destruct (prepare_total self sel) as (s & l0 & Hp). rewrite Hp.
  pose proof (prepare_Return _ _ _ _ Hp) as Hprep.
  pose proof (loop_inv_start _ _ _ Hprep) as Hinv0.
  destruct (main_loop fuel l0) as [l r1] eqn:Hm.
  pose proof (loop_inv_reachable _ _ _ _ Hprep (main_loop_reachable _ _ _ _ Hm)) as Hinv.
  destruct r1 as [[]|e|].
  - pose proof (proj1 (loop_body_Finished l) (main_loop_Return _ _ _ Hm)) as Hq.
    destruct (finish_spec _ _ _ _ Hinv Hq) as (s' & -> & _). intros [= <- <-]. by left.
  - intros [= <- <-]. right; right.
    destruct (main_loop_Raise _ _ _ _ _ _ _ Hinv0 Hm) as (ze & Hze & -> & _).
    by exists ze.
  - intros [= <- <-]. right. by left.
Qed.

(** A call either returns, or does not end, or raises the "No valid exits"
    exception for an entrance of the selection whose candidate list is
    empty: no other exception (of the choice, of the list and dict
    operations, of chain resolution) ever leaves it. *)
Theorem call_outcomes fuel self sel self' r :
  randomize_one_set_of_entrances fuel self sel = (self', r) →
  r = Return tt ∨ r = OutOfFuel
  ∨ ∃ ze, ze ∈ relevant_entrances_of sel
          ∧ r = Raise (Exception (no_valid_exits_msg ze)).
Proof. apply call_outcomes_of_run. Qed.

Lemma call_outcomes_witness :
  Return tt = Return tt ∨ Return tt = OutOfFuel
  ∨ ∃ ze, ze ∈ relevant_entrances_of all_three
          ∧ Return tt = Raise (Exception (no_valid_exits_msg ze)).
Proof.
  apply (call_outcomes 931 plain_randomizer all_three after_complete_run (Return tt)).
  vm_compute. reflexivity.
Defined.

(** ** The safety entrance *)

Lemma outermost_non_nested e d :
  is_nested e = false → get_outermost_entrance_for_entrance e d = Return (Some e).
Proof.
  intros Hn. unfold get_outermost_entrance_for_entrance,
    get_all_entrances_on_path_to_entrance.
  rewrite path_loop_unfold, Hn. reflexivity.
Qed.

(** The exits the safety entrance chooses from at the first iteration. *)
Definition safety_candidates (self : Randomizer) (sel : Selection) : list ZoneExit :=
  filter (λ e, unique_name e ∈ exit_names_with_no_requirements (options self))
         (relevant_exits_of sel).

Lemma dungeon_exit_names_not_cave_names x o :
  x ∈ DUNGEON_EXITS → progression_dungeons o = false →
  unique_name x ∉ exit_names_with_no_requirements o.
Proof.
  intros Hx Hp.
  assert (H : Forall (λ x, (unique_name x
                             ∉ PUZZLE_SECRET_CAVE_EXIT_NAMES_WITH_NO_REQUIREMENTS)
                           ∧ (unique_name x
                              ∉ COMBAT_SECRET_CAVE_EXIT_NAMES_WITH_NO_REQUIREMENTS))
                     DUNGEON_EXITS) by by_compute.
  eapply (proj1 (Forall_forall _ _)) in H as [H1 H2]; [|exact Hx].
  unfold exit_names_with_no_requirements. rewrite Hp, !elem_of_app.
  destruct (progression_puzzle_secret_caves o), (progression_combat_secret_caves o);
    rewrite ?elem_of_nil; tauto.
Qed.

Lemma dungeon_exit_relevant_inv sel x :
  x ∈ relevant_exits_of sel → x ∈ DUNGEON_EXITS → include_dungeons sel = true.
Proof.
  intros Hx Hd. destruct (include_dungeons sel) eqn:Hi; [done|]. exfalso.
  assert (H : Forall (λ x, x ∉ BOSS_EXITS ++ SECRET_CAVE_EXITS) DUNGEON_EXITS)
    by by_compute.
  eapply (proj1 (Forall_forall _ _)) in H; [|exact Hd]. apply H.
  unfold relevant_exits_of in Hx. rewrite Hi in Hx. simpl in Hx.
  apply elem_of_app in Hx as [Hx|Hx]; apply elem_of_app.
  - destruct (include_bosses sel); [auto|by apply elem_of_nil in Hx].
  - destruct (include_caves sel); [auto|by apply elem_of_nil in Hx].
Qed.

(** When no dungeon exit is among them, the candidates of the safety
    entrance at the first iteration are allowed exits. *)
Lemma first_candidates_allowed self sel l0 safety x :
  prepared self sel l0 → safety_entrance l0 = Some safety →
  include_dungeons sel && progression_dungeons (options self) = false →
  x ∈ possible_remaining_exits l0 safety →
  x ∈ safety_candidates self sel.
Proof.
  intros [_ Hx _ _ Ho _ _ _ _ Hs _] Hsafe Hcond. rewrite Hsafe in Hs.
  destruct Hs as [Hdo _]. unfold possible_remaining_exits, safety_candidates.
  rewrite Hdo, Hsafe, Ho, Hx.
  rewrite (bool_decide_eq_true_2 (Some safety = Some safety)) by done. cbn [andb].
  set (allowed := filter _ (relevant_exits_of sel)).
  rewrite bool_decide_eq_false_2.
  2:{ intros (y & [Hy Hrel]%list_elem_of_filter & Hd)%Exists_exists.
      apply andb_false_iff in Hcond as [Hi|Hp].
      - pose proof (dungeon_exit_relevant_inv _ _ Hrel Hd). congruence.
      - by apply (dungeon_exit_names_not_cave_names y (options self)). }
  destruct (race_mode (options self)); [|done].
  destruct (filter _ (done_entrances_to_exits l0)); [done|].
  by intros [_ ?]%list_elem_of_filter.
Qed.

Section safety.
Context (self : Randomizer) (sel : Selection) (l0 : Locals).
Context (Hprep : prepared self sel l0).
Context (safety : ZoneEntrance) (Hsafe : safety_entrance l0 = Some safety).
Context (Hnested : is_nested safety = false).

Lemma safety_first l :
  reachable l0 l →
  l = l0 ∨ ∃ x, dict_get safety (done_entrances_to_exits l) = Some x
                ∧ x ∈ possible_remaining_exits l0 safety.
Proof.
  induction 1 as [|l l' Hreach IH Hb]; [by left|]. right.
  pose proof (loop_inv_reachable _ _ _ _ Hprep Hreach) as Hinv.
  apply loop_body_Next in Hb.
  destruct IH as [->|(x & Hget & Hx)].
  - pose proof (prep_safety _ _ _ Hprep) as Hs. rewrite Hsafe in Hs.
    destruct Hs as [_ Hhead].
    inversion Hb as [ze rest Hq Ho|ze rest o zx rng' rem Hq Ho Hc Hr]; subst;
      rewrite Hq in Hhead; injection Hhead as ->.
    + by rewrite outermost_non_nested in Ho.
    + exists zx. cbn. split; [apply dict_get_set_eq|by eapply rng_choice_Return].
  - exists x. split; [|done].
    inversion Hb as [ze rest Hq Ho|ze rest o zx rng' rem Hq Ho Hc Hr]; subst; cbn;
      [done|].
    rewrite dict_get_set_ne; [done|]. intros ->.
    pose proof (inv_entrances _ _ _ _ Hinv) as Hperm.
    pose proof (relevant_entrances_NoDup sel) as Hnd. rewrite <-Hperm in Hnd.
    apply NoDup_app in Hnd as (_ & Hdisj & _). apply (Hdisj safety).
    + apply dict_get_Some_elem_of in Hget. apply list_elem_of_fmap. by exists (safety, x).
    + rewrite Hq. by left.
Qed.
End safety.

(** Under the restricted start, when the dungeons are not selected or are
    not in the progression, the exit the safety entrance gets is one of the
    exits with no requirements: the relaxation of line 255 only applies when
    a dungeon exit is among the candidates. *)
Theorem safety_exit_allowed_without_dungeons fuel self sel l r safety x :
  loop_result fuel self sel = Some (l, r) →
  include_dungeons sel && progression_dungeons (options self) = false →
  safety_entrance l = Some safety →
  dict_get safety (done_entrances_to_exits l) = Some x →
  unique_name x ∈ exit_names_with_no_requirements (options self)
  ∧ x ∈ relevant_exits_of sel.
Proof.
  unfold loop_result. destruct (prepare self sel) as [s [l0|e|]] eqn:Hp; try done.
  intros [= Hm] Hcond Hsafe Hget.
  pose proof (prepare_Return _ _ _ _ Hp) as Hprep.
  pose proof (main_loop_reachable _ _ _ _ Hm) as Hreach.
  pose proof (loop_inv_reachable _ _ _ _ Hprep Hreach) as Hinv.
  rewrite (inv_safety _ _ _ _ Hinv) in Hsafe.
  destruct (prepare_safety_entrance _ _ _ _ _ Hp Hsafe) as (_ & _ & Hn).
  destruct (safety_first self sel l0 Hprep safety Hsafe Hn l Hreach)
    as [->|(x' & Hget' & Hx)].
  - by rewrite (prep_done _ _ _ Hprep) in Hget.
  - rewrite Hget in Hget'. injection Hget' as <-.
    apply (first_candidates_allowed self sel l0 safety x Hprep Hsafe Hcond) in Hx.
    apply list_elem_of_filter in Hx. tauto.
Qed.

(** Restricted start over the secret caves only, puzzle caves in the
    progression. *)
Definition caves_only : Selection := mkSelection false false true.

Definition restricted_caves_randomizer : Randomizer :=
  mkRandomizer (mkOptions false false true false false "Secret Caves") true false
    [3; 1; 4; 1; 5; 9; 2; 6; 5; 3; 5] [] [] [] [].

Definition restricted_caves_run : Locals :=
  Eval vm_compute in
    match loop_result 500 restricted_caves_randomizer caves_only with
    | Some (l, _) => l
    | None => mkLocals restricted_caves_randomizer false None [] [] [] []
    end.

Lemma safety_exit_allowed_without_dungeons_witness :
  ∃ safety x,
    safety_entrance restricted_caves_run = Some safety
    ∧ dict_get safety (done_entrances_to_exits restricted_caves_run) = Some x
    ∧ unique_name x ∈ exit_names_with_no_requirements (options restricted_caves_randomizer)
    ∧ x ∈ relevant_exits_of caves_only.
Proof.
  eexists _, _. split; [reflexivity|]. split; [vm_compute; reflexivity|].
  eapply (safety_exit_allowed_without_dungeons 500 restricted_caves_randomizer caves_only
            restricted_caves_run (Return tt));
    [vm_compute; reflexivity|reflexivity|reflexivity|vm_compute; reflexivity].
Defined.

(** Under the restricted start, when none of the selected exits is an exit
    with no requirements (as when the Savage Labyrinth is the only
    progression among the caves), the first iteration finds no exit for the
    safety entrance: the call raises for it, having paired nothing and made
    no call into the stage data. *)
Theorem restricted_start_without_allowed_exits fuel self sel :
  doing_progress_entrances_for_dungeons_and_caves_only_start self sel = true →
  safety_candidates self sel = [] →
  ∃ self' safety,
    randomize_one_set_of_entrances (S fuel) self sel
    = (self', Raise (Exception (no_valid_exits_msg safety)))
    ∧ entrance_name safety ∈ entrance_names_with_no_requirements (options self)
    ∧ stage_calls self' = stage_calls self.
Proof.
  intros Hdo Hnone. unfold randomize_one_set_of_entrances.
  destruct (prepare_total self sel) as (s & l0 & Hp). rewrite Hp.
  pose proof (prepare_Return _ _ _ _ Hp) as Hprep.
  pose proof Hprep as [_ Hx _ _ Ho _ Hcalls _ Hdoing Hs _].
  rewrite Hdo in Hdoing.
  destruct (safety_entrance l0) as [safety|] eqn:Hsafe; [|congruence].
  destruct Hs as [_ Hhead].
  destruct (prepare_safety_entrance _ _ _ _ _ Hp Hsafe) as (Hname & _ & Hn).
  exists (l_self l0), safety.
  assert (Hb : loop_body l0 = Failed (Exception (no_valid_exits_msg safety))).
  { unfold loop_body. destruct (relevant_entrances l0) as [|ze rest]; [done|].
    injection Hhead as ->. rewrite outermost_non_nested by done.
    assert (Hposs : possible_remaining_exits l0 safety = []); [|by rewrite Hposs].
    unfold possible_remaining_exits.
    rewrite Hdoing, Hsafe, Ho, Hx.
    rewrite (bool_decide_eq_true_2 (Some safety = Some safety)) by done. cbn [andb].
    unfold safety_candidates in Hnone. rewrite Hnone.
    rewrite bool_decide_eq_false_2 by (by intros (? & []%elem_of_nil & _)%Exists_exists).
    destruct (race_mode (options self)); [|done].
    by destruct (filter _ (done_entrances_to_exits l0)). }
  cbn [main_loop]. rewrite Hb. by split_and!.
Qed.

(** Restricted start with the Savage Labyrinth as the only progression. *)
Definition savage_only_randomizer : Randomizer :=
  mkRandomizer (mkOptions false false false false true "Secret Caves") true false
    [] [] [] [] [].

Lemma restricted_start_without_allowed_exits_witness :
  ∃ self' safety,
    randomize_one_set_of_entrances 1 savage_only_randomizer caves_only
    = (self', Raise (Exception (no_valid_exits_msg safety)))
    ∧ entrance_name safety
      ∈ entrance_names_with_no_requirements (options savage_only_randomizer)
    ∧ stage_calls self' = stage_calls savage_only_randomizer.
Proof.
  apply (restricted_start_without_allowed_exits 0 savage_only_randomizer caves_only);
    reflexivity.
Defined.

(** ** Boss entrances without the dungeons *)

Lemma filter_none {A} (P : A → Prop) `{∀ x, Decision (P x)} (l : list A) :
  (∀ x, x ∈ l → ¬ P x) → filter P l = [].
Proof.
  induction l as [|a l IH]; intros Hl; [done|].
  rewrite filter_cons_False by (apply Hl; by left).
  apply IH. intros x Hx. apply Hl. by right.
Qed.

Section bosses_without_dungeons.
Context (self : Randomizer) (sel : Selection) (s : Randomizer) (l0 : Locals).
Context (Hprepare : prepare self sel = (s, Return l0)).
Context (Hbosses : include_bosses sel = true) (Hdungeons : include_dungeons sel = false).

Lemma no_dungeon_exit_selected x : x ∈ relevant_exits_of sel → x ∉ DUNGEON_EXITS.
Proof.
  intros Hx Hd. pose proof (dungeon_exit_relevant_inv _ _ Hx Hd). congruence.
Qed.

Lemma boss_entrances_pending l b :
  loop_inv self sel l0 l → b ∈ BOSS_ENTRANCES →
  b ∈ relevant_entrances l ∧ b ∉ (done_entrances_to_exits l).*1.
Proof.
  intros Hinv Hb.
  assert (Hnot : b ∉ (done_entrances_to_exits l).*1).
  { intros Hin.
    pose proof (placed_nested_needs_dungeons self sel l0 l b Hinv Hin
                  (boss_entrances_nested b Hb)). congruence. }
  split; [|done].
  pose proof (boss_entrances_relevant sel b Hbosses Hb) as Hrel.
  rewrite <-(inv_entrances _ _ _ _ Hinv) in Hrel.
  by apply elem_of_app in Hrel as [Hrel|Hrel].
Qed.

(** With no dungeon exit in the pool neither the boss-exit filter nor the
    race-mode filter applies. *)
Lemma candidates_without_dungeons l ze :
  loop_inv self sel l0 l →
  possible_remaining_exits l ze
  = if doing_progress l && bool_decide (Some ze = safety_entrance l)
    then filter (λ e, unique_name e ∈ exit_names_with_no_requirements (options (l_self l)))
                (remaining_exits l)
    else remaining_exits l.
Proof.
  intros Hinv. unfold possible_remaining_exits.
  assert (Hrem : ∀ x, x ∈ remaining_exits l → x ∉ DUNGEON_EXITS).
  { intros x Hx. apply no_dungeon_exit_selected.
    rewrite <-(inv_exits _ _ _ _ Hinv). apply elem_of_app. by right. }
  set (possible := if doing_progress l && _ then _ else _).
  assert (Hposs : ∀ x, x ∈ possible → x ∉ DUNGEON_EXITS).
  { intros x Hx. apply Hrem. subst possible.
    destruct (doing_progress l && _); [|done]. by apply list_elem_of_filter in Hx as [_ ?]. }
  rewrite bool_decide_eq_false_2.
  2:{ intros (x & Hx & Hd)%Exists_exists. by apply (Hposs x). }
  destruct (race_mode _); [|done].
  rewrite filter_none; [done|].
  intros [e x] Hin [_ Hd]. simpl in Hd.
  apply (no_dungeon_exit_selected x); [|done].
  rewrite <-(inv_exits _ _ _ _ Hinv). apply elem_of_app. left.
  apply list_elem_of_fmap. by exists (e, x).
Qed.

Lemma never_stops l :
  doing_progress_entrances_for_dungeons_and_caves_only_start self sel = false
  ∨ safety_candidates self sel ≠ [] →
  reachable l0 l → ∃ l', loop_body l = Next l'.
Proof.
  intros Hcond Hreach.
  pose proof (prepare_Return _ _ _ _ Hprepare) as Hprep.
  pose proof (loop_inv_reachable _ _ _ _ Hprep Hreach) as Hinv.
  pose proof (loop_body_cases self sel l0 l Hinv) as Hcases.
  destruct (loop_body l) as [|e| |l'] eqn:Hb; [| |done|by eexists].
  - exfalso.
    destruct (boss_entrances_pending l
                (nested_entrance "M_NewD2" 10 1 27 "Boss Entrance in Dragon Roost Cavern")
                Hinv) as [Hin _]; [by_compute|].
    rewrite Hcases in Hin. by apply elem_of_nil in Hin.
  - exfalso.
    destruct (loop_body_Failed _ _ _ _ _ Hinv Hb) as (ze & rest & Hq & _ & Hposs & _).
    rewrite (candidates_without_dungeons l ze Hinv) in Hposs.
    destruct (doing_progress l && bool_decide (Some ze = safety_entrance l)) eqn:Hsafety.
    + apply andb_prop in Hsafety as [Hdoing Hsafe].
      apply bool_decide_eq_true in Hsafe. symmetry in Hsafe.
      rewrite (inv_safety _ _ _ _ Hinv) in Hsafe.
      destruct (prepare_safety_entrance _ _ _ _ _ Hprepare Hsafe) as (_ & _ & Hn).
      destruct (safety_first self sel l0 Hprep ze Hsafe Hn l Hreach)
        as [->|(x & Hget & _)].
      * rewrite (prep_exits _ _ _ Hprep), (prep_options _ _ _ Hprep) in Hposs.
        destruct Hcond as [Hcond|Hcond]; [|done].
        rewrite <-(prep_doing _ _ _ Hprep) in Hcond. congruence.
      * pose proof (inv_entrances _ _ _ _ Hinv) as Hperm.
        pose proof (relevant_entrances_NoDup sel) as Hnd. rewrite <-Hperm in Hnd.
        apply NoDup_app in Hnd as (_ & Hdisj & _). apply (Hdisj ze).
        -- apply dict_get_Some_elem_of in Hget. apply list_elem_of_fmap.
           by exists (ze, x).
        -- rewrite Hq. by left.
    + pose proof (inv_same_length _ _ _ _ Hinv) as Hlen.
      rewrite Hq, Hposs in Hlen. done.
Qed.

Lemma main_loop_never_ends fuel :
  doing_progress_entrances_for_dungeons_and_caves_only_start self sel = false
  ∨ safety_candidates self sel ≠ [] →
  ∀ l, reachable l0 l → (main_loop fuel l).2 = OutOfFuel.
Proof.
  intros Hcond. induction fuel as [|fuel IH]; intros l Hreach; [done|].
  destruct (never_stops l Hcond Hreach) as [l' Hb]. simpl. rewrite Hb.
  apply IH. by eapply reachable_next.
Qed.
End bosses_without_dungeons.

(** Boss entrances selected without the dungeons: no boss entrance is ever
    placed, since the exit of its dungeon is not in the pool, and the call
    never returns. Unless the restricted start applies and none of the
    selected exits is an exit with no requirements (the first iteration
    then raises), the loop never ends, however many iterations it is
    given: every iteration places a cave entrance or moves a boss entrance
    to the back of the queue. *)
Theorem bosses_without_dungeons_never_return fuel self sel :
  include_bosses sel = true → include_dungeons sel = false →
  (randomize_one_set_of_entrances fuel self sel).2 ≠ Return tt
  ∧ (∀ l r, loop_result fuel self sel = Some (l, r) →
       ∀ b, b ∈ BOSS_ENTRANCES →
            b ∈ relevant_entrances l ∧ b ∉ (done_entrances_to_exits l).*1)
  ∧ (doing_progress_entrances_for_dungeons_and_caves_only_start self sel = false
     ∨ safety_candidates self sel ≠ [] →
     (randomize_one_set_of_entrances fuel self sel).2 = OutOfFuel).
Proof.
  intros Hb Hd.
  destruct (prepare_total self sel) as (s & l0 & Hp).
  pose proof (prepare_Return _ _ _ _ Hp) as Hprep.
  assert (Hpending : ∀ l r, loop_result fuel self sel = Some (l, r) →
            ∀ b, b ∈ BOSS_ENTRANCES →
                 b ∈ relevant_entrances l ∧ b ∉ (done_entrances_to_exits l).*1).
  { intros l r (l1 & _ & _ & Hinv & _)%loop_result_inv b Hboss.
    by eapply (boss_entrances_pending self sel l1). }
  split_and!; [|done|].
  - intros Hret.
    destruct (randomize_one_set_of_entrances fuel self sel) as [self' r] eqn:Hrun.
    simpl in Hret. subst r. apply run_Return in Hrun as (l & Hrun & _).
    pose proof Hrun as (l1 & _ & _ & Hinv & Hm)%loop_result_inv.
    pose proof (proj1 (loop_body_Finished l) (main_loop_Return _ _ _ Hm)) as Hq.
    destruct (Hpending l _ Hrun
                (nested_entrance "M_NewD2" 10 1 27 "Boss Entrance in Dragon Roost Cavern"))
      as [Hin _]; [by_compute|].
    rewrite Hq in Hin. by apply elem_of_nil in Hin.
  - intros Hcond. unfold randomize_one_set_of_entrances. rewrite Hp.
    pose proof (main_loop_never_ends self sel s l0 Hp Hb Hd fuel Hcond l0
                  (reachable_start l0)) as Hend.
    destruct (main_loop fuel l0) as [l r]. simpl in Hend. by subst r.
Qed.

Lemma bosses_without_dungeons_never_return_witness :
  (randomize_one_set_of_entrances 500 plain_randomizer (mkSelection false true true)).2
  ≠ Return tt
  ∧ (∀ l r, loop_result 500 plain_randomizer (mkSelection false true true) = Some (l, r) →
       ∀ b, b ∈ BOSS_ENTRANCES →
            b ∈ relevant_entrances l ∧ b ∉ (done_entrances_to_exits l).*1)
  ∧ (randomize_one_set_of_entrances 500 plain_randomizer (mkSelection false true true)).2
    = OutOfFuel.
Proof.
  destruct (bosses_without_dungeons_never_return 500 plain_randomizer
              (mkSelection false true true)) as (H1 & H2 & H3); [reflexivity..|].
  split_and!; [exact H1|exact H2|]. apply H3. by left.
Defined.

(** ** [randomize_entrances] *)

Lemma loop_fuel_bound sel : loop_fuel sel ≤ 931.
Proof.
  assert (H : Forall (λ sel, loop_fuel sel ≤ 931) all_selections).
  { apply (bool_decide_unpack _). vm_compute. exact I. }
  eapply (proj1 (Forall_forall _ _)) in H; [done|apply all_selections_complete].
Qed.

Lemma call_terminates fuel self sel :
  valid_selection sel → loop_fuel sel ≤ fuel →
  (randomize_one_set_of_entrances fuel self sel).2 ≠ OutOfFuel.
Proof.
  intros Hvalid Hfuel. unfold randomize_one_set_of_entrances.
  destruct (prepare_total self sel) as (s & l0 & Hp). rewrite Hp.
  pose proof (prepare_Return _ _ _ _ Hp) as Hprep.
  pose proof (loop_inv_start _ _ _ Hprep) as Hinv0.
  destruct (main_loop fuel l0) as [l r1] eqn:Hm.
  pose proof (loop_inv_reachable _ _ _ _ Hprep (main_loop_reachable _ _ _ _ Hm)) as Hinv.
  destruct r1 as [[]|e|]; [|done|].
  - pose proof (proj1 (loop_body_Finished l) (main_loop_Return _ _ _ Hm)) as Hq.
    destruct (finish_spec _ _ _ _ Hinv Hq) as (s' & -> & _). done.
  - exfalso.
    apply (main_loop_enough_fuel self sel l0 Hvalid fuel l0 (relevant_entrances l0) []);
      [done|by rewrite app_nil_r|by constructor| |by rewrite Hm].
    unfold loop_fuel in Hfuel. by rewrite (Permutation_length (prep_queue _ _ _ Hprep)).
Qed.

Lemma selections_valid opt sels :
  selections_of_option opt = Return sels → Forall valid_selection sels.
Proof.
  unfold selections_of_option. repeat case_decide; intros [= <-];
    repeat constructor; unfold valid_selection; simpl; done.
Qed.

Lemma randomize_each_outcome fuel sels :
  Forall valid_selection sels → 931 ≤ fuel →
  ∀ self self' r, randomize_each fuel sels self = (self', r) →
    r = Return tt
    ∨ ∃ sel ze, sel ∈ sels ∧ ze ∈ relevant_entrances_of sel
                ∧ r = Raise (Exception (no_valid_exits_msg ze)).
Proof.
  intros Hvalid Hfuel. induction Hvalid as [|sel sels Hsel Hsels IH]; intros self self' r.
  - simpl. intros [= _ <-]. by left.
  - cbn [randomize_each].
    destruct (randomize_one_set_of_entrances fuel self sel) as [s1 r1] eqn:Hrun.
    pose proof (call_terminates fuel self sel Hsel) as Hterm. rewrite Hrun in Hterm.
    pose proof (loop_fuel_bound sel).
    destruct (call_outcomes_of_run fuel self sel s1 r1 Hrun) as [->|[->|(ze & Hze & ->)]].
    + cbn [and_then]. intros Hrest.
      destruct (IH _ _ _ Hrest) as [->|(sel' & ze & ? & ? & ->)]; [by left|right].
      exists sel', ze. split_and!; [by right|done..].
    + exfalso. apply Hterm; [lia|done].
    + cbn [and_then]. intros [= _ <-]. right. exists sel, ze. split_and!; [by left|done..].
Qed.

(** The values of the option that lines 147-165 accept. *)
Definition entrance_randomizer_options : list string :=
  ["Dungeons"; "Nested Dungeons"; "Secret Caves";
   "Dungeons & Secret Caves (Separately)";
   "Nested Dungeons & Secret Caves (Separately)";
   "Dungeons & Secret Caves (Together)";
   "Nested Dungeons & Secret Caves (Together)"]%string.

Lemma selections_of_option_cases opt :
  (opt ∈ entrance_randomizer_options ∧ ∃ sels, selections_of_option opt = Return sels)
  ∨ ((opt ∉ entrance_randomizer_options)
     ∧ selections_of_option opt
       = Raise (Exception ("Invalid entrance randomizer option: " +:+ opt)%string)).
Proof.
  unfold selections_of_option, entrance_randomizer_options.
  repeat case_decide; subst;
    try (left; split; [by_compute|by eexists]).
  right. split; [|done]. rewrite !elem_of_cons, elem_of_nil. tauto.
Qed.

(** [randomize_entrances] always ends (931 iterations of the assignment
    loop are enough for any selection): it returns, or raises "Invalid
    entrance randomizer option" for a value that is not one of the seven,
    leaving the randomizer as it was, or raises "No valid exits" for an
    entrance of one of its selections. *)
Theorem randomize_entrances_outcomes fuel self self' r :
  931 ≤ fuel → randomize_entrances fuel self = (self', r) →
  let opt := randomize_entrances_option (options self) in
  (opt ∈ entrance_randomizer_options ∧ r = Return tt)
  ∨ ((opt ∉ entrance_randomizer_options) ∧ self' = self
     ∧ r = Raise (Exception ("Invalid entrance randomizer option: " +:+ opt)%string))
  ∨ (opt ∈ entrance_randomizer_options
     ∧ ∃ ze, ze ∈ ALL_ENTRANCES ∧ r = Raise (Exception (no_valid_exits_msg ze))).
Proof.
  intros Hfuel Hrun opt. unfold randomize_entrances in Hrun. fold opt in Hrun.
  destruct (selections_of_option_cases opt) as [[Hin [sels Hs]]|[Hnin Hs]];
    rewrite Hs in Hrun.
  - destruct (randomize_each_outcome fuel sels (selections_valid _ _ Hs) Hfuel _ _ _ Hrun)
      as [->|(sel & ze & _ & Hze & ->)]; [by left|].
    right; right. split; [done|]. exists ze. split; [|done].
    by eapply relevant_entrances_catalog.
  - injection Hrun as <- <-. right; left. done.
Qed.

Lemma randomize_entrances_outcomes_witness :
  let opt := randomize_entrances_option (options plain_randomizer) in
  (opt ∈ entrance_randomizer_options ∧ Return tt = Return tt)
  ∨ ((opt ∉ entrance_randomizer_options) ∧ after_dungeons_run = plain_randomizer
     ∧ Return tt
       = Raise (Exception ("Invalid entrance randomizer option: " +:+ opt)%string))
  ∨ (opt ∈ entrance_randomizer_options
     ∧ ∃ ze, ze ∈ ALL_ENTRANCES ∧ Return tt = Raise (Exception (no_valid_exits_msg ze))).
Proof.
  apply (randomize_entrances_outcomes 931 plain_randomizer after_dungeons_run (Return tt));
    [lia|vm_compute; reflexivity].
Defined.

(** ** Chain resolution on arbitrary inputs *)

Lemma append_cons a p t : String a p +:+ t = String a (p +:+ t).
Proof. reflexivity. Qed.

Lemma prefix_append p t : String.prefix p (p +:+ t) = true.
Proof.
  induction p as [|a p IH]; [by destruct t|].
  rewrite append_cons. simpl. destruct (Ascii.ascii_dec a a); [exact IH|done].
Qed.

Lemma string_drop_append p t : string_drop (String.length p) (p +:+ t) = t.
Proof.
  induction p as [|a p IH]; [by destruct t|]. by rewrite append_cons.
Qed.

Lemma prefix_string_drop p s :
  String.prefix p s = true → s = p +:+ string_drop (String.length p) s.
Proof.
  revert s. induction p as [|a p IH]; intros s; [by destruct s|].
  destruct s as [|b s]; [done|]. simpl.
  destruct (Ascii.ascii_dec a b) as [->|]; [|done].
  intros H. rewrite append_cons. f_equal. by apply IH.
Qed.

Lemma dungeon_exit_found x :
  x ∈ DUNGEON_EXITS →
  snd <$> list_find (λ ex, unique_name ex = unique_name x) DUNGEON_EXITS = Some x.
Proof.
  assert (H : Forall (λ x, snd <$> list_find (λ ex, unique_name ex = unique_name x)
                                      DUNGEON_EXITS = Some x) DUNGEON_EXITS)
    by by_compute.
  intros Hx. by eapply (proj1 (Forall_forall _ _)) in H.
Qed.

(** [get_dungeon_start_exit_leading_to_nested_entrance] (lines 366-370), on
    any entrance: it returns a dungeon exit exactly when the entrance is
    named "Boss Entrance in " followed by that exit's unique name; the
    assertion fails for a name without the prefix, and [next] raises
    StopIteration when what follows the prefix names no dungeon exit. *)
Theorem start_exit_by_name (zone_entrance : ZoneEntrance) :
  (∀ x, get_dungeon_start_exit_leading_to_nested_entrance zone_entrance = Return x
        ↔ x ∈ DUNGEON_EXITS
          ∧ entrance_name zone_entrance = boss_entrance_prefix +:+ unique_name x)
  ∧ (get_dungeon_start_exit_leading_to_nested_entrance zone_entrance = Raise AssertionError
     ↔ String.prefix boss_entrance_prefix (entrance_name zone_entrance) = false)
  ∧ (get_dungeon_start_exit_leading_to_nested_entrance zone_entrance = Raise StopIteration
     ↔ ∃ name, entrance_name zone_entrance = boss_entrance_prefix +:+ name
               ∧ name ∉ unique_name <$> DUNGEON_EXITS).
Proof.
  unfold get_dungeon_start_exit_leading_to_nested_entrance.
  destruct (String.prefix _ _) eqn:Hp.
  - apply prefix_string_drop in Hp.
    set (name := string_drop _ _) in *. clearbody name.
    destruct (list_find _ _) as [[i y]|] eqn:Hf.
    + apply list_find_Some in Hf as (Hi & Hy & _).
      apply list_elem_of_lookup_2 in Hi. split_and!.
      * intros x. split.
        -- intros [= <-]. split; [done|]. by rewrite Hy.
        -- intros [Hx Hn]. rewrite Hp in Hn.
           apply (f_equal (string_drop (String.length boss_entrance_prefix))) in Hn.
           rewrite !string_drop_append in Hn.
           pose proof (dungeon_exit_found x Hx) as Hfx.
           pose proof (dungeon_exit_found y Hi) as Hfy.
           rewrite Hy, Hn in Hfy. rewrite Hfx in Hfy. by injection Hfy as ->.
      * split; [done|]. by intros [=].
      * split; [done|]. intros (n & Hn & Hnin). exfalso. apply Hnin.
        rewrite Hp in Hn.
        apply (f_equal (string_drop (String.length boss_entrance_prefix))) in Hn.
        rewrite !string_drop_append in Hn. subst n.
        apply list_elem_of_fmap. by exists y.
    + split_and!.
      * intros x. split; [done|]. intros [Hx Hn]. exfalso.
        rewrite Hp in Hn.
        apply (f_equal (string_drop (String.length boss_entrance_prefix))) in Hn.
        rewrite !string_drop_append in Hn.
        apply list_find_None in Hf.
        eapply (proj1 (Forall_forall _ _)) in Hf; [|exact Hx]. by apply Hf.
      * split; [done|]. by intros [=].
      * split; [|done]. intros _. exists name. split; [done|].
        intros (y & -> & Hy)%list_elem_of_fmap.
        apply list_find_None in Hf.
        eapply (proj1 (Forall_forall _ _)) in Hf; [|exact Hy]. by apply Hf.
  - split_and!.
    + intros x. split; [done|]. intros [_ Hn]. rewrite Hn, prefix_append in Hp. done.
    + done.
    + split; [done|]. intros (n & Hn & _). rewrite Hn, prefix_append in Hp. done.
Qed.

Lemma path_loop_more_fuel d fuel k :
  ∀ seen ze, path_loop fuel seen ze d ≠ OutOfFuel →
             path_loop (fuel + k) seen ze d = path_loop fuel seen ze d.
Proof.
  induction fuel as [|fuel IH]; intros seen ze; rewrite !(path_loop_unfold _ seen ze d);
    destruct (is_nested ze); try done.
  cbn [Nat.add]. destruct (decide (ze ∈ seen)); [done|].
  destruct (get_dungeon_start_exit_leading_to_nested_entrance ze) as [x|e|]; simpl;
    [|done..].
  destruct (dict_get x d); [|done]. apply IH.
Qed.

(** [get_all_entrances_on_path_to_entrance] (lines 352-364) ends on every
    entrance and every connection dict, cyclic ones included: the loop body
    runs at most len(DUNGEON_EXITS) + 2 times, the last of which may be the
    one that raises the infinite-loop exception, and iterating further
    changes nothing. One iteration less is not always enough: a cycle
    through every dungeon that is entered from an entrance outside the
    catalog needs them all. A returned chain starts at the given entrance,
    has no entrance twice and at most len(DUNGEON_EXITS) + 2 entrances. *)
Theorem chain_resolution_ends (zone_entrance : ZoneEntrance)
    (done_exits_to_entrances : list (ZoneExit * ZoneEntrance)) :
  path_loop (length DUNGEON_EXITS + 2) [] zone_entrance done_exits_to_entrances
  ≠ OutOfFuel
  ∧ get_all_entrances_on_path_to_entrance zone_entrance done_exits_to_entrances
    = path_loop (length DUNGEON_EXITS + 2) [] zone_entrance done_exits_to_entrances
  ∧ (∀ k, path_loop (length DUNGEON_EXITS + 2 + k) [] zone_entrance
            done_exits_to_entrances
          = path_loop (length DUNGEON_EXITS + 2) [] zone_entrance
              done_exits_to_entrances)
  ∧ (∃ ze d, path_loop (length DUNGEON_EXITS + 1) [] ze d = OutOfFuel)
  ∧ (∀ c, get_all_entrances_on_path_to_entrance zone_entrance done_exits_to_entrances
          = Return (Some c) →
          NoDup c ∧ 1 ≤ length c ≤ length DUNGEON_EXITS + 2
          ∧ head c = Some zone_entrance).
Proof.
  assert (Hfuel : length DUNGEON_EXITS + 2 = path_fuel) by reflexivity.
  split_and!.
  - rewrite Hfuel. apply path_loop_fuel.
  - by rewrite Hfuel.
  - intros k. rewrite Hfuel. apply path_loop_more_fuel. apply path_loop_fuel.
  - exists (nested_entrance "M_NewD2" 10 1 0 "Boss Entrance in Dragon Roost Cavern"),
           (zip DUNGEON_EXITS (drop 1 BOSS_ENTRANCES ++ take 1 BOSS_ENTRANCES)).
    vm_compute. reflexivity.
  - intros c (pre & last & -> & Hw & Hl & Hnd)%resolves_iff.
    split; [done|]. split; [|by eapply walk_head].
    apply NoDup_app in Hnd as (Hnd & _ & _).
    pose proof (walk_length_NoDup _ _ _ _ Hw Hnd). rewrite length_app.
    cbn [length]. lia.
Qed.

(** A chain that resolves is not changed by connecting a dungeon exit that
    was not connected: the entrances placed earlier keep their chain and
    their outermost entrance while the loop goes on. *)
Theorem chain_stable_under_new_connection zone_entrance done_exits_to_entrances c x e :
  get_all_entrances_on_path_to_entrance zone_entrance done_exits_to_entrances
  = Return (Some c) →
  dict_get x done_exits_to_entrances = None →
  get_all_entrances_on_path_to_entrance zone_entrance
    (dict_set x e done_exits_to_entrances) = Return (Some c)
  ∧ get_outermost_entrance_for_entrance zone_entrance
      (dict_set x e done_exits_to_entrances)
    = get_outermost_entrance_for_entrance zone_entrance done_exits_to_entrances.
Proof.
  intros Hc Hx.
  assert (Hc' : get_all_entrances_on_path_to_entrance zone_entrance
                  (dict_set x e done_exits_to_entrances) = Return (Some c)).
  { apply resolves_iff. apply resolves_iff in Hc.
    eapply resolves_weaken; [|exact Hc].
    intros y v Hy. rewrite dict_get_set_ne; [done|]. intros ->. congruence. }
  split; [done|]. unfold get_outermost_entrance_for_entrance. by rewrite Hc, Hc'.
Qed.

Lemma chain_stable_under_new_connection_witness :
  let boss := nested_entrance "kindan" 16 0 1 "Boss Entrance in Forbidden Woods" in
  let gale := island_entrance "Ekaze" 0 0 1 "Dungeon Entrance on Gale Isle" "Gale Isle"
                "sea" 4 232 in
  let d := [(dungeon_exit "kindan" 0 0 0 "Forbidden Woods" "Forbidden Woods" "kinBOSS",
             gale)] in
  get_all_entrances_on_path_to_entrance boss (dict_set savage_labyrinth boss d)
  = Return (Some [boss; gale])
  ∧ get_outermost_entrance_for_entrance boss (dict_set savage_labyrinth boss d)
    = get_outermost_entrance_for_entrance boss d.
Proof.
  intros boss gale d.
  apply (chain_stable_under_new_connection boss d [boss; gale] savage_labyrinth boss);
    reflexivity.
Defined.

(** ** What a call writes *)

(** The call made for a pairing, the calls made for the boss arenas, and
    the path recorded for an exit that is not a dungeon's. *)
Definition entrance_call (d : list (ZoneExit * ZoneEntrance))
    (p : ZoneExit * ZoneEntrance) (c : StageCall) : Prop :=
  ∃ o, get_outermost_entrance_for_exit p.1 d = Return (Some o)
       ∧ c = update_entrance_to_lead_to_exit p.2 p.1 o.

Definition boss_warp_call (d : list (ZoneExit * ZoneEntrance))
    (boss_exit : ZoneExit) (c : StageCall) : Prop :=
  ∃ o, get_outermost_entrance_for_exit boss_exit d = Return (Some o)
       ∧ c = update_boss_warp_out_destination (Some (x_stage_name boss_exit)) o.

Definition dungeon_warp_call (d : list (ZoneExit * ZoneEntrance))
    (dungeon_exit : ZoneExit) (c : StageCall) : Prop :=
  ∃ e, dict_get dungeon_exit d = Some e
       ∧ c = update_boss_warp_out_destination (boss_stage_name dungeon_exit) e.

Definition path_of (d : list (ZoneExit * ZoneEntrance))
    (terminal_exit : ZoneExit) (path : list string) : Prop :=
  ∃ e c, dict_get terminal_exit d = Some e
         ∧ get_all_entrances_on_path_to_entrance e d = Return (Some c)
         ∧ path = reverse (entrance_name <$> c) ++ [unique_name terminal_exit].

Section effects.
Context (d : list (ZoneExit * ZoneEntrance)).

Lemma attribute_exits_effect items : ∀ self,
  (∀ x e, (x, e) ∈ items → ∃ o, get_outermost_entrance_for_exit x d = Return (Some o)) →
  ∃ self' calls, attribute_exits items d self = (self', Return tt)
    ∧ Forall2 (entrance_call d) items calls
    ∧ stage_calls self' = stage_calls self ++ (if dry_run self then [] else calls)
    ∧ dungeons_and_caves_only_start self' = dungeons_and_caves_only_start self.
Proof.
  induction items as [|[x e] items IH]; intros self Hres.
  - exists self, []. simpl. split_and!; [done|constructor| |done].
    destruct (dry_run self); by rewrite app_nil_r.
  - destruct (Hres x e) as [o Ho]; [by left|]. simpl. rewrite Ho.
    match goal with
    | |- context [attribute_exits items d ?s] => set (self2 := s)
    end.
    destruct (IH self2) as (self' & calls & -> & Hcalls & Hs & Hd).
    { intros x' e' Hin. apply (Hres x' e'). by right. }
    exists self', (update_entrance_to_lead_to_exit e x o :: calls).
    split_and!; [done| | |].
    + constructor; [|done]. by exists o.
    + rewrite Hs. subst self2. simpl. destruct (dry_run self) eqn:Hdry; simpl.
      * by rewrite Hdry.
      * by rewrite Hdry, <-(assoc_L (++)).
    + rewrite Hd. subst self2. simpl. by destruct (dry_run self).
Qed.

Lemma warp_out_of_bosses_effect xs : ∀ self,
  (∀ x, x ∈ xs → ∃ o, get_outermost_entrance_for_exit x d = Return (Some o)) →
  ∃ self' calls, warp_out_of_bosses xs d self = (self', Return tt)
    ∧ Forall2 (boss_warp_call d) xs calls
    ∧ stage_calls self' = stage_calls self ++ (if dry_run self then [] else calls)
    ∧ dungeons_and_caves_only_start self' = dungeons_and_caves_only_start self.
Proof.
  induction xs as [|x xs IH]; intros self Hres.
  - exists self, []. simpl. split_and!; [done|constructor| |done].
    destruct (dry_run self); by rewrite app_nil_r.
  - destruct (Hres x) as [o Ho]; [by left|]. simpl.
    destruct (dry_run self) eqn:Hdry.
    + destruct (IH self) as (self' & calls & -> & Hcalls & Hs & Hd);
        [intros; apply Hres; by right|].
      exists self', (update_boss_warp_out_destination (Some (x_stage_name x)) o :: calls).
      rewrite Hdry in Hs. split_and!; [done| |done..].
      constructor; [|done]. by exists o.
    + rewrite Ho.
      destruct (IH (call_stage (update_boss_warp_out_destination
                                  (Some (x_stage_name x)) o) self))
        as (self' & calls & -> & Hcalls & Hs & Hd); [intros; apply Hres; by right|].
      exists self', (update_boss_warp_out_destination (Some (x_stage_name x)) o :: calls).
      split_and!; [done| | |done].
      * constructor; [|done]. by exists o.
      * rewrite Hs. simpl. by rewrite Hdry, <-(assoc_L (++)).
Qed.

Lemma warp_out_of_dungeons_effect xs : ∀ self,
  (∀ x, x ∈ xs → is_Some (dict_get x d) ∧ is_Some (paired_boss_exit x)) →
  ∃ self' calls, warp_out_of_dungeons xs d self = (self', Return tt)
    ∧ Forall2 (dungeon_warp_call d) xs calls
    ∧ stage_calls self' = stage_calls self ++ (if dry_run self then [] else calls)
    ∧ dungeons_and_caves_only_start self' = dungeons_and_caves_only_start self.
Proof.
  induction xs as [|x xs IH]; intros self Hres.
  - exists self, []. simpl. split_and!; [done|constructor| |done].
    destruct (dry_run self); by rewrite app_nil_r.
  - destruct (Hres x) as [[e He] [b Hb]]; [by left|]. cbn [warp_out_of_dungeons].
    unfold dict_index. rewrite He. cbn beta iota. unfold paired_boss_exit in Hb.
    destruct (list_find _ BOSS_EXITS) as [[i b']|] eqn:Hfind; [|done].
    match goal with
    | |- context [warp_out_of_dungeons xs d ?s] => set (self2 := s)
    end.
    destruct (IH self2) as (self' & calls & -> & Hcalls & Hs & Hd).
    { intros x' Hin. apply (Hres x'). by right. }
    exists self', (update_boss_warp_out_destination (boss_stage_name x) e :: calls).
    split_and!; [done| | |].
    + constructor; [|done]. by exists e.
    + rewrite Hs. subst self2. simpl. destruct (dry_run self) eqn:Hdry; simpl.
      * by rewrite Hdry.
      * by rewrite Hdry, <-(assoc_L (++)).
    + rewrite Hd. subst self2. simpl. by destruct (dry_run self).
Qed.

Lemma nested_paths_effect xs : ∀ self,
  (∀ x, x ∈ xs → ∃ e c, dict_get x d = Some e
                        ∧ get_all_entrances_on_path_to_entrance e d = Return (Some c)) →
  ∃ self' paths, nested_paths xs d self = (self', Return tt)
    ∧ Forall2 (path_of d) xs paths
    ∧ nested_entrance_paths self' = nested_entrance_paths self ++ paths
    ∧ dungeons_and_caves_only_start self' = dungeons_and_caves_only_start self.
Proof.
  induction xs as [|x xs IH]; intros self Hres.
  - exists self, []. simpl. split_and!; [done|constructor|by rewrite app_nil_r|done].
  - destruct (Hres x) as (e & c & He & Hc); [by left|]. simpl.
    unfold dict_index. rewrite He, Hc.
    destruct (IH (set_nested_entrance_paths
                    (nested_entrance_paths self
                     ++ [reverse (unique_name x :: (entrance_name <$> c))]) self))
      as (self' & paths & -> & Hpaths & Hs & Hd); [intros; apply Hres; by right|].
    exists self', (reverse (unique_name x :: (entrance_name <$> c)) :: paths).
    split_and!; [done| | |done].
    + constructor; [|done]. exists e, c. split_and!; [done..|]. by rewrite reverse_cons.
    + rewrite Hs. simpl. by rewrite <-(assoc_L (++)).
Qed.
End effects.

Section finish_effects.
Context (self : Randomizer) (sel : Selection) (l0 l : Locals).
Context (Hinv : loop_inv self sel l0 l) (Hdone : relevant_entrances l = []).

Let d := done_exits_to_entrances l.

Lemma finish_effects :
  ∃ self' entrance_calls warp_calls,
    finish sel l = (self', Return tt)
    ∧ Forall2 (entrance_call d) d entrance_calls
    ∧ (if include_bosses sel then Forall2 (boss_warp_call d) BOSS_EXITS warp_calls
       else if include_dungeons sel
            then Forall2 (dungeon_warp_call d) DUNGEON_EXITS warp_calls
            else warp_calls = [])
    ∧ stage_calls self'
      = stage_calls self ++ (if dry_run self then [] else entrance_calls ++ warp_calls)
    ∧ (if include_bosses sel
       then Forall2 (path_of d) (filter (λ ex, ex ∉ DUNGEON_EXITS) (relevant_exits_of sel))
              (nested_entrance_paths self')
       else nested_entrance_paths self' = nested_entrance_paths (l_self l))
    ∧ dungeons_and_caves_only_start self' = dungeons_and_caves_only_start (l_self l)
    ∧ (∀ k, k ∉ zone_name <$> relevant_exits_of sel →
         (include_dungeons sel = true → include_bosses sel = false →
          Some k ∉ fmap zone_name <$> (paired_boss_exit <$> DUNGEON_EXITS)) →
         dict_get k (dungeon_and_cave_island_locations self')
         = dict_get k (dungeon_and_cave_island_locations self)).
Proof.
  pose proof (finished_item self sel l0 l Hinv Hdone) as Hitem.
  pose proof (finished_exit self sel l0 l Hinv Hdone) as Hexit.
  pose proof (finished_keys self sel l0 l Hinv Hdone) as Hkeys.
  fold d in Hitem, Hexit, Hkeys.
  unfold finish. fold d.
  assert (Hres1 : ∀ x e, (x, e) ∈ d →
            ∃ o, get_outermost_entrance_for_exit x d = Return (Some o)).
  { intros x e (_ & c & o & _ & Ho & _)%Hitem. eauto. }
  destruct (attribute_exits_spec d d (l_self l) Hres1)
    as (s1 & Heq1 & Hs1 & Hp1 & _ & Hk1 & _).
  destruct (attribute_exits_effect d d (l_self l) Hres1)
    as (s1' & calls1 & Heq1' & Hcalls1 & Hst1 & Hd1).
  rewrite Heq1 in Heq1'. injection Heq1' as <-. rewrite Heq1. cbn [and_then].
  rewrite (inv_calls _ _ _ _ Hinv), (inv_dry_run _ _ _ _ Hinv) in Hst1.
  assert (Hdry1 : dry_run s1 = dry_run self).
  { destruct Hs1 as (_ & -> & _). apply (inv_dry_run _ _ _ _ Hinv). }
  assert (Hisl1 : ∀ k, k ∉ zone_name <$> relevant_exits_of sel →
            dict_get k (dungeon_and_cave_island_locations s1)
            = dict_get k (dungeon_and_cave_island_locations self)).
  { intros k Hk. rewrite Hk1, (inv_islands _ _ _ _ Hinv); [done|]. by rewrite Hkeys. }
  destruct (include_bosses sel) eqn:Hb.
  - assert (Hres2 : ∀ x, x ∈ BOSS_EXITS →
              ∃ o, get_outermost_entrance_for_exit x d = Return (Some o)).
    { intros x Hx. destruct (Hexit x) as [e Hin]; [by apply boss_exits_relevant|].
      destruct (Hitem _ _ Hin) as (_ & c & o & _ & Ho & _). eauto. }
    destruct (warp_out_of_bosses_spec d BOSS_EXITS s1 Hres2)
      as (s2 & Heq2 & Hs2 & Hp2 & Hi2 & _).
    destruct (warp_out_of_bosses_effect d BOSS_EXITS s1 Hres2)
      as (s2' & calls2 & Heq2' & Hcalls2 & Hst2 & Hd2).
    rewrite Heq2 in Heq2'. injection Heq2' as <-. rewrite Heq2. cbn [and_then].
    assert (Hres3 : ∀ x, x ∈ filter (λ ex, ex ∉ DUNGEON_EXITS) (relevant_exits_of sel) →
              ∃ e c, dict_get x d = Some e
                     ∧ get_all_entrances_on_path_to_entrance e d = Return (Some c)).
    { intros x [_ Hx]%list_elem_of_filter. destruct (Hexit x Hx) as [e Hin].
      destruct (Hitem _ _ Hin) as (Hget & c & o & Hc & _). eauto. }
    destruct (nested_paths_spec d _ (set_nested_entrance_paths [] s2) Hres3)
      as (s3 & Heq3 & Hs3 & Hi3 & Hc3).
    destruct (nested_paths_effect d _ (set_nested_entrance_paths [] s2) Hres3)
      as (s3' & paths & Heq3' & Hpaths & Hp3 & Hd3).
    rewrite Heq3 in Heq3'. injection Heq3' as <-. rewrite Heq3.
    exists s3, calls1, calls2. split_and!; [done..| | | |].
    + rewrite Hc3. simpl. rewrite Hst2, Hst1, Hdry1.
      destruct (dry_run self); [by rewrite !app_nil_r|by rewrite (assoc_L (++))].
    + by rewrite Hp3.
    + rewrite Hd3. simpl. by rewrite Hd2, Hd1.
    + intros k Hk _. rewrite Hi3. simpl. rewrite Hi2. by apply Hisl1.
  - destruct (include_dungeons sel) eqn:Hdg.
    + assert (Hres2 : ∀ x, x ∈ DUNGEON_EXITS →
                is_Some (dict_get x d) ∧ is_Some (paired_boss_exit x)).
      { intros x Hx. split; [|by apply dungeon_exits_paired].
        destruct (Hexit x) as [e Hin]; [by apply dungeon_exits_relevant|].
        destruct (Hitem _ _ Hin) as (Hget & _). by rewrite Hget. }
      destruct (warp_out_of_dungeons_spec d DUNGEON_EXITS s1 Hres2)
        as (s2 & Heq2 & Hs2 & Hp2 & _ & Hk2 & _).
      destruct (warp_out_of_dungeons_effect d DUNGEON_EXITS s1 Hres2)
        as (s2' & calls2 & Heq2' & Hcalls2 & Hst2 & Hd2).
      rewrite Heq2 in Heq2'. injection Heq2' as <-. rewrite Heq2. cbn [and_then].
      exists s2, calls1, calls2. split_and!; [done..| | | |].
      * rewrite Hst2, Hst1, Hdry1.
        destruct (dry_run self); [by rewrite !app_nil_r|by rewrite (assoc_L (++))].
      * congruence.
      * congruence.
      * intros k Hk Hpaired. rewrite Hk2; [by apply Hisl1|by apply Hpaired].
    + cbn [and_then]. exists s1, calls1, []. split_and!; [done..| | | |].
      * rewrite Hst1. by rewrite app_nil_r.
      * done.
      * done.
      * intros k Hk _. by apply Hisl1.
Qed.
End finish_effects.

Lemma prepare_frame self sel s l0 :
  prepare self sel = (s, Return l0) →
  nested_entrance_paths (l_self l0) = nested_entrance_paths self
  ∧ entrance_connections (l_self l0) = entrance_connections self
  ∧ dungeons_and_caves_only_start (l_self l0) = dungeons_and_caves_only_start self.
Proof.
  unfold prepare.
  destruct (rng_shuffle _ _) as [shuffled rng1].
  destruct (if race_mode _ then _ else _) as [q|e|]; [|by intros [= _ <-]..].
  destruct (doing_progress_entrances_for_dungeons_and_caves_only_start _ sel);
    [|by intros [= _ <-]].
  destruct (rng_choice _ _) as [[sf rng2]|e|] eqn:Hc; [|by intros [= _ <-]..].
  destruct (list_remove sf q) as [rest|e|]; [|by intros [= _ <-]..].
  by intros [= _ <-].
Qed.

Lemma loop_frame self sel l0 l :
  prepared self sel l0 → reachable l0 l →
  nested_entrance_paths (l_self l) = nested_entrance_paths (l_self l0)
  ∧ dungeons_and_caves_only_start (l_self l) = dungeons_and_caves_only_start (l_self l0)
  ∧ ∀ k, k ∉ entrance_name <$> relevant_entrances_of sel →
         dict_get k (entrance_connections (l_self l))
         = dict_get k (entrance_connections (l_self l0)).
Proof.
  intros Hprep. induction 1 as [|l l' Hreach (IH1 & IH2 & IH3) Hb]; [done|].
  pose proof (loop_inv_reachable _ _ _ _ Hprep Hreach) as Hinv.
  apply loop_body_Next in Hb.
  inversion Hb as [ze rest Hq Ho|ze rest o zx rng' rem Hq Ho Hc Hr]; subst; cbn;
    [done|].
  split_and!; [done..|]. intros k Hk. rewrite dict_get_set_ne; [by apply IH3|].
  intros <-. apply Hk. apply list_elem_of_fmap. exists ze. split; [done|].
  rewrite <-(inv_entrances _ _ _ _ Hinv), Hq. apply elem_of_app. right. by left.
Qed.

(** The calls into the stage data of a call that is not a dry run: one
    [update_entrance_to_lead_to_exit] for each pairing, in the order of the
    pairings, with the pairing's outermost entrance; then one
    [update_boss_warp_out_destination] for each boss exit (with the bosses),
    or for each dungeon exit (dungeons without the bosses); and no other. *)
Theorem stage_calls_of_a_run fuel self sel self' :
  randomize_one_set_of_entrances fuel self sel = (self', Return tt) →
  dry_run self = false →
  ∃ l entrance_calls warp_calls,
    loop_result fuel self sel = Some (l, Return tt)
    ∧ stage_calls self' = stage_calls self ++ entrance_calls ++ warp_calls
    ∧ Forall2 (entrance_call (done_exits_to_entrances l)) (done_exits_to_entrances l)
        entrance_calls
    ∧ length entrance_calls = length (relevant_exits_of sel)
    ∧ (if include_bosses sel
       then Forall2 (boss_warp_call (done_exits_to_entrances l)) BOSS_EXITS warp_calls
       else if include_dungeons sel
            then Forall2 (dungeon_warp_call (done_exits_to_entrances l)) DUNGEON_EXITS
                   warp_calls
            else warp_calls = []).
Proof.
  intros (l & Hrun & Hfin)%run_Return Hdry.
  pose proof Hrun as (l0 & Hprep & _ & Hinv & Hm)%loop_result_inv.
  pose proof (proj1 (loop_body_Finished l) (main_loop_Return _ _ _ Hm)) as Hq.
  destruct (finish_effects _ _ _ _ Hinv Hq)
    as (s & calls1 & calls2 & Hfin' & Hc1 & Hc2 & Hst & _).
  rewrite Hfin in Hfin'. injection Hfin' as <-. rewrite Hdry in Hst.
  exists l, calls1, calls2. split_and!; [done..| |done].
  rewrite <-(Forall2_length _ _ _ Hc1), <-(length_fmap fst).
  apply Permutation_length. apply (finished_keys _ _ _ _ Hinv Hq).
Qed.

Lemma stage_calls_of_a_run_witness :
  ∃ l entrance_calls warp_calls,
    loop_result 931 plain_randomizer dungeons_only = Some (l, Return tt)
    ∧ stage_calls after_dungeons_run
      = stage_calls plain_randomizer ++ entrance_calls ++ warp_calls
    ∧ Forall2 (entrance_call (done_exits_to_entrances l)) (done_exits_to_entrances l)
        entrance_calls
    ∧ length entrance_calls = length (relevant_exits_of dungeons_only)
    ∧ (if include_bosses dungeons_only
       then Forall2 (boss_warp_call (done_exits_to_entrances l)) BOSS_EXITS warp_calls
       else if include_dungeons dungeons_only
            then Forall2 (dungeon_warp_call (done_exits_to_entrances l)) DUNGEON_EXITS
                   warp_calls
            else warp_calls = []).
Proof.
  apply (stage_calls_of_a_run 931 plain_randomizer dungeons_only after_dungeons_run);
    vm_compute; reflexivity.
Defined.

Lemma path_of_ends d x path :
  path_of d x path →
  last path = Some (unique_name x)
  ∧ ∃ o, get_outermost_entrance_for_exit x d = Return (Some o)
         ∧ island_name o ≠ None ∧ head path = Some (entrance_name o).
Proof.
  intros (e & c & He & Hc & ->). split; [apply last_snoc|].
  pose proof Hc as Hres%resolves_iff.
  destruct (resolves_outermost _ _ _ Hres) as (o & Ho & Hl & Hn).
  exists o. split_and!.
  - unfold get_outermost_entrance_for_exit, dict_index. by rewrite He.
  - unfold is_nested in Hn. by destruct (island_name o).
  - destruct Hres as (pre & lst & -> & _). rewrite last_snoc in Hl. injection Hl as ->.
    by rewrite fmap_app, reverse_app.
Qed.

(** [nested_entrance_paths] after a call that returns (lines 326-337): with
    the bosses selected it is replaced by one path for each selected exit
    that is not a dungeon's, in catalog order; a path lists the names of
    the entrances of the exit's chain from the outermost one, which has an
    island, inwards, and ends with the exit's unique name. Without the
    bosses it is left as it was. *)
Theorem nested_entrance_paths_of_a_run fuel self sel self' :
  randomize_one_set_of_entrances fuel self sel = (self', Return tt) →
  ∃ l, loop_result fuel self sel = Some (l, Return tt)
    ∧ if include_bosses sel then
        Forall2 (λ x path,
                   path_of (done_exits_to_entrances l) x path
                   ∧ last path = Some (unique_name x)
                   ∧ ∃ o, get_outermost_entrance_for_exit x (done_exits_to_entrances l)
                          = Return (Some o)
                          ∧ island_name o ≠ None
                          ∧ head path = Some (entrance_name o))
          (filter (λ ex, ex ∉ DUNGEON_EXITS) (relevant_exits_of sel))
          (nested_entrance_paths self')
      else nested_entrance_paths self' = nested_entrance_paths self.
Proof.
  unfold randomize_one_set_of_entrances, loop_result.
  destruct (prepare self sel) as [s [l0|e|]] eqn:Hp; try done.
  destruct (main_loop fuel l0) as [l [[]|e|]] eqn:Hm; try done.
  intros Hfin. exists l. split; [done|].
  pose proof (prepare_Return _ _ _ _ Hp) as Hprep.
  pose proof (main_loop_reachable _ _ _ _ Hm) as Hreach.
  pose proof (loop_inv_reachable _ _ _ _ Hprep Hreach) as Hinv.
  pose proof (proj1 (loop_body_Finished l) (main_loop_Return _ _ _ Hm)) as Hq.
  destruct (finish_effects _ _ _ _ Hinv Hq)
    as (s' & calls1 & calls2 & Hfin' & _ & _ & _ & Hpaths & _).
  rewrite Hfin in Hfin'. injection Hfin' as <-.
  destruct (include_bosses sel).
  - eapply Forall2_impl; [exact Hpaths|]. intros x path Hpath. split; [done|].
    by apply path_of_ends.
  - rewrite Hpaths. destruct (loop_frame _ _ _ _ Hprep Hreach) as (-> & _).
    by destruct (prepare_frame _ _ _ _ Hp) as (-> & _).
Qed.

Lemma nested_entrance_paths_of_a_run_witness :
  ∃ l, loop_result 931 plain_randomizer all_three = Some (l, Return tt)
    ∧ if include_bosses all_three then
        Forall2 (λ x path,
                   path_of (done_exits_to_entrances l) x path
                   ∧ last path = Some (unique_name x)
                   ∧ ∃ o, get_outermost_entrance_for_exit x (done_exits_to_entrances l)
                          = Return (Some o)
                          ∧ island_name o ≠ None
                          ∧ head path = Some (entrance_name o))
          (filter (λ ex, ex ∉ DUNGEON_EXITS) (relevant_exits_of all_three))
          (nested_entrance_paths after_complete_run)
      else nested_entrance_paths after_complete_run
           = nested_entrance_paths plain_randomizer.
Proof.
  apply (nested_entrance_paths_of_a_run 931 plain_randomizer all_three after_complete_run).
  vm_compute. reflexivity.
Defined.

(** ** What a call leaves alone *)

(** The zone names a call attributes an island to: those of the selected
    exits and, for the dungeons without the bosses, those of the boss
    arenas. *)
Definition written_zone_names (sel : Selection) : list string :=
  (zone_name <$> relevant_exits_of sel)
  ++ (if include_dungeons sel && negb (include_bosses sel)
      then zone_name <$> BOSS_EXITS else []).

Lemma paired_zone_names :
  fmap zone_name <$> (paired_boss_exit <$> DUNGEON_EXITS)
  = Some <$> (zone_name <$> BOSS_EXITS).
Proof. by_compute. Qed.

Lemma call_frame_of_run fuel self sel self' r :
  randomize_one_set_of_entrances fuel self sel = (self', r) →
  options self' = options self ∧ dry_run self' = dry_run self
  ∧ dungeons_and_caves_only_start self' = dungeons_and_caves_only_start self
  ∧ (∀ k, k ∉ entrance_name <$> relevant_entrances_of sel →
          dict_get k (entrance_connections self') = dict_get k (entrance_connections self))
  ∧ (∀ k, k ∉ written_zone_names sel →
          dict_get k (dungeon_and_cave_island_locations self')
          = dict_get k (dungeon_and_cave_island_locations self))
  ∧ (include_bosses sel = false →
     nested_entrance_paths self' = nested_entrance_paths self)
  ∧ (r ≠ Return tt →
     dungeon_and_cave_island_locations self' = dungeon_and_cave_island_locations self
     ∧ nested_entrance_paths self' = nested_entrance_paths self).
Proof.
  unfold randomize_one_set_of_entrances.
  destruct (prepare_total self sel) as (s & l0 & Hp). rewrite Hp.
  pose proof (prepare_Return _ _ _ _ Hp) as Hprep.
  destruct (prepare_frame _ _ _ _ Hp) as (Hp0 & Hc0 & Hd0).
  destruct (main_loop fuel l0) as [l r1] eqn:Hm.
  pose proof (main_loop_reachable _ _ _ _ Hm) as Hreach.
  pose proof (loop_inv_reachable _ _ _ _ Hprep Hreach) as Hinv.
  destruct (loop_frame _ _ _ _ Hprep Hreach) as (Hp1 & Hd1 & Hc1).
  assert (Hloop : options (l_self l) = options self ∧ dry_run (l_self l) = dry_run self
    ∧ dungeons_and_caves_only_start (l_self l) = dungeons_and_caves_only_start self
    ∧ (∀ k, k ∉ entrance_name <$> relevant_entrances_of sel →
            dict_get k (entrance_connections (l_self l))
            = dict_get k (entrance_connections self))
    ∧ (∀ k, k ∉ written_zone_names sel →
            dict_get k (dungeon_and_cave_island_locations (l_self l))
            = dict_get k (dungeon_and_cave_island_locations self))
    ∧ (include_bosses sel = false →
       nested_entrance_paths (l_self l) = nested_entrance_paths self)
    ∧ (dungeon_and_cave_island_locations (l_self l)
       = dungeon_and_cave_island_locations self
       ∧ nested_entrance_paths (l_self l) = nested_entrance_paths self)).
  { split_and!.
    - apply (inv_options _ _ _ _ Hinv).
    - apply (inv_dry_run _ _ _ _ Hinv).
    - congruence.
    - intros k Hk. rewrite Hc1 by done. by rewrite Hc0.
    - intros k _. by rewrite (inv_islands _ _ _ _ Hinv).
    - intros _. congruence.
    - apply (inv_islands _ _ _ _ Hinv).
    - congruence. }
  destruct r1 as [[]|e|].
  - pose proof (proj1 (loop_body_Finished l) (main_loop_Return _ _ _ Hm)) as Hq.
    destruct (finish_spec _ _ _ _ Hinv Hq) as (s1 & Hfin & (Ho & Hdry & _ & Hconn) & _).
    destruct (finish_effects _ _ _ _ Hinv Hq)
      as (s1' & calls1 & calls2 & Hfin' & _ & _ & _ & Hpaths & Hdcos & Hisl).
    rewrite Hfin in Hfin'. injection Hfin' as <-. rewrite Hfin. intros [= <- <-].
    destruct Hloop as (Ho' & Hdry' & Hdcos' & Hconn' & _ & Hpaths' & _).
    split_and!; [congruence..| | | |done].
    + intros k Hk. rewrite Hconn. by apply Hconn'.
    + intros k Hk. unfold written_zone_names in Hk.
      apply not_elem_of_app in Hk as [Hk1 Hk2]. apply Hisl; [done|].
      intros Hdg Hb. rewrite Hdg, Hb in Hk2. simpl in Hk2.
      rewrite paired_zone_names. intros (k' & [= <-] & Hin)%list_elem_of_fmap. done.
    + intros Hb. rewrite Hb in Hpaths. rewrite Hpaths. by apply Hpaths'.
  - intros [= <- <-]. destruct Hloop as (?&?&?&?&?&?&?). by split_and!.
  - intros [= <- <-]. destruct Hloop as (?&?&?&?&?&?&?). by split_and!.
Qed.

(** What a call leaves alone, however it ends: the options and flags, the
    connections of the entrances it does not select, the island of every
    zone it does not attribute, and (without the bosses) the nested paths;
    a call that does not return attributes no island at all. *)
Theorem call_frame fuel self sel self' r :
  randomize_one_set_of_entrances fuel self sel = (self', r) →
  options self' = options self ∧ dry_run self' = dry_run self
  ∧ dungeons_and_caves_only_start self' = dungeons_and_caves_only_start self
  ∧ (∀ k, k ∉ entrance_name <$> relevant_entrances_of sel →
          dict_get k (entrance_connections self') = dict_get k (entrance_connections self))
  ∧ (∀ k, k ∉ written_zone_names sel →
          dict_get k (dungeon_and_cave_island_locations self')
          = dict_get k (dungeon_and_cave_island_locations self))
  ∧ (include_bosses sel = false →
     nested_entrance_paths self' = nested_entrance_paths self)
  ∧ (r ≠ Return tt →
     dungeon_and_cave_island_locations self' = dungeon_and_cave_island_locations self
     ∧ nested_entrance_paths self' = nested_entrance_paths self).
Proof. apply call_frame_of_run. Qed.

Lemma call_frame_witness :
  options after_dungeons_run = options plain_randomizer
  ∧ dry_run after_dungeons_run = dry_run plain_randomizer
  ∧ dungeons_and_caves_only_start after_dungeons_run
    = dungeons_and_caves_only_start plain_randomizer
  ∧ (∀ k, k ∉ entrance_name <$> relevant_entrances_of dungeons_only →
          dict_get k (entrance_connections after_dungeons_run)
          = dict_get k (entrance_connections plain_randomizer))
  ∧ (∀ k, k ∉ written_zone_names dungeons_only →
          dict_get k (dungeon_and_cave_island_locations after_dungeons_run)
          = dict_get k (dungeon_and_cave_island_locations plain_randomizer))
  ∧ (include_bosses dungeons_only = false →
     nested_entrance_paths after_dungeons_run = nested_entrance_paths plain_randomizer)
  ∧ (Return tt ≠ Return tt →
     dungeon_and_cave_island_locations after_dungeons_run
     = dungeon_and_cave_island_locations plain_randomizer
     ∧ nested_entrance_paths after_dungeons_run = nested_entrance_paths plain_randomizer).
Proof.
  apply (call_frame 931 plain_randomizer dungeons_only after_dungeons_run (Return tt)).
  vm_compute. reflexivity.
Defined.

(** ** The selections of [randomize_entrances] together *)

(** Every zone of the selection has an island and every entrance of the
    selection is connected to one of its exits. *)
Definition attributed (sel : Selection) (self : Randomizer) : Prop :=
  (∀ k, k ∈ written_zone_names sel →
        ∃ island, dict_get k (dungeon_and_cave_island_locations self)
                  = Some (Some island))
  ∧ (∀ e, e ∈ relevant_entrances_of sel →
          ∃ x, x ∈ relevant_exits_of sel
               ∧ dict_get (entrance_name e) (entrance_connections self)
                 = Some (unique_name x)).

Lemma run_attributed fuel self sel self' :
  randomize_one_set_of_entrances fuel self sel = (self', Return tt) →
  attributed sel self'.
Proof.
  intros (l & Hrun & Hfin)%run_Return.
  pose proof Hrun as (l0 & Hprep & _ & Hinv & Hm)%loop_result_inv.
  pose proof (proj1 (loop_body_Finished l) (main_loop_Return _ _ _ Hm)) as Hq.
  destruct (finish_spec _ _ _ _ Hinv Hq) as (s & Hfin' & Hs & _ & Hexits & Hboss).
  rewrite Hfin in Hfin'. injection Hfin' as <-.
  pose proof (inv_entrances _ _ _ _ Hinv) as He. rewrite Hq, app_nil_r in He.
  pose proof (finished_keys _ _ _ _ Hinv Hq) as Hx.
  rewrite (inv_inverse _ _ _ _ Hinv), fst_swap_snd in Hx.
  split.
  - intros k Hk. unfold written_zone_names in Hk.
    apply elem_of_app in Hk as [(x & -> & Hin)%list_elem_of_fmap|Hk].
    + destruct (Hexits x Hin) as (e & o & _ & _ & Ho & Hget).
      destruct (island_name o) as [island|] eqn:Hi; [|done]. eauto.
    + destruct (include_dungeons sel) eqn:Hd; [|by apply elem_of_nil in Hk].
      destruct (include_bosses sel) eqn:Hb; [by apply elem_of_nil in Hk|]. simpl in Hk.
      assert (Hin : Some k ∈ fmap zone_name <$> (paired_boss_exit <$> DUNGEON_EXITS)).
      { rewrite paired_zone_names. apply list_elem_of_fmap. by exists k. }
      apply list_elem_of_fmap in Hin as (ob & Hob & Hin).
      apply list_elem_of_fmap in Hin as (dx & -> & Hdx).
      destruct (Hboss eq_refl eq_refl dx Hdx) as (e & b & Hget & Hpair & Hisl).
      rewrite Hpair in Hob. injection Hob as ->.
      destruct (inv_connected _ _ _ _ Hinv dx e Hget) as [Hin _]. rewrite He in Hin.
      destruct (is_nested e) eqn:Hn.
      { pose proof (nested_relevant _ _ Hin Hn). congruence. }
      unfold is_nested in Hn. destruct (island_name e) as [island|]; [|done]. eauto.
  - intros e Hin. rewrite <-He in Hin.
    apply list_elem_of_fmap in Hin as ([e' x] & -> & Hin). exists x. split.
    + rewrite <-Hx. apply list_elem_of_fmap. by exists (e', x).
    + destruct Hs as (_ & _ & _ & ->). by apply (inv_connections _ _ _ _ Hinv).
Qed.

Lemma randomize_each_frame fuel sels :
  ∀ self self' r, randomize_each fuel sels self = (self', r) →
    (∀ k, Forall (λ sel, k ∉ entrance_name <$> relevant_entrances_of sel) sels →
          dict_get k (entrance_connections self') = dict_get k (entrance_connections self))
    ∧ (∀ k, Forall (λ sel, k ∉ written_zone_names sel) sels →
            dict_get k (dungeon_and_cave_island_locations self')
            = dict_get k (dungeon_and_cave_island_locations self)).
Proof.
  induction sels as [|sel sels IH]; intros self self' r.
  - simpl. by intros [= <- _].
  - cbn [randomize_each].
    destruct (randomize_one_set_of_entrances fuel self sel) as [s1 r1] eqn:Hrun.
    destruct (call_frame_of_run _ _ _ _ _ Hrun) as (_ & _ & _ & Hc & Hi & _).
    assert (Hrest : ∃ r', and_then (s1, r1) (randomize_each fuel sels) = (self', r) →
                          randomize_each fuel sels s1 = (self', r')
                          ∨ self' = s1).
    { destruct r1 as [[]|e|]; simpl; [exists r; by left|exists r..];
        intros [= <- _]; by right. }
    destruct Hrest as [r' Hrest]. intros Hrun2. specialize (Hrest Hrun2).
    split; intros k [Hk Hks]%Forall_cons_1.
    + destruct Hrest as [Hrest| ->]; [|by apply Hc].
      destruct (IH _ _ _ Hrest) as [IHc _]. rewrite IHc by done. by apply Hc.
    + destruct Hrest as [Hrest| ->]; [|by apply Hi].
      destruct (IH _ _ _ Hrest) as [_ IHi]. rewrite IHi by done. by apply Hi.
Qed.

(** A later selection writes none of the connections and islands of an
    earlier one. *)
Definition disjoint_selections (a b : Selection) : Prop :=
  Forall (λ e, entrance_name e ∉ entrance_name <$> relevant_entrances_of b)
         (relevant_entrances_of a)
  ∧ Forall (λ k, k ∉ written_zone_names b) (written_zone_names a).

Fixpoint separate (sels : list Selection) : Prop :=
  match sels with
  | [] => True
  | a :: rest => Forall (disjoint_selections a) rest ∧ separate rest
  end.

Lemma selections_separate opt sels :
  selections_of_option opt = Return sels → separate sels.
Proof.
  unfold selections_of_option. repeat case_decide; intros [= <-]; simpl;
    repeat split; repeat constructor; by_compute.
Qed.

Lemma randomize_each_attributed fuel sels :
  separate sels →
  ∀ self self', randomize_each fuel sels self = (self', Return tt) →
                Forall (λ sel, attributed sel self') sels.
Proof.
  induction sels as [|sel sels IH]; intros Hsep self self'; [constructor|].
  destruct Hsep as [Hdisj Hsep]. cbn [randomize_each].
  destruct (randomize_one_set_of_entrances fuel self sel) as [s1 r1] eqn:Hrun.
  destruct r1 as [[]|e|]; simpl; [|done..]. intros Hrest.
  constructor; [|by eapply IH].
  destruct (run_attributed _ _ _ _ Hrun) as [Hz He].
  destruct (randomize_each_frame _ _ _ _ _ Hrest) as [Hfc Hfi]. split.
  - intros k Hk. destruct (Hz k Hk) as [island Hget]. exists island.
    rewrite Hfi; [done|]. eapply Forall_impl; [exact Hdisj|].
    intros b [_ Hb]. by eapply (proj1 (Forall_forall _ _)) in Hb.
  - intros e Hin. destruct (He e Hin) as (x & Hx & Hget). exists x. split; [done|].
    rewrite Hfc; [done|]. eapply Forall_impl; [exact Hdisj|].
    intros b [Hb _]. by eapply (proj1 (Forall_forall _ _)) in Hb.
Qed.

(** After [randomize_entrances] returns, whichever of the seven options was
    chosen, each of its selections is complete in the final state: every
    zone of its exits (and, for dungeons without bosses, every boss arena)
    is attributed an island, and every entrance of the selection is
    connected to an exit of the selection. The second call of the
    "Separately" options overwrites nothing of the first. *)
Theorem randomize_entrances_attributes_every_zone fuel self self' sels :
  randomize_entrances fuel self = (self', Return tt) →
  selections_of_option (randomize_entrances_option (options self)) = Return sels →
  ∀ sel, sel ∈ sels →
    (∀ k, k ∈ written_zone_names sel →
          ∃ island, dict_get k (dungeon_and_cave_island_locations self')
                    = Some (Some island))
    ∧ (∀ e, e ∈ relevant_entrances_of sel →
            ∃ x, x ∈ relevant_exits_of sel
                 ∧ dict_get (entrance_name e) (entrance_connections self')
                   = Some (unique_name x)).
Proof.
  unfold randomize_entrances. intros Hrun Hs. rewrite Hs in Hrun.
  pose proof (randomize_each_attributed fuel sels (selections_separate _ _ Hs) _ _ Hrun)
    as Hall.
  intros sel Hsel. by eapply (proj1 (Forall_forall _ _)) in Hall.
Qed.

(** Dungeons and caves randomized separately, from a random source that
    only draws 0. *)
Definition separately_randomizer : Randomizer :=
  mkRandomizer (mkOptions false false false false false
                  "Dungeons & Secret Caves (Separately)") false false [] [] [] [] [].

Definition after_separate_runs : Randomizer :=
  Eval vm_compute in (randomize_entrances 931 separately_randomizer).1.

Lemma randomize_entrances_attributes_every_zone_witness :
  (∀ k, k ∈ written_zone_names dungeons_only →
        ∃ island, dict_get k (dungeon_and_cave_island_locations after_separate_runs)
                  = Some (Some island))
  ∧ (∀ e, e ∈ relevant_entrances_of dungeons_only →
          ∃ x, x ∈ relevant_exits_of dungeons_only
               ∧ dict_get (entrance_name e) (entrance_connections after_separate_runs)
                 = Some (unique_name x)).
Proof.
  apply (randomize_entrances_attributes_every_zone 931 separately_randomizer
           after_separate_runs [dungeons_only; caves_only]);
    [vm_compute; reflexivity|vm_compute; reflexivity|by left].
Defined.

(** ** Dry runs *)

(** The same randomizer, as a dry run. *)
Definition as_dry_run (self : Randomizer) : Randomizer :=
  mkRandomizer (options self) (dungeons_and_caves_only_start self) true (rng self)
    (entrance_connections self) (dungeon_and_cave_island_locations self)
    (nested_entrance_paths self) (stage_calls self).

Definition as_dry_run_locals (l : Locals) : Locals :=
  mkLocals (as_dry_run (l_self l)) (doing_progress l) (safety_entrance l)
    (relevant_entrances l) (remaining_exits l)
    (done_entrances_to_exits l) (done_exits_to_entrances l).

(** Two randomizers that differ at most in [dry_run] and in the calls made
    into the stage data. *)
Definition same_outcome (s s' : Randomizer) : Prop :=
  options s' = options s
  ∧ dungeons_and_caves_only_start s' = dungeons_and_caves_only_start s
  ∧ rng s' = rng s
  ∧ entrance_connections s' = entrance_connections s
  ∧ dungeon_and_cave_island_locations s' = dungeon_and_cave_island_locations s
  ∧ nested_entrance_paths s' = nested_entrance_paths s.

Lemma same_outcome_as_dry_run s : same_outcome s (as_dry_run s).
Proof. by repeat split. Qed.

Lemma prepare_as_dry_run self sel :
  prepare (as_dry_run self) sel
  = match prepare self sel with
    | (s, Return l0) => (as_dry_run s, Return (as_dry_run_locals l0))
    | (s, Raise e) => (as_dry_run s, Raise e)
    | (s, OutOfFuel) => (as_dry_run s, OutOfFuel)
    end.
Proof.
  unfold prepare. cbn [rng as_dry_run].
  destruct (rng_shuffle _ _) as [shuffled rng1].
  change (options (set_rng rng1 (as_dry_run self))) with (options (set_rng rng1 self)).
  change (doing_progress_entrances_for_dungeons_and_caves_only_start
            (set_rng rng1 (as_dry_run self)) sel)
    with (doing_progress_entrances_for_dungeons_and_caves_only_start
            (set_rng rng1 self) sel).
  destruct (if race_mode _ then _ else _) as [q|e|]; [|done..].
  destruct (doing_progress_entrances_for_dungeons_and_caves_only_start _ sel); [|done].
  change (rng (set_rng rng1 (as_dry_run self))) with (rng (set_rng rng1 self)).
  destruct (rng_choice _ _) as [[sf rng2]|e|]; [|done..].
  by destruct (list_remove sf q) as [rest|e|].
Qed.

Lemma loop_body_as_dry_run l :
  loop_body (as_dry_run_locals l)
  = match loop_body l with
    | Next l' => Next (as_dry_run_locals l')
    | other => other
    end.
Proof.
  unfold loop_body. cbn [relevant_entrances done_exits_to_entrances as_dry_run_locals].
  destruct (relevant_entrances l) as [|ze rest]; [done|].
  destruct (get_outermost_entrance_for_entrance ze _) as [[o|]|e|]; [|done..].
  change (possible_remaining_exits (as_dry_run_locals l) ze)
    with (possible_remaining_exits l ze).
  destruct (possible_remaining_exits l ze) as [|c cs]; [done|].
  change (rng (l_self (as_dry_run_locals l))) with (rng (l_self l)).
  destruct (rng_choice _ _) as [[zx rng']|e|]; [|done..].
  cbn [remaining_exits as_dry_run_locals].
  by destruct (list_remove zx (remaining_exits l)) as [rem|e|].
Qed.

Lemma main_loop_as_dry_run fuel :
  ∀ l, main_loop fuel (as_dry_run_locals l)
       = ((as_dry_run_locals (main_loop fuel l).1), (main_loop fuel l).2).
Proof.
  induction fuel as [|fuel IH]; intros l; [done|]. cbn [main_loop].
  rewrite loop_body_as_dry_run. by destruct (loop_body l) as [|e| |l'].
Qed.

Section same_outcome.
Context (d : list (ZoneExit * ZoneEntrance)).

Lemma attribute_exits_same_outcome items :
  ∀ s s', same_outcome s s' →
    same_outcome (attribute_exits items d s).1 (attribute_exits items d s').1
    ∧ (attribute_exits items d s').2 = (attribute_exits items d s).2.
Proof.
  induction items as [|[x e] items IH]; intros s s' Hs; [done|]. simpl.
  destruct (get_outermost_entrance_for_exit x d) as [[o|]|err|]; [|done..].
  apply IH. destruct Hs as (?&?&?&?&Hi&?).
  destruct (dry_run s), (dry_run s'); repeat split; simpl; congruence.
Qed.

Lemma warp_out_of_bosses_same_outcome xs :
  (∀ x, x ∈ xs → ∃ o, get_outermost_entrance_for_exit x d = Return (Some o)) →
  ∀ s s', same_outcome s s' →
    same_outcome (warp_out_of_bosses xs d s).1 (warp_out_of_bosses xs d s').1
    ∧ (warp_out_of_bosses xs d s').2 = (warp_out_of_bosses xs d s).2.
Proof.
  induction xs as [|x xs IH]; intros Hres s s' Hs; [done|]. simpl.
  destruct (Hres x) as [o Ho]; [by left|]. rewrite Ho.
  assert (Hres' : ∀ x, x ∈ xs →
            ∃ o, get_outermost_entrance_for_exit x d = Return (Some o)).
  { intros; apply Hres; by right. }
  destruct (dry_run s), (dry_run s'); apply (IH Hres'); destruct Hs as (?&?&?&?&?&?);
    by repeat split.
Qed.

Lemma warp_out_of_dungeons_same_outcome xs :
  ∀ s s', same_outcome s s' →
    same_outcome (warp_out_of_dungeons xs d s).1 (warp_out_of_dungeons xs d s').1
    ∧ (warp_out_of_dungeons xs d s').2 = (warp_out_of_dungeons xs d s).2.
Proof.
  induction xs as [|x xs IH]; intros s s' Hs; [done|]. cbn [warp_out_of_dungeons].
  destruct (dict_index x d) as [e|err|]; [|done..].
  destruct (list_find _ BOSS_EXITS) as [[i b]|].
  - apply IH. destruct Hs as (?&?&?&?&Hi&?).
    destruct (dry_run s), (dry_run s'); repeat split; simpl; congruence.
  - simpl. split; [|done]. destruct Hs as (?&?&?&?&Hi&?).
    destruct (dry_run s), (dry_run s'); repeat split; simpl; congruence.
Qed.

Lemma nested_paths_same_outcome xs :
  ∀ s s', same_outcome s s' →
    same_outcome (nested_paths xs d s).1 (nested_paths xs d s').1
    ∧ (nested_paths xs d s').2 = (nested_paths xs d s).2.
Proof.
  induction xs as [|x xs IH]; intros s s' Hs; [done|]. simpl.
  destruct (dict_index x d) as [e|err|]; [|done..].
  destruct (get_all_entrances_on_path_to_entrance e d) as [[c|]|err|]; [|done..].
  apply IH. destruct Hs as (?&?&?&?&?&Hp). repeat split; simpl; congruence.
Qed.
End same_outcome.

Lemma finish_same_outcome self sel l0 l :
  loop_inv self sel l0 l → relevant_entrances l = [] →
  same_outcome (finish sel l).1 (finish sel (as_dry_run_locals l)).1
  ∧ (finish sel (as_dry_run_locals l)).2 = (finish sel l).2.
Proof.
  intros Hinv Hq.
  pose proof (finished_item self sel l0 l Hinv Hq) as Hitem.
  pose proof (finished_exit self sel l0 l Hinv Hq) as Hexit.
  unfold finish. cbn [done_exits_to_entrances as_dry_run_locals l_self].
  set (d := done_exits_to_entrances l) in *.
  destruct (attribute_exits_same_outcome d d (l_self l) (as_dry_run (l_self l))
              (same_outcome_as_dry_run _)) as [H1 H1'].
  destruct (attribute_exits d d (l_self l)) as [s1 r1].
  destruct (attribute_exits d d (as_dry_run (l_self l))) as [s1' r1'].
  simpl in H1, H1'. subst r1'. destruct r1 as [[]|e|]; [|done..]. cbn [and_then].
  destruct (include_bosses sel) eqn:Hb.
  - assert (Hres2 : ∀ x, x ∈ BOSS_EXITS →
              ∃ o, get_outermost_entrance_for_exit x d = Return (Some o)).
    { intros x Hx. destruct (Hexit x) as [e Hin]; [by apply boss_exits_relevant|].
      destruct (Hitem _ _ Hin) as (_ & c & o & _ & Ho & _). eauto. }
    destruct (warp_out_of_bosses_same_outcome d BOSS_EXITS Hres2 s1 s1' H1) as [H2 H2'].
    destruct (warp_out_of_bosses BOSS_EXITS d s1) as [s2 r2].
    destruct (warp_out_of_bosses BOSS_EXITS d s1') as [s2' r2'].
    simpl in H2, H2'. subst r2'. destruct r2 as [[]|e|]; [|done..]. cbn [and_then].
    apply nested_paths_same_outcome. destruct H2 as (?&?&?&?&?&?). by repeat split.
  - destruct (include_dungeons sel).
    + destruct (warp_out_of_dungeons_same_outcome d DUNGEON_EXITS s1 s1' H1) as [H2 H2'].
      destruct (warp_out_of_dungeons DUNGEON_EXITS d s1) as [s2 r2].
      destruct (warp_out_of_dungeons DUNGEON_EXITS d s1') as [s2' r2'].
      simpl in H2, H2'. subst r2'. by destruct r2 as [[]|e|].
    + done.
Qed.

(** A dry run makes the same draws, the same pairings and the same
    attributions as the real run, and ends the same way: [dry_run] only
    decides whether the calls into the stage data are made. *)
Theorem dry_run_same_outcome fuel self sel :
  same_outcome (randomize_one_set_of_entrances fuel self sel).1
               (randomize_one_set_of_entrances fuel (as_dry_run self) sel).1
  ∧ (randomize_one_set_of_entrances fuel (as_dry_run self) sel).2
    = (randomize_one_set_of_entrances fuel self sel).2
  ∧ stage_calls (randomize_one_set_of_entrances fuel (as_dry_run self) sel).1
    = stage_calls self.
Proof.
  assert (Hcalls : stage_calls (randomize_one_set_of_entrances fuel (as_dry_run self) sel).1
                   = stage_calls self).
  { destruct (randomize_one_set_of_entrances fuel (as_dry_run self) sel) as [s' r] eqn:Hrun.
    unfold randomize_one_set_of_entrances in Hrun.
    destruct (prepare_total (as_dry_run self) sel) as (s & l0 & Hp). rewrite Hp in Hrun.
    pose proof (prepare_Return _ _ _ _ Hp) as Hprep.
    destruct (main_loop fuel l0) as [l r1] eqn:Hm.
    pose proof (loop_inv_reachable _ _ _ _ Hprep (main_loop_reachable _ _ _ _ Hm)) as Hinv.
    destruct r1 as [[]|e|]; [|injection Hrun as <- _; apply (inv_calls _ _ _ _ Hinv)..].
    pose proof (proj1 (loop_body_Finished l) (main_loop_Return _ _ _ Hm)) as Hq.
    destruct (finish_spec _ _ _ _ Hinv Hq) as (s1 & Hfin & _ & Hdry & _).
    rewrite Hfin in Hrun. injection Hrun as <- _. by apply Hdry. }
  split_and!; [| |done]; clear Hcalls.
  all: unfold randomize_one_set_of_entrances; rewrite prepare_as_dry_run.
  all: destruct (prepare self sel) as [s [l0|e|]] eqn:Hp;
    [|by auto using same_outcome_as_dry_run..].
  all: rewrite main_loop_as_dry_run.
  all: pose proof (prepare_Return _ _ _ _ Hp) as Hprep.
  all: destruct (main_loop fuel l0) as [l r1] eqn:Hm.
  all: pose proof (loop_inv_reachable _ _ _ _ Hprep (main_loop_reachable _ _ _ _ Hm))
         as Hinv.
  all: cbn [fst snd].
  all: destruct r1 as [[]|e|]; [|by auto using same_outcome_as_dry_run..].
  all: pose proof (proj1 (loop_body_Finished l) (main_loop_Return _ _ _ Hm)) as Hq.
  all: by destruct (finish_same_outcome self sel l0 l Hinv Hq).
Qed.

(** ** Properties of the hint functions *)

Definition hint_item_classes : list string :=
  ["Triforce Chart"; "Triforce Shard"; "Treasure Chart"; "Tingle Statue"; "Small Key";
   "Big Key"]%string.

Lemma get_hint_item_name_cases item_name :
  get_hint_item_name item_name ∈ hint_item_classes
  ∨ get_hint_item_name item_name = item_name.
Proof.
  unfold get_hint_item_name.
  repeat match goal with
         | |- context [if ?b then _ else _] => destruct b; [left; by_compute|]
         end.
  by right.
Qed.

(** [get_hint_item_name] is idempotent: the name it gives is the name of
    its own class, so that looking a name up twice changes nothing. *)
Theorem get_hint_item_name_idempotent (item_name : string) :
  get_hint_item_name (get_hint_item_name item_name) = get_hint_item_name item_name.
Proof.
  destruct (get_hint_item_name_cases item_name) as [Hin|Heq]; [|by rewrite !Heq].
  revert Hin. generalize (get_hint_item_name item_name). apply Forall_forall.
  by_compute.
Qed.

Section hints_logic_properties.
Context (split_location_name_by_zone : string → string * string).
Context (is_dungeon_or_cave is_dungeon_location : string → bool).
Context (done_item_locations : list (string * string)).

(** The test a location passes to stay hintable. *)
Definition outside_barrens (self : HintsRandomizer) (barrens : list string)
    (location_name : string) : bool :=
  negb (mailbox_of_barren_dungeon location_name barrens)
  && negb (is_dungeon_location location_name
           && bool_decide ((split_location_name_by_zone location_name).1 ∈ barrens))
  && not_in_barrens
       (entrance_zone_of split_location_name_by_zone is_dungeon_or_cave self location_name)
       barrens.

Lemma barren_filter_loop_filter self barrens locations :
  ∀ acc,
    barren_filter_loop split_location_name_by_zone is_dungeon_or_cave is_dungeon_location
      self barrens locations acc
    = acc ++ filter (λ l, outside_barrens self barrens l = true) locations.
Proof.
  induction locations as [|l locations IH]; intros acc; simpl.
  { by rewrite app_nil_r. }
  unfold outside_barrens at 1.
  destruct (mailbox_of_barren_dungeon l barrens) eqn:Hm; simpl.
  { rewrite IH, filter_cons_False; [done|]. unfold outside_barrens. rewrite Hm. done. }
  destruct (is_dungeon_location l && _) eqn:Hd; simpl.
  { rewrite IH, filter_cons_False; [done|]. unfold outside_barrens. rewrite Hm, Hd. done. }
  destruct (not_in_barrens _ barrens) eqn:Hn.
  - rewrite IH, filter_cons_True; [by rewrite <-(assoc_L (++))|].
    unfold outside_barrens. by rewrite Hm, Hd.
  - rewrite IH, filter_cons_False; [done|]. unfold outside_barrens. rewrite Hm, Hd.
    simpl. fold (entrance_zone_of split_location_name_by_zone is_dungeon_or_cave self l).
    by rewrite Hn.
Qed.

Lemma mailbox_no_barrens l : mailbox_of_barren_dungeon l [] = false.
Proof.
  unfold mailbox_of_barren_dungeon.
  rewrite !(bool_decide_eq_false_2 (_ ∈ [])) by apply not_elem_of_nil.
  by rewrite !andb_false_r.
Qed.

(** [filter_out_hinted_barren_locations] keeps, in their order, exactly the
    locations that are not a letter of a barren dungeon's boss, not in a
    barren dungeon, and whose entrance zone is not a barren zone; with no
    barren hint it keeps everything, and filtering twice changes nothing. *)
Theorem filter_out_hinted_barren_locations_keeps (self : HintsRandomizer)
    (hintable_locations : list string) (hinted_barren_zones : list Hint) :
  let barrens := place <$> hinted_barren_zones in
  let kept := filter_out_hinted_barren_locations split_location_name_by_zone
      is_dungeon_or_cave is_dungeon_location self hintable_locations hinted_barren_zones in
  sublist kept hintable_locations
  ∧ (∀ l, l ∈ kept ↔
          l ∈ hintable_locations
          ∧ mailbox_of_barren_dungeon l barrens = false
          ∧ (is_dungeon_location l = true → (split_location_name_by_zone l).1 ∉ barrens)
          ∧ (∀ zone, entrance_zone_of split_location_name_by_zone is_dungeon_or_cave self l
                     = Some zone → zone ∉ barrens))
  ∧ (hinted_barren_zones = [] → kept = hintable_locations)
  ∧ filter_out_hinted_barren_locations split_location_name_by_zone
      is_dungeon_or_cave is_dungeon_location self kept hinted_barren_zones = kept.
Proof.
  intros barrens kept. subst kept. unfold filter_out_hinted_barren_locations.
  fold barrens. rewrite !barren_filter_loop_filter. simpl. split_and!.
  - apply sublist_filter.
  - intros l. rewrite list_elem_of_filter. unfold outside_barrens.
    rewrite !andb_true_iff, !negb_true_iff, andb_false_iff, bool_decide_eq_false.
    unfold not_in_barrens.
    destruct (entrance_zone_of split_location_name_by_zone is_dungeon_or_cave self l)
      as [zone|].
    + rewrite bool_decide_eq_true. split.
      * intros [[[Hm Hd] Hz] Hin]. split_and!; [done..| |by intros ? [= <-]].
        intros Hdl. destruct Hd as [Hd|Hd]; [congruence|done].
      * intros (Hin & Hm & Hd & Hz). split_and!; [done| |by apply Hz|done].
        destruct (is_dungeon_location l); [right; by apply Hd|by left].
    + split.
      * intros [[[Hm Hd] _] Hin]. split_and!; [done..| |done].
        intros Hdl. destruct Hd as [Hd|Hd]; [congruence|done].
      * intros (Hin & Hm & Hd & _). split_and!; [done| |done..].
        destruct (is_dungeon_location l); [right; by apply Hd|by left].
  - intros ->. subst barrens. simpl. induction hintable_locations as [|l ls IH]; [done|].
    rewrite filter_cons_True; [by rewrite IH|].
    unfold outside_barrens. rewrite mailbox_no_barrens.
    rewrite (bool_decide_eq_false_2 (_ ∈ [])) by apply not_elem_of_nil.
    rewrite andb_false_r. simpl. unfold not_in_barrens.
    destruct (entrance_zone_of split_location_name_by_zone is_dungeon_or_cave self l);
      [|done].
    apply bool_decide_eq_true_2, not_elem_of_nil.
  - induction hintable_locations as [|l ls IH]; [done|].
    destruct (outside_barrens self barrens l) eqn:Hk.
    + rewrite filter_cons_True by done. rewrite filter_cons_True by done. by rewrite IH.
    + rewrite filter_cons_False by (by rewrite Hk). done.
Qed.

Lemma new_Hint_Return type hint_place hint_reward h :
  new_Hint type hint_place hint_reward = Return h →
  hint_place = Some (place h) ∧ hint_type h = type ∧ reward h = hint_reward
  ∧ (type = BARREN ↔ hint_reward = None).
Proof.
  unfold new_Hint. destruct hint_place as [p|]; [|done].
  destruct type, hint_reward as [r|]; cbn; try done; intros [= <-]; cbn;
    split_and!; try done; split; done.
Qed.

(** [get_item_hint]: on an empty list it returns the pair of [None]s and
    changes nothing. Otherwise the chosen location is removed from the list
    (its first occurrence, nothing else); the hint is an ITEM hint for the
    item at that location, placed in the location's entrance zone, with
    "Tower of the Gods Sector" turned into "Tower of the Gods". The only
    exceptions are KeyError, for a location without an item, and the
    constructor's AssertionError, for an entrance zone that is [None]. *)
Theorem get_item_hint_outcomes (self : HintsRandomizer) (hintable_locations : list string)
    self' hintable_locations' r :
  get_item_hint split_location_name_by_zone is_dungeon_or_cave
    done_item_locations self hintable_locations = (self', hintable_locations', r) →
  rando self' = rando self
  ∧ island_to_fishman_hint self' = island_to_fishman_hint self
  ∧ hoho_index_to_hints self' = hoho_index_to_hints self
  ∧ match r with
    | Return (None, None) =>
        hintable_locations = [] ∧ hintable_locations' = [] ∧ self' = self
    | Return (Some item_hint, Some location_name) =>
        location_name ∈ hintable_locations
        ∧ list_remove location_name hintable_locations = Return hintable_locations'
        ∧ hintable_locations ≡ₚ location_name :: hintable_locations'
        ∧ hint_type item_hint = ITEM
        ∧ reward item_hint = dict_get location_name done_item_locations
        ∧ reward item_hint ≠ None
        ∧ place item_hint ≠ "Tower of the Gods Sector"%string
        ∧ ∃ zone, entrance_zone_of split_location_name_by_zone is_dungeon_or_cave self
                    location_name = Some zone
                  ∧ place item_hint
                    = if decide (zone = "Tower of the Gods Sector"%string)
                      then "Tower of the Gods"%string else zone
    | Return _ => False
    | Raise e =>
        ∃ location_name,
          location_name ∈ hintable_locations
          ∧ list_remove location_name hintable_locations = Return hintable_locations'
          ∧ ((e = KeyError ∧ dict_get location_name done_item_locations = None)
             ∨ (e = AssertionError
                ∧ entrance_zone_of split_location_name_by_zone is_dungeon_or_cave self
                    location_name = None))
    | OutOfFuel => False
    end.
Proof.
  unfold get_item_hint.
  destruct (decide (length hintable_locations = 0)) as [Hlen|Hlen].
  { intros [= <- <- <-]. apply nil_length_inv in Hlen. by subst. }
  destruct (rng_choice_nonempty hintable_locations (hints_rng self)) as (l & rng' & Hc).
  { by intros ->. }
  rewrite Hc. pose proof (rng_choice_Return _ _ _ _ Hc) as Hin.
  destruct (list_remove_elem_of _ _ Hin) as [rest Hrest]. rewrite Hrest.
  pose proof (list_remove_Permutation _ _ _ Hrest) as Hperm.
  unfold dict_index. destruct (dict_get l done_item_locations) as [item|] eqn:Hitem.
  2:{ intros [= <- <- <-]. split_and!; [done..|]. exists l. split_and!; [done..|].
      by left. }
  change (entrance_zone_of split_location_name_by_zone is_dungeon_or_cave
            (set_hints_rng rng' self) l)
    with (entrance_zone_of split_location_name_by_zone is_dungeon_or_cave self l).
  destruct (entrance_zone_of split_location_name_by_zone is_dungeon_or_cave self l)
    as [zone|] eqn:Hzone.
  2:{ rewrite decide_False by done. simpl.
      intros [= <- <- <-]. split_and!; [done..|]. exists l. split_and!; [done..|].
      by right. }
  destruct (new_Hint ITEM _ (Some item)) as [h|e|] eqn:Hh.
  - apply new_Hint_Return in Hh as (Hplace & Htype & Hreward & _).
    intros [= <- <- <-]. split_and!; try done.
    + by rewrite Hreward.
    + by rewrite Hreward.
    + destruct (decide (Some zone = Some "Tower of the Gods Sector"%string)) as [Hz|Hz];
        injection Hplace as <-; [done|]. intros ->. by apply Hz.
    + exists zone. split; [done|].
      destruct (decide (Some zone = Some "Tower of the Gods Sector"%string)) as [Hz|Hz];
        injection Hplace as <-.
      * injection Hz as ->. by rewrite decide_True.
      * rewrite decide_False; [done|]. intros ->. by apply Hz.
  - exfalso. unfold new_Hint in Hh.
    by destruct (decide (Some zone = Some "Tower of the Gods Sector"%string)).
  - exfalso. unfold new_Hint in Hh.
    by destruct (decide (Some zone = Some "Tower of the Gods Sector"%string)).
Qed.

(** The name of a required location, as [get_path_hint is_dungeon_location] builds it. *)
Definition path_location_name (t : PathLocation) : string :=
  let '(zone_name, _, specific_location_name, _) := t in
  (zone_name +:+ " - " +:+ specific_location_name)%string.

Lemma path_hint_loop_outcomes hinted_locations fuel :
  ∀ self unhinted_locations self' unhinted_locations' r,
    length unhinted_locations < fuel →
    path_hint_loop fuel self unhinted_locations hinted_locations
    = (self', unhinted_locations', r) →
    rando self' = rando self
    ∧ island_to_fishman_hint self' = island_to_fishman_hint self
    ∧ hoho_index_to_hints self' = hoho_index_to_hints self
    ∧ ∃ skipped,
        Forall (λ t, path_location_name t ∈ hinted_locations) skipped
        ∧ match r with
          | Return None =>
              unhinted_locations' = [] ∧ unhinted_locations ≡ₚ skipped
          | Return (Some (chosen, hinted_location)) =>
              hinted_location = path_location_name chosen
              ∧ (hinted_location ∉ hinted_locations)
              ∧ unhinted_locations ≡ₚ skipped ++ chosen :: unhinted_locations'
          | _ => False
          end.
Proof.
  induction fuel as [|fuel IH]; intros self unhinted self' unhinted' r Hfuel; [lia|].
  cbn [path_hint_loop].
  destruct (decide (length unhinted = 0)) as [Hlen|Hlen].
  { intros [= <- <- <-]. apply nil_length_inv in Hlen. subst.
    split_and!; [done..|]. by exists []. }
  destruct (rng_choice_nonempty unhinted (hints_rng self)) as (t & rng' & Hc).
  { by intros ->. }
  rewrite Hc. pose proof (rng_choice_Return _ _ _ _ Hc) as Hin.
  destruct (list_remove_elem_of _ _ Hin) as [rest Hrest].
  pose proof (list_remove_Permutation _ _ _ Hrest) as Hperm.
  destruct t as [[[zone_name entrance_zone] specific_location_name] item_name].
  rewrite Hrest.
  destruct (decide (_ ∉ hinted_locations)) as [Hnew|Hold].
  - intros [= <- <- <-]. split_and!; [done..|]. exists []. by split_and!.
  - intros Hloop. apply IH in Hloop as (Hr & Hf & Hh & skipped & Hskipped & Hres).
    2:{ apply Permutation_length in Hperm. simpl in Hperm. lia. }
    split_and!; [done..|].
    exists ((zone_name, entrance_zone, specific_location_name, item_name) :: skipped).
    split.
    + constructor; [|done]. simpl. by apply dec_stable.
    + destruct r as [[[chosen loc]|]|e|]; [| |done..].
      * destruct Hres as (? & ? & Hp). split_and!; [done..|]. by rewrite Hperm, Hp.
      * destruct Hres as [? Hp]. split; [done|]. by rewrite Hperm, Hp.
Qed.

(** [get_path_hint] ends within [len(unhinted_locations) + 1] iterations.
    Every location it draws leaves the list; those drawn before the last
    were all hinted already. It returns the pair of [None]s only when the
    list has been emptied that way; otherwise the location it returns was
    not hinted before, and the hint is a PATH hint for the boss of the
    path, placed in "Tower of the Gods Sector" for the sunken treasure of
    Tower of the Gods, in the zone for a dungeon location, and in the
    entrance zone otherwise. *)
Theorem get_path_hint_outcomes fuel (self : HintsRandomizer)
    (unhinted_locations : list PathLocation) (hinted_locations : list string)
    (path_name : string) self' unhinted_locations' r :
  length unhinted_locations < fuel →
  get_path_hint is_dungeon_location fuel self unhinted_locations hinted_locations path_name
  = (self', unhinted_locations', r) →
  rando self' = rando self
  ∧ island_to_fishman_hint self' = island_to_fishman_hint self
  ∧ hoho_index_to_hints self' = hoho_index_to_hints self
  ∧ r ≠ OutOfFuel
  ∧ ∃ skipped,
      Forall (λ t, path_location_name t ∈ hinted_locations) skipped
      ∧ match r with
        | Return (None, None) =>
            unhinted_locations' = [] ∧ unhinted_locations ≡ₚ skipped
        | Return (Some path_hint, Some hinted_location) =>
            (hinted_location ∉ hinted_locations)
            ∧ ∃ zone_name entrance_zone specific_location_name item_name,
                let chosen :=
                  (zone_name, entrance_zone, specific_location_name, item_name) in
                hinted_location = path_location_name chosen
                ∧ unhinted_locations ≡ₚ skipped ++ chosen :: unhinted_locations'
                ∧ hint_type path_hint = PATH
                ∧ reward path_hint = dict_get path_name DUNGEON_NAME_TO_BOSS_NAME
                ∧ reward path_hint ≠ None
                ∧ Some (place path_hint)
                  = if decide (hinted_location
                               = "Tower of the Gods - Sunken Treasure"%string)
                    then Some "Tower of the Gods Sector"%string
                    else if is_dungeon_location hinted_location then Some zone_name
                    else entrance_zone
        | Return _ => False
        | Raise e =>
            (e = KeyError ∧ dict_get path_name DUNGEON_NAME_TO_BOSS_NAME = None)
            ∨ e = AssertionError
        | OutOfFuel => False
        end.
Proof.
  intros Hfuel. unfold get_path_hint.
  destruct (path_hint_loop fuel self unhinted_locations hinted_locations)
    as [[s1 u1] r1] eqn:Hloop.
  apply path_hint_loop_outcomes in Hloop as (Hr & Hf & Hh & skipped & Hskipped & Hres);
    [|done].
  destruct r1 as [[[[[[zone_name entrance_zone] specific] item] loc]|]|e|]; [| |done..].
  - destruct Hres as (Hloc & Hnew & Hperm).
    unfold dict_index.
    destruct (dict_get path_name DUNGEON_NAME_TO_BOSS_NAME) as [boss|] eqn:Hboss.
    2:{ intros [= <- <- <-]. split_and!; [done..|]. exists skipped. split; [done|].
        by left. }
    destruct (new_Hint PATH _ (Some boss)) as [h|e|] eqn:Hh'.
    + apply new_Hint_Return in Hh' as (Hplace & Htype & Hreward & _).
      intros [= <- <- <-]. split_and!; [done..|]. exists skipped. split; [done|].
      split; [done|]. exists zone_name, entrance_zone, specific, item.
      split_and!; try done; by rewrite Hreward.
    + intros [= <- <- <-]. split_and!; [done..|]. exists skipped. split; [done|].
      right. unfold new_Hint in Hh'.
      destruct (if decide _ then _ else _); [done|]. by injection Hh' as <-.
    + exfalso. unfold new_Hint in Hh'. by destruct (if decide _ then _ else _).
  - intros [= <- <- <-]. split_and!; [done..|]. by exists skipped.
Qed.
End hints_logic_properties.

(** An example of the logic's helpers: names split at the first " - ", every
    location in a dungeon or cave, and two placed items. *)
Fixpoint example_split (location_name : string) : string * string :=
  match location_name with
  | EmptyString => (EmptyString, EmptyString)
  | String c rest =>
      if String.prefix " - " location_name then (EmptyString, string_drop 3 location_name)
      else let '(zone, specific) := example_split rest in (String c zone, specific)
  end.

Definition example_done_item_locations : list (string * string) :=
  [("Dragon Roost Cavern - First Room", "Grappling Hook");
   ("Outset Island - Great Fairy", "Bombs")]%string.

Definition example_hints_randomizer : HintsRandomizer :=
  mkHintsRandomizer after_dungeons_run [0; 0; 0] [] [].

Definition example_item_hint :
    HintsRandomizer * list string * result (option Hint * option string) :=
  Eval vm_compute in
    get_item_hint example_split (λ _, true) example_done_item_locations
      example_hints_randomizer
      ["Dragon Roost Cavern - First Room"; "Outset Island - Great Fairy"]%string.

Lemma get_item_hint_outcomes_witness :
  ∃ item_hint location_name rest,
    example_item_hint.2 = Return (Some item_hint, Some location_name)
    ∧ list_remove location_name
        ["Dragon Roost Cavern - First Room"; "Outset Island - Great Fairy"]%string
      = Return rest
    ∧ hint_type item_hint = ITEM
    ∧ place item_hint ≠ "Tower of the Gods Sector"%string.
Proof.
  pose proof (get_item_hint_outcomes example_split (λ _, true) example_done_item_locations
                example_hints_randomizer
                ["Dragon Roost Cavern - First Room"; "Outset Island - Great Fairy"]%string
                example_item_hint.1.1 example_item_hint.1.2 example_item_hint.2 eq_refl)
    as (_ & _ & _ & H).
  cbn in H. destruct H as (_ & Hrem & _ & Htype & _ & _ & Hplace & _).
  eexists _, _, _. split; [reflexivity|]. by split_and!.
Defined.

Definition example_path_hint :
    HintsRandomizer * list PathLocation * result (option Hint * option string) :=
  Eval vm_compute in
    get_path_hint (λ _, false) 3 example_hints_randomizer
      [("Dragon Roost Cavern", Some "Dragon Roost Island", "First Room", "Grappling Hook");
       ("Outset Island", Some "Outset Island", "Great Fairy", "Bombs")]%string
      ["Dragon Roost Cavern - First Room"]%string "Hyrule".

Lemma get_path_hint_outcomes_witness :
  ∃ path_hint hinted_location,
    example_path_hint.2 = Return (Some path_hint, Some hinted_location)
    ∧ (hinted_location ∉ ["Dragon Roost Cavern - First Room"%string])
    ∧ hint_type path_hint = PATH
    ∧ reward path_hint = Some "Hyrule"%string.
Proof.
  pose proof (get_path_hint_outcomes (λ _, false) 3 example_hints_randomizer
                [("Dragon Roost Cavern", Some "Dragon Roost Island", "First Room",
                  "Grappling Hook");
                 ("Outset Island", Some "Outset Island", "Great Fairy", "Bombs")]%string
                ["Dragon Roost Cavern - First Room"]%string "Hyrule"
                example_path_hint.1.1 example_path_hint.1.2 example_path_hint.2
                ltac:(simpl; lia) eq_refl)
    as (_ & _ & _ & _ & skipped & _ & H).
  cbn in H. destruct H as (Hnew & z & ez & sp & it & _ & _ & Htype & Hreward & _).
  eexists _, _. split; [reflexivity|]. by split_and!.
Defined.

(** ** Hints for the fishmen and for Old Man Ho Ho *)

Lemma dict_set_keys {K V} `{EqDecision K} (k : K) (v : V) d :
  k ∈ d.*1 → (dict_set k v d).*1 = d.*1.
Proof.
  induction d as [|[k' v'] d IH]; [by intros []%elem_of_nil|]. cbn [dict_set].
  destruct (decide (k' = k)) as [->|Hne]; [done|]. rewrite !fmap_cons.
  intros [?|Hin]%elem_of_cons; [simpl in *; congruence|]. f_equal. by apply IH.
Qed.

Lemma dict_get_is_Some {K V} `{EqDecision K} (k : K) (d : list (K * V)) :
  k ∈ d.*1 → is_Some (dict_get k d).
Proof.
  intros Hin. destruct (dict_get k d) eqn:E; [done|].
  by apply dict_get_None in E.
Qed.

Lemma list_index_mod {A} (l : list A) i :
  l ≠ [] → ∃ a, list_index l (i mod length l) = Return a ∧ l !! (i mod length l) = Some a.
Proof.
  intros Hl. unfold list_index.
  destruct (lookup_lt_is_Some_2 l (i mod length l)) as [a Ha].
  { apply Nat.mod_upper_bound. by destruct l. }
  exists a. by rewrite Ha.
Qed.

Lemma fishmen_loop_Return hints (Hhints : hints ≠ []) islands :
  ∀ k d, NoDup islands → (∀ x, x ∈ islands → x ∉ d.*1) →
    ∃ d', fishmen_loop hints k islands d = (d', Return tt)
      ∧ d'.*1 = d.*1 ++ islands
      ∧ (∀ x, x ∈ d.*1 → dict_get x d' = dict_get x d)
      ∧ (∀ i island, islands !! i = Some island →
           dict_get island d' = hints !! ((k + i) mod length hints)).
Proof.
  induction islands as [|island islands IH]; intros k d Hnd Hfresh.
  { exists d. simpl. split_and!; [done|by rewrite app_nil_r|done|done]. }
  apply NoDup_cons in Hnd as [Hisland Hnd]. cbn [fishmen_loop].
  destruct (list_index_mod hints k Hhints) as (h & -> & Hh).
  assert (Hd1 : dict_set island h d = d ++ [(island, h)]).
  { apply dict_set_fresh, Hfresh. by left. }
  destruct (IH (S k) (dict_set island h d) Hnd) as (d' & -> & Hkeys & Hold & Hnew).
  { intros x Hx. rewrite Hd1, fmap_app, elem_of_app. simpl.
    intros [Hin|Hin%list_elem_of_singleton].
    - by apply (Hfresh x); [right|].
    - by subst. }
  exists d'. split_and!; [done| | |].
  - rewrite Hkeys, Hd1, fmap_app. simpl. by rewrite <-(assoc_L (++)).
  - intros x Hx. rewrite Hold.
    + apply dict_get_set_ne. intros ->. by apply (Hfresh x); [left|].
    + rewrite Hd1, fmap_app, elem_of_app. by left.
  - intros [|i] x Hi; simpl in Hi.
    + injection Hi as ->. rewrite Nat.add_0_r, Hh, Hold.
      * apply dict_get_set_eq.
      * rewrite Hd1, fmap_app, elem_of_app. right. by left.
    + rewrite (Hnew i x Hi). f_equal. f_equal. lia.
Qed.

(** [distribute_fishmen_hints]: the assertion fails on an empty list and
    nothing is changed. Otherwise each of the 49 islands gets exactly one
    hint, the island at position [i] of the shuffled order getting hint
    [i % len(hints)]; so that every island has a hint of the list and, with
    at most 49 hints, every hint is on some island. *)
Theorem distribute_fishmen_hints_covers (hints : list Hint) (self : HintsRandomizer) :
  (hints = [] → distribute_fishmen_hints hints self = (self, Raise AssertionError))
  ∧ (hints ≠ [] →
     ∃ self' islands,
       distribute_fishmen_hints hints self = (self', Return tt)
       ∧ rando self' = rando self
       ∧ hoho_index_to_hints self' = hoho_index_to_hints self
       ∧ islands ≡ₚ seq 1 49
       ∧ (island_to_fishman_hint self').*1 = islands
       ∧ (∀ i island, islands !! i = Some island →
            dict_get island (island_to_fishman_hint self')
            = hints !! (i mod length hints))
       ∧ (∀ island, 1 ≤ island ≤ 49 →
            ∃ h, dict_get island (island_to_fishman_hint self') = Some h ∧ h ∈ hints)
       ∧ (length hints ≤ 49 →
          ∀ h, h ∈ hints →
            ∃ island, 1 ≤ island ≤ 49
                      ∧ dict_get island (island_to_fishman_hint self') = Some h)).
Proof.
  split; [by intros ->|]. intros Hhints. unfold distribute_fishmen_hints.
  destruct hints as [|h0 hints0] eqn:Hdef; [done|]. rewrite <-Hdef in *.
  pose proof (rng_shuffle_Permutation (seq 1 49) (hints_rng self)) as Hperm.
  destruct (rng_shuffle (seq 1 49) (hints_rng self)) as [islands rng'].
  cbn [fst] in Hperm.
  assert (Hnd : NoDup islands) by (rewrite Hperm; apply NoDup_seq).
  destruct (fishmen_loop_Return hints Hhints islands 0 [] Hnd)
    as (d & -> & Hkeys & _ & Hnew).
  { intros x _. apply not_elem_of_nil. }
  assert (Hlen : length islands = 49) by (by rewrite Hperm).
  exists (set_island_to_fishman_hint d (set_hints_rng rng' self)), islands.
  split_and!; try done.
  - intros island Hisland.
    assert (Hin : island ∈ islands) by (rewrite Hperm; apply elem_of_seq; lia).
    apply list_elem_of_lookup in Hin as [i Hi]. cbn. rewrite (Hnew i island Hi).
    destruct (list_index_mod hints i Hhints) as (h & _ & Hh). exists h.
    split; [done|]. by eapply list_elem_of_lookup_2.
  - intros Hfew h [j Hj]%list_elem_of_lookup.
    pose proof (lookup_lt_Some _ _ _ Hj) as Hlt.
    destruct (lookup_lt_is_Some_2 islands j) as [island Hisland]; [lia|].
    exists island. split.
    + apply list_elem_of_lookup_2 in Hisland. rewrite Hperm in Hisland.
      apply elem_of_seq in Hisland. lia.
    + cbn. rewrite (Hnew j island Hisland). simpl. by rewrite Nat.mod_small.
Qed.

Lemma hoho_round_Return hints (Hhints : hints ≠ []) hohos :
  ∀ k d, NoDup hohos → (∀ x, x ∈ hohos → x ∈ d.*1) →
    ∃ d', hoho_round hints k hohos d = (d', Return (k + length hohos))
      ∧ d'.*1 = d.*1
      ∧ (∀ x, x ∉ hohos → dict_get x d' = dict_get x d)
      ∧ (∀ p hoho, hohos !! p = Some hoho →
           ∃ given h, dict_get hoho d = Some given
                      ∧ hints !! ((k + p) mod length hints) = Some h
                      ∧ dict_get hoho d' = Some (given ++ [h])).
Proof.
  induction hohos as [|hoho hohos IH]; intros k d Hnd Hkeys.
  { exists d. simpl. rewrite Nat.add_0_r. split_and!; done. }
  apply NoDup_cons in Hnd as [Hhoho Hnd]. cbn [hoho_round].
  destruct (list_index_mod hints k Hhints) as (h & -> & Hh).
  destruct (dict_get_is_Some hoho d) as [given Hgiven]; [apply Hkeys; by left|].
  unfold dict_index. rewrite Hgiven.
  assert (Hkeys1 : (dict_set hoho (given ++ [h]) d).*1 = d.*1).
  { apply dict_set_keys, Hkeys. by left. }
  destruct (IH (S k) (dict_set hoho (given ++ [h]) d) Hnd)
    as (d' & -> & Hkeys' & Hold & Hnew).
  { intros x Hx. rewrite Hkeys1. apply Hkeys. by right. }
  exists d'. split_and!.
  - simpl. do 2 f_equal. lia.
  - by rewrite Hkeys'.
  - intros x [Hne Hx]%not_elem_of_cons. rewrite Hold by done.
    by apply dict_get_set_ne.
  - intros [|p] x Hp; simpl in Hp.
    + injection Hp as ->. exists given, h. rewrite Nat.add_0_r. split_and!; [done..|].
      rewrite Hold by done. apply dict_get_set_eq.
    + destruct (Hnew p x Hp) as (given' & h' & Hg & Hh' & Hd').
      exists given', h'. split_and!; [|by replace (k + S p) with (S k + p) by lia|done].
      rewrite <-Hg. symmetry. apply dict_get_set_ne. intros ->.
      apply Hhoho. by eapply list_elem_of_lookup_2.
Qed.

(** What each Ho Ho has been given after [rounds] rounds: the Ho Ho at
    position [p] of the shuffled order has hint [(10 j + p) % len(hints)]
    from round [j]. *)
Definition hoho_given (hints : list Hint) (hohos : list nat) (rounds : nat)
    (d : list (nat * list Hint)) : Prop :=
  d.*1 = seq 0 10
  ∧ ∀ p hoho, hohos !! p = Some hoho →
      ∃ given, dict_get hoho d = Some given ∧ length given = rounds
               ∧ ∀ j, j < rounds →
                      given !! j = hints !! ((10 * j + p) mod length hints).

Lemma hoho_loop_Return hints (Hhints : hints ≠ []) hohos :
  hohos ≡ₚ seq 0 10 →
  ∀ fuel rounds d,
    hoho_given hints hohos rounds d →
    10 * rounds < length hints + 10 →
    (length hints + 9) / 10 - rounds ≤ fuel →
    ∃ d', hoho_loop fuel hints (10 * rounds) hohos d = (d', Return tt)
          ∧ hoho_given hints hohos ((length hints + 9) / 10) d'.
Proof.
  intros Hperm.
  assert (Hnd : NoDup hohos) by (rewrite Hperm; apply NoDup_seq).
  assert (Hlen : length hohos = 10) by (by rewrite Hperm).
  pose proof (Nat.div_mod_eq (length hints + 9) 10) as Hdiv.
  pose proof (Nat.mod_upper_bound (length hints + 9) 10) as Hmod.
  set (total := (length hints + 9) / 10) in *.
  induction fuel as [|fuel IH]; intros rounds d Hinv Hbound Hfuel.
  - exists d. simpl. rewrite decide_False by lia. split; [done|].
    by replace total with rounds by lia.
  - cbn [hoho_loop]. destruct (decide (10 * rounds < length hints)) as [Hlt|Hge].
    2:{ exists d. split; [done|]. by replace total with rounds by lia. }
    destruct Hinv as [Hkeys Hinv].
    destruct (hoho_round_Return hints Hhints hohos (10 * rounds) d Hnd)
      as (d1 & -> & Hkeys1 & _ & Hnew).
    { intros x Hx. rewrite Hkeys, <-Hperm. done. }
    rewrite Hlen. replace (10 * rounds + 10) with (10 * S rounds) by lia.
    apply IH; [|lia..]. split; [congruence|].
    intros p hoho Hp. destruct (Hnew p hoho Hp) as (given & h & Hg & Hh & Hd1).
    destruct (Hinv p hoho Hp) as (given' & Hg' & Hlen' & Hgiven).
    rewrite Hg in Hg'. injection Hg' as <-.
    exists (given ++ [h]). split_and!; [done|rewrite length_app; simpl; lia|].
    intros j Hj. destruct (decide (j < rounds)) as [Hjr|Hjr].
    + rewrite lookup_app_l by lia. by apply Hgiven.
    + replace j with rounds by lia. rewrite lookup_app_r by lia.
      by rewrite Hlen', Nat.sub_diag, Hh.
Qed.

(** [distribute_hoho_hints], for a list of hints that is not empty: the
    ten Ho Hos all get the same number of hints, the least number of rounds
    that uses every hint ([ceil(len(hints) / 10)]); the Ho Ho at position
    [p] of the shuffled order gets hint [(10 j + p) % len(hints)] in round
    [j], so that every hint is given by some Ho Ho. *)
Theorem distribute_hoho_hints_even (fuel : nat) (hints : list Hint)
    (self : HintsRandomizer) :
  hints ≠ [] → (length hints + 9) / 10 ≤ fuel →
  let rounds := (length hints + 9) / 10 in
  ∃ self' hohos,
    distribute_hoho_hints fuel hints self = (self', Return tt)
    ∧ rando self' = rando self
    ∧ island_to_fishman_hint self' = island_to_fishman_hint self
    ∧ hohos ≡ₚ seq 0 10
    ∧ length hints ≤ 10 * rounds < length hints + 10
    ∧ hoho_given hints hohos rounds (hoho_index_to_hints self')
    ∧ (∀ hoho, hoho < 10 →
         ∃ given, dict_get hoho (hoho_index_to_hints self') = Some given
                  ∧ length given = rounds ∧ Forall (λ h, h ∈ hints) given)
    ∧ (∀ h, h ∈ hints →
         ∃ hoho given, hoho < 10
                       ∧ dict_get hoho (hoho_index_to_hints self') = Some given
                       ∧ h ∈ given).
Proof.
  intros Hhints Hfuel rounds. subst rounds. unfold distribute_hoho_hints.
  destruct hints as [|h0 hints0] eqn:Hdef; [done|]. rewrite <-Hdef in *.
  pose proof (rng_shuffle_Permutation (seq 0 10) (hints_rng self)) as Hperm.
  destruct (rng_shuffle (seq 0 10) (hints_rng self)) as [hohos rng'].
  cbn [fst] in Hperm.
  assert (Hlen : length hohos = 10) by (by rewrite Hperm).
  pose proof (Nat.div_mod_eq (length hints + 9) 10) as Hdiv.
  pose proof (Nat.mod_upper_bound (length hints + 9) 10) as Hmod.
  rewrite Hlen.
  destruct (hoho_loop_Return hints Hhints hohos Hperm fuel 0 (empty_hoho_lists 10 []))
    as (d & Hloop & Hinv).
  { split; [done|]. intros p hoho Hp. exists [].
    assert (Hin : hoho ∈ seq 0 10).
    { rewrite <-Hperm. by eapply list_elem_of_lookup_2. }
    split_and!; [|done|lia].
    revert Hin. generalize hoho. apply Forall_forall. by_compute. }
  { lia. }
  { lia. }
  change (10 * 0) with 0 in Hloop. rewrite Hloop.
  set (rounds := (length hints + 9) / 10) in *. clearbody rounds.
  exists (set_hoho_index_to_hints d (set_hints_rng rng' self)), hohos.
  split_and!; [done..|lia|lia|exact Hinv| |].
  - intros hoho Hhoho.
    assert (Hin : hoho ∈ hohos) by (rewrite Hperm; apply elem_of_seq; lia).
    apply list_elem_of_lookup in Hin as [p Hp].
    destruct Hinv as [_ Hinv]. destruct (Hinv p hoho Hp) as (given & Hg & Hl & Hgiven).
    exists given. split_and!; [done..|].
    apply Forall_lookup. intros j h Hj.
    pose proof (lookup_lt_Some _ _ _ Hj) as Hlt.
    rewrite Hgiven in Hj by lia. by eapply list_elem_of_lookup_2.
  - intros h [t Ht]%list_elem_of_lookup.
    pose proof (lookup_lt_Some _ _ _ Ht) as Hlt.
    pose proof (Nat.div_mod_eq t 10) as Htd.
    pose proof (Nat.mod_upper_bound t 10) as Htm.
    destruct (lookup_lt_is_Some_2 hohos (t mod 10)) as [hoho Hhoho]; [lia|].
    destruct Hinv as [_ Hinv].
    destruct (Hinv _ hoho Hhoho) as (given & Hg & Hl & Hgiven).
    exists hoho, given. split_and!; [|done|].
    + apply list_elem_of_lookup_2 in Hhoho. rewrite Hperm in Hhoho.
      apply elem_of_seq in Hhoho. lia.
    + apply (list_elem_of_lookup_2 _ (t / 10)). rewrite Hgiven.
      * rewrite <-Htd. by rewrite Nat.mod_small.
      * lia.
Qed.

Definition example_hints : list Hint :=
  [mkHint BARREN "Outset Island" None;
   mkHint ITEM "Windfall Island" (Some "Bombs"%string);
   mkHint LOCATION "Ganon's Tower - Maze Chest" (Some "Hookshot"%string)]%string.

Definition after_hoho_hints : HintsRandomizer :=
  Eval vm_compute in (distribute_hoho_hints 1 example_hints example_hints_randomizer).1.

Lemma distribute_hoho_hints_even_witness :
  ∃ hohos,
    distribute_hoho_hints 1 example_hints example_hints_randomizer
    = (after_hoho_hints, Return tt)
    ∧ hohos ≡ₚ seq 0 10
    ∧ hoho_given example_hints hohos 1 (hoho_index_to_hints after_hoho_hints)
    ∧ (∀ h, h ∈ example_hints →
         ∃ hoho given, hoho < 10
                       ∧ dict_get hoho (hoho_index_to_hints after_hoho_hints) = Some given
                       ∧ h ∈ given).
Proof.
  destruct (distribute_hoho_hints_even 1 example_hints example_hints_randomizer)
    as (self' & hohos & Hrun & _ & _ & Hperm & _ & Hgiven & _ & Hall);
    [done|vm_compute; lia|].
  assert (Heq : self' = after_hoho_hints).
  { assert (H : (self', Return tt) = (after_hoho_hints, Return tt));
      [rewrite <-Hrun; vm_compute; reflexivity|by injection H]. }
  subst self'. exists hohos. by split_and!.
Defined.

(** ** The arguments of the calls into the stage data *)

(** An outermost entrance that [update_entrance_to_lead_to_exit] and
    [update_boss_warp_out_destination] can use: an entrance of the
    selection, with an island (looked up in [island_name_to_number]) and a
    wind-warp destination. *)
Definition island_outermost (sel : Selection) (o : ZoneEntrance) : Prop :=
  o ∈ relevant_entrances_of sel ∧ island_name o ≠ None
  ∧ warp_out_stage_name o ≠ None ∧ warp_out_room_num o ≠ None
  ∧ warp_out_spawn_id o ≠ None.

Definition well_formed_call (sel : Selection) (c : StageCall) : Prop :=
  match c with
  | update_entrance_to_lead_to_exit zone_entrance zone_exit outermost_entrance =>
      zone_entrance ∈ relevant_entrances_of sel ∧ zone_exit ∈ relevant_exits_of sel
      ∧ island_outermost sel outermost_entrance
  | update_boss_warp_out_destination boss_stage outermost_entrance =>
      boss_stage ≠ None ∧ island_outermost sel outermost_entrance
  end.

Lemma Forall2_Forall_r_elem_of {A B} (P : A → B → Prop) (Q : B → Prop) l k :
  Forall2 P l k → (∀ x y, x ∈ l → P x y → Q y) → Forall Q k.
Proof.
  induction 1 as [|x y l k Hxy _ IH]; intros HQ; constructor.
  - apply (HQ x y); [by left|done].
  - apply IH. intros x' y' Hin. apply HQ. by right.
Qed.

Lemma islands_have_warp_out o :
  o ∈ ALL_ENTRANCES → island_name o ≠ None →
  warp_out_stage_name o ≠ None ∧ warp_out_room_num o ≠ None ∧ warp_out_spawn_id o ≠ None.
Proof.
  intros Ho.
  assert (H : Forall (λ o, island_name o ≠ None →
                           warp_out_stage_name o ≠ None ∧ warp_out_room_num o ≠ None
                           ∧ warp_out_spawn_id o ≠ None) ALL_ENTRANCES) by by_compute.
  by eapply (proj1 (Forall_forall _ _)) in H.
Qed.

Lemma dungeon_exits_have_boss_stage x : x ∈ DUNGEON_EXITS → boss_stage_name x ≠ None.
Proof. revert x. apply Forall_forall. by_compute. Qed.

Section stage_call_arguments.
Context (self : Randomizer) (sel : Selection) (l0 l : Locals).
Context (Hinv : loop_inv self sel l0 l) (Hdone : relevant_entrances l = []).

Lemma placed_entrance_relevant e :
  e ∈ (done_entrances_to_exits l).*1 → e ∈ relevant_entrances_of sel.
Proof.
  intros He. rewrite <-(inv_entrances _ _ _ _ Hinv). apply elem_of_app. by left.
Qed.

Lemma outermost_island_outermost x o :
  get_outermost_entrance_for_exit x (done_exits_to_entrances l) = Return (Some o) →
  island_outermost sel o.
Proof.
  unfold get_outermost_entrance_for_exit, dict_index.
  destruct (dict_get x (done_exits_to_entrances l)) as [e|] eqn:Hget; [|done].
  simpl. intros Ho.
  destruct (inv_connected _ _ _ _ Hinv x e Hget) as [He _].
  pose proof Ho as (c & Hc%resolves_iff & Hlast)%outermost_Some.
  destruct (resolves_outermost _ _ _ Hc) as (o' & Ho' & _ & Hn).
  rewrite Ho in Ho'. injection Ho' as <-.
  destruct Hc as (pre & lst & -> & Hw & _). rewrite last_snoc in Hlast.
  injection Hlast as ->.
  assert (Hrel : o ∈ relevant_entrances_of sel).
  { destruct (walk_end _ _ _ _ Hw) as [->|[y Hy]]; [by apply placed_entrance_relevant|].
    destruct (inv_connected _ _ _ _ Hinv y o Hy) as [Hin _].
    by apply placed_entrance_relevant. }
  assert (Hisl : island_name o ≠ None).
  { unfold is_nested in Hn. by destruct (island_name o). }
  split_and!; [done..| | |];
    apply (islands_have_warp_out o (relevant_entrances_catalog _ _ Hrel) Hisl).
Qed.

Lemma finish_calls_well_formed :
  ∃ self' calls,
    finish sel l = (self', Return tt)
    ∧ stage_calls self' = stage_calls self ++ calls
    ∧ Forall (well_formed_call sel) calls.
Proof.
  destruct (finish_effects _ _ _ _ Hinv Hdone)
    as (s & calls1 & calls2 & Hfin & Hc1 & Hc2 & Hst & _).
  exists s, (if dry_run self then [] else calls1 ++ calls2). split_and!; [done..|].
  destruct (dry_run self); [constructor|]. apply Forall_app. split.
  - eapply Forall2_Forall_r_elem_of; [exact Hc1|].
    intros [x e] c Hin (o & Ho & ->). simpl in *.
    pose proof (finished_keys_NoDup _ _ _ _ Hinv Hdone) as Hnd.
    pose proof (dict_get_elem_of _ _ _ Hnd Hin) as Hget.
    destruct (inv_connected _ _ _ _ Hinv x e Hget) as [He Hx].
    split_and!; [by apply placed_entrance_relevant| |by eapply outermost_island_outermost].
    rewrite <-(inv_exits _ _ _ _ Hinv). apply elem_of_app. by left.
  - destruct (include_bosses sel) eqn:Hb; [|destruct (include_dungeons sel) eqn:Hd].
    + eapply Forall2_Forall_r_elem_of; [exact Hc2|].
      intros x c _ (o & Ho & ->). split; [done|]. by eapply outermost_island_outermost.
    + eapply Forall2_Forall_r_elem_of; [exact Hc2|].
      intros x c Hx (e & Hget & ->). split; [by apply dungeon_exits_have_boss_stage|].
      destruct (inv_connected _ _ _ _ Hinv x e Hget) as [He _].
      apply placed_entrance_relevant in He.
      assert (Hisl : island_name e ≠ None).
      { destruct (is_nested e) eqn:Hn.
        - pose proof (nested_relevant _ _ He Hn). congruence.
        - unfold is_nested in Hn. by destruct (island_name e). }
      split_and!; [done..| | |];
        apply (islands_have_warp_out e (relevant_entrances_catalog _ _ He) Hisl).
    + subst calls2. constructor.
Qed.
End stage_call_arguments.

(** Every call a returning run makes into the stage data has usable
    arguments: the outermost entrance it passes is an entrance of the
    selection that has an island and a wind-warp destination (never a
    nested entrance, whose island and destination are [None]); an
    [update_entrance_to_lead_to_exit] call is for an entrance and an exit of
    the selection, and an [update_boss_warp_out_destination] call names a
    boss stage. *)
Theorem stage_calls_well_formed fuel self sel self' :
  randomize_one_set_of_entrances fuel self sel = (self', Return tt) →
  ∃ calls, stage_calls self' = stage_calls self ++ calls
           ∧ Forall (well_formed_call sel) calls.
Proof.
  intros (l & Hrun & Hfin)%run_Return.
  pose proof Hrun as (l0 & Hprep & _ & Hinv & Hm)%loop_result_inv.
  pose proof (proj1 (loop_body_Finished l) (main_loop_Return _ _ _ Hm)) as Hq.
  destruct (finish_calls_well_formed _ _ _ _ Hinv Hq) as (s & calls & Hfin' & Hst & Hwf).
  rewrite Hfin in Hfin'. injection Hfin' as <-. eauto.
Qed.

Lemma stage_calls_well_formed_witness :
  ∃ calls, stage_calls after_complete_run = stage_calls plain_randomizer ++ calls
           ∧ Forall (well_formed_call all_three) calls.
Proof.
  apply (stage_calls_well_formed 931 plain_randomizer all_three after_complete_run).
  vm_compute. reflexivity.
Defined.

(** ** The entrance zone of a location after a run *)

Section zone_after_run.
Context (split_location_name_by_zone : string → string * string).
Context (is_dungeon_or_cave : string → bool).

(** The zone a location is looked up under: its override, or the zone
    part of its name. *)
Definition exit_zone_name (location_name : string) : string :=
  match dict_get location_name ITEM_LOCATION_NAME_TO_EXIT_ZONE_NAME_OVERRIDES with
  | Some zone => zone
  | None => (split_location_name_by_zone location_name).1
  end.

(** After a call that returns, the entrance zone of a dungeon or cave
    location of a zone that the call attributed is always a name: the
    island attributed to the zone, with "Tower of the Gods" replaced by
    "Tower of the Gods Sector"; it is never [None] and never "Tower of the
    Gods". *)
Theorem entrance_zone_after_run fuel self sel self' (location_name : string) :
  randomize_one_set_of_entrances fuel self sel = (self', Return tt) →
  is_dungeon_or_cave location_name = true →
  exit_zone_name location_name ∈ written_zone_names sel →
  ∃ island,
    dict_get (exit_zone_name location_name) (dungeon_and_cave_island_locations self')
    = Some (Some island)
    ∧ get_entrance_zone_for_item_location split_location_name_by_zone is_dungeon_or_cave
        self' location_name
      = Some (if decide (island = "Tower of the Gods"%string)
              then "Tower of the Gods Sector"%string else island)
    ∧ get_entrance_zone_for_item_location split_location_name_by_zone is_dungeon_or_cave
        self' location_name
      ≠ Some "Tower of the Gods"%string.
Proof.
  intros Hrun Hdc Hzone.
  destruct (run_attributed _ _ _ _ Hrun) as [Hattr _].
  destruct (Hattr _ Hzone) as [island Hget]. exists island.
  assert (Hres : get_entrance_zone_for_item_location split_location_name_by_zone
                   is_dungeon_or_cave self' location_name
                 = Some (if decide (island = "Tower of the Gods"%string)
                         then "Tower of the Gods Sector"%string else island)).
  { unfold get_entrance_zone_for_item_location, tower_of_the_gods_sector.
    unfold exit_zone_name in Hget. revert Hget.
    generalize (dict_get location_name ITEM_LOCATION_NAME_TO_EXIT_ZONE_NAME_OVERRIDES).
    intros override. destruct (split_location_name_by_zone location_name) as [zone sp].
    simpl. intros ->. rewrite Hdc.
    destruct (decide (island = "Tower of the Gods"%string)) as [->|Hne].
    - by rewrite decide_True.
    - rewrite decide_False; [done|]. by intros [= ->]. }
  split_and!; [done..|]. rewrite Hres.
  destruct (decide (island = "Tower of the Gods"%string)); [done|]. by intros [= ->].
Qed.
End zone_after_run.

Lemma entrance_zone_after_run_witness :
  ∃ island,
    dict_get (exit_zone_name example_split "Dragon Roost Cavern - First Room")
      (dungeon_and_cave_island_locations after_dungeons_run)
    = Some (Some island)
    ∧ get_entrance_zone_for_item_location example_split (λ _, true)
        after_dungeons_run "Dragon Roost Cavern - First Room"
      = Some (if decide (island = "Tower of the Gods"%string)
              then "Tower of the Gods Sector"%string else island)
    ∧ get_entrance_zone_for_item_location example_split (λ _, true)
        after_dungeons_run "Dragon Roost Cavern - First Room"
      ≠ Some "Tower of the Gods"%string.
Proof.
  apply (entrance_zone_after_run example_split (λ _, true) 931 plain_randomizer
           dungeons_only after_dungeons_run "Dragon Roost Cavern - First Room");
    [vm_compute; reflexivity|reflexivity|by_compute].
Defined.

(** ** Sector coordinates *)

(** The sector coordinates determine the island number; the first is
    always between -3 and 3, and the second is exactly for the island
    numbers 1 to 49: these are sent one to one onto the 7 by 7 grid. *)
Theorem sector_coordinates_grid (island_number : Z) :
  let '(x, y) := sector_coordinates island_number in
  (-3 ≤ x ≤ 3)%Z
  ∧ island_number = (7 * (y + 3) + (x + 3) + 1)%Z
  ∧ ((-3 ≤ y ≤ 3)%Z ↔ (1 ≤ island_number ≤ 49)%Z).
Proof.
  unfold sector_coordinates. cbv zeta.
  pose proof (Z.div_mod (island_number - 1) 7 ltac:(lia)) as Hdm.
  pose proof (Z.mod_pos_bound (island_number - 1) 7 ltac:(lia)) as Hm.
  repeat split; lia.
Qed.
